(** * straits-babel: the trait-dispatch rewriting pass of [plugin.js]

    A shallow embedding of the Babel plugin of [src/plugin.js] and of the
    resolver routine it injects, with the properties of the pass stated
    and proved over it.

    - [Ast]: the part of the Babel tree the pass reads and writes.
    - [Resolver]: the run-time routine [GET_SYMBOL] of the template.
    - [Plugin]: [TraitNamespace], [finalCheck], [cleanString] and the
      [Program] visitor, step by step.
    - [Props]: the vocabulary of the properties.
    - [Samples]: a few units and a name service to run the pass on.
    - [ResolverProofs], [PluginProofs]: the properties, C1 to C10, and
      further properties of the same code, X1 and on. *)

From Stdlib Require Import List String Ascii Bool Arith Lia DecimalString Permutation.
From stdpp Require base strings gmap.
Import ListNotations.
Local Open Scope string_scope.
Local Open Scope list_scope.

Set Warnings "-register-all".

(* ===================================================================== *)
(** * The tree *)
(* ===================================================================== *)

Module Ast.

(** A template element of a template literal: [value.raw], [value.cooked]
    and [tail]. *)
Record TemplateElement := mkTemplateElement {
  raw : string;
  cooked : string;
  tail : bool
}.

(** Nodes: the statements and expressions that matter to the pass, those
    that hold identifiers, literals, blocks and labeled statements; the
    other node types of Babel would only add cases of the same kinds.
    Every [Identifier] node of Babel's tree is a [string] here:
    the expression [Identifier], the property of a member expression that
    is not computed, a label, the [id] of a declarator or of a function,
    a parameter.

    The source compares node paths by reference (keys of a [Map], members
    of a [Set]).  Blocks and labeled statements therefore carry a [ref],
    the identity of the node object; the parser gives distinct nodes
    distinct identities.

    [MemberExpression o p] is [o.p] ([computed === false], the property is
    the identifier [p]); [ComputedMemberExpression o e] is [o[e]]
    ([computed === true]).

    [GetSymbolDeclaration g] is the function declaration that the template
    of the [Program] visitor builds with [GET_SYMBOL] replaced by [g]: its
    text is fixed, and [g] is its only identifier that depends on the
    unit (the others are [targetSymName], [symbolSets], [symbol],
    [symbolSet], [Error]). *)
Inductive expr : Type :=
| Identifier (name : string)
| ThisExpression
| NumericLiteral (value : nat)
| StringLiteral (value : string)
| TemplateLiteral (quasis : list TemplateElement) (expressions : list expr)
| MemberExpression (object : expr) (property : string)
| ComputedMemberExpression (object : expr) (property : expr)
| CallExpression (callee : expr) (arguments : list expr)
| AssignmentExpression (left : expr) (right : expr)
| FunctionExpression (params : list string) (body : block)
with stmt : Type :=
| ExpressionStatement (expression : expr)
| LabeledStatement (ref : nat) (label : string) (body : stmt)
| BlockStatement (b : block)
| VariableDeclaration (kind : string) (declarations : list (string * expr))
| FunctionDeclaration (id : string) (params : list string) (body : block)
| ReturnStatement (argument : expr)
| IfStatement (test : expr) (consequent : stmt)
| GetSymbolDeclaration (id : string)
with block : Type :=
| Block (ref : nat) (body : list stmt).

(** The compiled unit: the [body] of the [Program] node. *)
Record program := Program { program_body : list stmt }.

(** ** Induction over the three node types at once *)

Section Induction.
Variable Pe : expr -> Prop.
Variable Ps : stmt -> Prop.
Variable Pb : block -> Prop.

Hypothesis HIdentifier : forall n, Pe (Identifier n).
Hypothesis HThis : Pe ThisExpression.
Hypothesis HNumeric : forall n, Pe (NumericLiteral n).
Hypothesis HString : forall s, Pe (StringLiteral s).
Hypothesis HTemplate : forall qs es, Forall Pe es -> Pe (TemplateLiteral qs es).
Hypothesis HMember : forall o p, Pe o -> Pe (MemberExpression o p).
Hypothesis HComputed : forall o e, Pe o -> Pe e -> Pe (ComputedMemberExpression o e).
Hypothesis HCall : forall c args, Pe c -> Forall Pe args -> Pe (CallExpression c args).
Hypothesis HAssign : forall l r, Pe l -> Pe r -> Pe (AssignmentExpression l r).
Hypothesis HFunctionE : forall ps b, Pb b -> Pe (FunctionExpression ps b).
Hypothesis HExpression : forall e, Pe e -> Ps (ExpressionStatement e).
Hypothesis HLabeled : forall r l s, Ps s -> Ps (LabeledStatement r l s).
Hypothesis HBlockS : forall b, Pb b -> Ps (BlockStatement b).
Hypothesis HVariable : forall k ds,
    Forall (fun d => Pe (snd d)) ds -> Ps (VariableDeclaration k ds).
Hypothesis HFunctionD : forall i ps b, Pb b -> Ps (FunctionDeclaration i ps b).
Hypothesis HReturn : forall e, Pe e -> Ps (ReturnStatement e).
Hypothesis HIf : forall e s, Pe e -> Ps s -> Ps (IfStatement e s).
Hypothesis HGetSymbol : forall g, Ps (GetSymbolDeclaration g).
Hypothesis HBlock : forall r ss, Forall Ps ss -> Pb (Block r ss).

Fixpoint expr_ind' (e : expr) : Pe e :=
  match e with
  | Identifier n => HIdentifier n
  | ThisExpression => HThis
  | NumericLiteral n => HNumeric n
  | StringLiteral s => HString s
  | TemplateLiteral qs es =>
      HTemplate qs es
        ((fix go (l : list expr) : Forall Pe l :=
            match l with
            | [] => @Forall_nil _ _
            | x :: l' => @Forall_cons _ _ x l' (expr_ind' x) (go l')
            end) es)
  | MemberExpression o p => HMember o p (expr_ind' o)
  | ComputedMemberExpression o x => HComputed o x (expr_ind' o) (expr_ind' x)
  | CallExpression c args =>
      HCall c args (expr_ind' c)
        ((fix go (l : list expr) : Forall Pe l :=
            match l with
            | [] => @Forall_nil _ _
            | x :: l' => @Forall_cons _ _ x l' (expr_ind' x) (go l')
            end) args)
  | AssignmentExpression l r => HAssign l r (expr_ind' l) (expr_ind' r)
  | FunctionExpression ps b => HFunctionE ps b (block_ind' b)
  end
with stmt_ind' (s : stmt) : Ps s :=
  match s with
  | ExpressionStatement e => HExpression e (expr_ind' e)
  | LabeledStatement r l s' => HLabeled r l s' (stmt_ind' s')
  | BlockStatement b => HBlockS b (block_ind' b)
  | VariableDeclaration k ds =>
      HVariable k ds
        ((fix go (l : list (string * expr)) : Forall (fun d => Pe (snd d)) l :=
            match l with
            | [] => @Forall_nil _ _
            | d :: l' => @Forall_cons _ _ d l' (expr_ind' (snd d)) (go l')
            end) ds)
  | FunctionDeclaration i ps b => HFunctionD i ps b (block_ind' b)
  | ReturnStatement e => HReturn e (expr_ind' e)
  | IfStatement e s' => HIf e s' (expr_ind' e) (stmt_ind' s')
  | GetSymbolDeclaration g => HGetSymbol g
  end
with block_ind' (b : block) : Pb b :=
  match b with
  | Block r ss =>
      HBlock r ss
        ((fix go (l : list stmt) : Forall Ps l :=
            match l with
            | [] => @Forall_nil _ _
            | x :: l' => @Forall_cons _ _ x l' (stmt_ind' x) (go l')
            end) ss)
  end.

Definition node_ind :
  (forall e, Pe e) /\ (forall s, Ps s) /\ (forall b, Pb b) :=
  conj expr_ind' (conj stmt_ind' block_ind').
End Induction.

End Ast.

(* ===================================================================== *)
(** * Outcomes *)
(* ===================================================================== *)

(** A call either returns or throws. *)
Inductive result (E A : Type) : Type :=
| Ok (a : A)
| Throw (e : E).
Arguments Ok {E A} a.
Arguments Throw {E A} e.

(* ===================================================================== *)
(** * The resolver routine *)
(* ===================================================================== *)

Module Resolver.
Import stdpp.base stdpp.strings stdpp.gmap.

(** The values the routine can meet at run time, as far as [typeof] and
    truthiness tell them apart.  A symbol is its identity. *)
Inductive value : Type :=
| VUndefined
| VNull
| VBoolean (b : bool)
| VNumber (n : nat)
| VString (s : string)
| VSymbol (id : nat)
| VObject (id : nat)
| VFunction (id : nat).

Definition typeof (v : value) : string :=
  match v with
  | VUndefined => "undefined"
  | VNull => "object"
  | VBoolean _ => "boolean"
  | VNumber _ => "number"
  | VString _ => "string"
  | VSymbol _ => "symbol"
  | VObject _ => "object"
  | VFunction _ => "function"
  end.

(** [!! v] *)
Definition truthy (v : value) : bool :=
  match v with
  | VUndefined | VNull => false
  | VBoolean b => b
  | VNumber n => negb (Nat.eqb n 0)
  | VString s => negb (String.eqb s "")
  | VSymbol _ | VObject _ | VFunction _ => true
  end.

(** A provider value: an object, read as the map from its property names
    to their values.  [symbolSet[targetSymName]] is [get]. *)
Abbreviation object := (gmap string value).

Definition get (symbolSet : object) (key : string) : value :=
  match symbolSet !! key with
  | Some v => v
  | None => VUndefined
  end.

(** [new Error(message)] *)
Inductive runtime_error : Type :=
| Error (message : string).

(** The two errors of the routine. *)
Definition multiple (targetSymName : string) : runtime_error :=
  Error ("Symbol " ++ targetSymName ++ " offered by multiple symbol sets.").

Definition nobody (targetSymName : string) : runtime_error :=
  Error ("No symbol set is providing symbol " ++ targetSymName ++ ".").

(** The body of the arrow function given to [symbolSets.forEach], as a
    transition on the local variable [symbol]. *)
Definition visit (targetSymName : string) (symbol : value)
    (symbolSet : object) : result runtime_error value :=
  if String.eqb (typeof (get symbolSet targetSymName)) "symbol" then
    if truthy symbol then
      Throw (multiple targetSymName)
    else Ok (get symbolSet targetSymName)
  else Ok symbol.

(** [symbolSets.forEach( ... )]: in order, stopping at the first throw. *)
Fixpoint forEach (targetSymName : string) (symbol : value)
    (symbolSets : list object) : result runtime_error value :=
  match symbolSets with
  | [] => Ok symbol
  | symbolSet :: rest =>
      match visit targetSymName symbol symbolSet with
      | Ok symbol' => forEach targetSymName symbol' rest
      | Throw e => Throw e
      end
  end.

(** [function GET_SYMBOL( targetSymName, ...symbolSets )] *)
Definition GET_SYMBOL (targetSymName : string)
    (symbolSets : list object) : result runtime_error value :=
  match forEach targetSymName VUndefined symbolSets with
  | Throw e => Throw e
  | Ok symbol =>
      if negb (truthy symbol) then
        Throw (nobody targetSymName)
      else Ok symbol
  end.

(** The candidates of a call: the values of runtime kind symbol that the
    providers carry at the target name, in the order of the providers. *)
Definition carries (targetSymName : string) (symbolSet : object) : bool :=
  String.eqb (typeof (get symbolSet targetSymName)) "symbol".

Definition candidates (targetSymName : string)
    (symbolSets : list object) : list value :=
  List.map (fun symbolSet => get symbolSet targetSymName)
    (List.filter (carries targetSymName) symbolSets).

End Resolver.

(* ===================================================================== *)
(** * The plugin *)
(* ===================================================================== *)

Module Plugin.
Import Ast.

(** What the pass throws while it runs: a failed [assert], or the error
    built by [path.buildCodeFrameError]. *)
Inductive compile_error : Type :=
| AssertionError (message : option string)
| CodeFrameError (message : string).

Definition R (A : Type) : Type := result compile_error A.

Definition bind {A B : Type} (m : R A) (k : A -> R B) : R B :=
  match m with
  | Ok a => k a
  | Throw e => Throw e
  end.

Notation "x <- m ;; k" := (bind m (fun x => k))
  (at level 61, m at next level, right associativity).
Notation "' p <- m ;; k" := (bind m (fun x => let p := x in k))
  (at level 61, p pattern, m at next level, right associativity).

Definition assert (b : bool) (message : string) : R unit :=
  if b then Ok tt else Throw (AssertionError (Some message)).

Section Loops.
Variables S A B : Type.

(** A [for] or [forEach] loop over [l] that threads the state [S]. *)
Variable f : A -> S -> R S.

Fixpoint foldM (l : list A) (s : S) : R S :=
  match l with
  | [] => Ok s
  | x :: l' => s' <- f x s ;; foldM l' s'
  end.

(** The traversal of an array of children, each possibly replaced. *)
Variable g : A -> S -> R (B * S).

Fixpoint mapM (l : list A) (s : S) : R (list B * S) :=
  match l with
  | [] => Ok ([], s)
  | x :: l' =>
      '(y, s') <- g x s ;;
      '(ys, s'') <- mapM l' s' ;;
      Ok (y :: ys, s'')
  end.
End Loops.
Arguments foldM {S A} f l s.
Arguments mapM {S A B} g l s.

(** ** Paths

    The pass keeps paths of two kinds: of blocks (and of the program) and
    of provider statements.  The path of a block is the [ref] of the
    block followed by the path of the nearest block around it; the path
    of the program is [[]].  So [parentPath] is the tail, and the program
    has none.  The paths of the nodes between a block and the next block
    around it are left out: the pass looks paths up in a map whose keys
    are paths of blocks or of the program.  Two paths are the same object
    when they are equal. *)
Definition blockpath : Type := list nat.

Fixpoint path_eqb (a b : blockpath) : bool :=
  match a, b with
  | [], [] => true
  | x :: a', y :: b' => Nat.eqb x y && path_eqb a' b'
  | _, _ => false
  end.

(** The path of a labeled statement: its [ref] and the path of the block
    (or program) whose [body] holds it. *)
Record NodePath := mkNodePath {
  node : nat;
  parentPath : blockpath
}.

Definition NodePath_eqb (p q : NodePath) : bool :=
  Nat.eqb (node p) (node q) && path_eqb (parentPath p) (parentPath q).

(** ** [Map] and [Set], in insertion order *)

Section MapSet.
Variables K V : Type.
Variable eqb : K -> K -> bool.

Fixpoint Map_get (m : list (K * V)) (key : K) : option V :=
  match m with
  | [] => None
  | (k, v) :: m' => if eqb k key then Some v else Map_get m' key
  end.

Definition Map_has (m : list (K * V)) (key : K) : bool :=
  match Map_get m key with Some _ => true | None => false end.

Fixpoint Map_set (m : list (K * V)) (key : K) (value : V) : list (K * V) :=
  match m with
  | [] => [(key, value)]
  | (k, v) :: m' =>
      if eqb k key then (k, value) :: m' else (k, v) :: Map_set m' key value
  end.

Definition Set_has (s : list K) (x : K) : bool := existsb (eqb x) s.

Definition Set_add (s : list K) (x : K) : list K :=
  if Set_has s x then s else s ++ [x].

(** [defaultGet.call( map, key, defaultConstructor )] *)
Definition defaultGet (m : list (K * V)) (key : K)
    (defaultConstructor : K -> R V) : R (list (K * V) * V) :=
  match Map_get m key with
  | Some value => Ok (m, value)
  | None =>
      value <- defaultConstructor key ;;
      Ok (Map_set m key value, value)
  end.
End MapSet.
Arguments Map_get {K V} eqb m key.
Arguments Map_has {K V} eqb m key.
Arguments Map_set {K V} eqb m key value.
Arguments Set_has {K} eqb s x.
Arguments Set_add {K} eqb s x.
Arguments defaultGet {K V} eqb m key defaultConstructor.

(** ** Reading and writing the body of a block through its path

    [path.node.body] for the path of a block, and the assignment to it.
    The traversals carry [cur], the path of the block they are in. *)

Fixpoint first_some {A B : Type} (f : A -> option B) (l : list A) : option B :=
  match l with
  | [] => None
  | x :: l' => match f x with Some y => Some y | None => first_some f l' end
  end.

Fixpoint get_e (target cur : blockpath) (e : expr) : option (list stmt) :=
  match e with
  | Identifier _ | ThisExpression | NumericLiteral _ | StringLiteral _ => None
  | TemplateLiteral _ es => first_some (get_e target cur) es
  | MemberExpression o _ => get_e target cur o
  | ComputedMemberExpression o x =>
      match get_e target cur o with
      | Some b => Some b
      | None => get_e target cur x
      end
  | CallExpression c args =>
      match get_e target cur c with
      | Some b => Some b
      | None => first_some (get_e target cur) args
      end
  | AssignmentExpression l r =>
      match get_e target cur l with
      | Some b => Some b
      | None => get_e target cur r
      end
  | FunctionExpression _ b => get_b target cur b
  end
with get_s (target cur : blockpath) (s : stmt) : option (list stmt) :=
  match s with
  | ExpressionStatement e => get_e target cur e
  | LabeledStatement _ _ s' => get_s target cur s'
  | BlockStatement b => get_b target cur b
  | VariableDeclaration _ ds =>
      first_some (fun d => get_e target cur (snd d)) ds
  | FunctionDeclaration _ _ b => get_b target cur b
  | ReturnStatement e => get_e target cur e
  | IfStatement e s' =>
      match get_e target cur e with
      | Some b => Some b
      | None => get_s target cur s'
      end
  | GetSymbolDeclaration _ => None
  end
with get_b (target cur : blockpath) (b : block) : option (list stmt) :=
  match b with
  | Block r ss =>
      if path_eqb (r :: cur) target then Some ss
      else first_some (get_s target (r :: cur)) ss
  end.

Definition get_block (target : blockpath) (t : program) : option (list stmt) :=
  match target with
  | [] => Some (program_body t)
  | _ => first_some (get_s target []) (program_body t)
  end.

Fixpoint set_e (target : blockpath) (new : list stmt) (cur : blockpath) (e : expr) : expr :=
  match e with
  | Identifier _ | ThisExpression | NumericLiteral _ | StringLiteral _ => e
  | TemplateLiteral qs es => TemplateLiteral qs (map (set_e target new cur) es)
  | MemberExpression o p => MemberExpression (set_e target new cur o) p
  | ComputedMemberExpression o x =>
      ComputedMemberExpression (set_e target new cur o) (set_e target new cur x)
  | CallExpression c args =>
      CallExpression (set_e target new cur c) (map (set_e target new cur) args)
  | AssignmentExpression l r =>
      AssignmentExpression (set_e target new cur l) (set_e target new cur r)
  | FunctionExpression ps b => FunctionExpression ps (set_b target new cur b)
  end
with set_s (target : blockpath) (new : list stmt) (cur : blockpath) (s : stmt) : stmt :=
  match s with
  | ExpressionStatement e => ExpressionStatement (set_e target new cur e)
  | LabeledStatement r l s' => LabeledStatement r l (set_s target new cur s')
  | BlockStatement b => BlockStatement (set_b target new cur b)
  | VariableDeclaration k ds =>
      VariableDeclaration k
        (map (fun d => (fst d, set_e target new cur (snd d))) ds)
  | FunctionDeclaration i ps b => FunctionDeclaration i ps (set_b target new cur b)
  | ReturnStatement e => ReturnStatement (set_e target new cur e)
  | IfStatement e s' => IfStatement (set_e target new cur e) (set_s target new cur s')
  | GetSymbolDeclaration _ => s
  end
with set_b (target : blockpath) (new : list stmt) (cur : blockpath) (b : block) : block :=
  match b with
  | Block r ss =>
      if path_eqb (r :: cur) target then Block r new
      else Block r (map (set_s target new (r :: cur)) ss)
  end.

Definition set_block (target : blockpath) (new : list stmt) (t : program) : program :=
  match target with
  | [] => Program new
  | _ => Program (map (set_s target new []) (program_body t))
  end.

(** ** [class TraitNamespace] *)

(** The double quote of the messages. *)
Definition dq : string := String (ascii_of_nat 34) EmptyString.

Definition must_be_in_block : string :=
  dq ++ "use traits * from" ++ dq
     ++ " must be placed in a block, or in the outermost scope.".

Definition requires_an_expression : string :=
  dq ++ "use traits * from" ++ dq ++ " requires an expression.".

Definition used_without_traits : string :=
  ".* used, without using any traits.".

(** [path.node] for the path of a labeled statement: the statement of
    that [ref] in the body its parent path designates. *)
Fixpoint find_labeled (r : nat) (ss : list stmt) : option stmt :=
  match ss with
  | [] => None
  | LabeledStatement r' l s :: ss' =>
      if Nat.eqb r' r then Some (LabeledStatement r' l s) else find_labeled r ss'
  | _ :: ss' => find_labeled r ss'
  end.

Definition path_node (t : program) (p : NodePath) : option stmt :=
  match get_block (parentPath p) t with
  | Some ss => find_labeled (node p) ss
  | None => None
  end.

(** [path.node.body.expression]: there is one when the body of the
    labeled statement is an expression statement. *)
Definition body_expression (t : program) (p : NodePath) : option expr :=
  match path_node t p with
  | Some (LabeledStatement _ _ (ExpressionStatement e)) => Some e
  | _ => None
  end.

Record TraitNamespace := mkTraitNamespace {
  path : NodePath;
  blockPath : blockpath;
  providers : list NodePath;
  symbols : list (string * string)
}.

Definition set_providers (ns : TraitNamespace) (ps : list NodePath) : TraitNamespace :=
  mkTraitNamespace (path ns) (blockPath ns) ps (symbols ns).

Definition set_symbols (ns : TraitNamespace) (m : list (string * string)) : TraitNamespace :=
  mkTraitNamespace (path ns) (blockPath ns) (providers ns) m.

(** [addProvider( path )] *)
Definition addProvider (t : program) (ns : TraitNamespace) (p : NodePath)
    : R TraitNamespace :=
  let ns' := set_providers ns (Set_add NodePath_eqb (providers ns) p) in
  match body_expression t p with
  | Some _ => Ok ns'
  | None => Throw (CodeFrameError requires_an_expression)
  end.

(** [constructor( path )].  [parent_ok] is
    [path.parent.type === 'BlockStatement' || path.parent.type === 'Program'];
    the node of the path is a labeled statement by its type. *)
Definition TraitNamespace_new (t : program) (parent_ok : bool) (p : NodePath)
    : R TraitNamespace :=
  _ <- assert parent_ok must_be_in_block ;;
  addProvider t (mkTraitNamespace p (parentPath p) [] []) p.

(** ** Step 1 of the [Program] visitor: the [LabeledStatement] visitor *)

Definition registry : Type := list (blockpath * TraitNamespace).

Definition visit_LabeledStatement (t : program) (parent_ok : bool)
    (cur : blockpath) (r : nat) (label : string) (traitNamespaces : registry)
    : R registry :=
  if negb (String.eqb label "_StraitsProvider") then Ok traitNamespaces
  else
    _ <- assert parent_ok must_be_in_block ;;
    let p := mkNodePath r cur in
    '(traitNamespaces', traitNS) <-
       defaultGet path_eqb traitNamespaces cur
         (fun _ => TraitNamespace_new t parent_ok p) ;;
    traitNS' <- addProvider t traitNS p ;;
    Ok (Map_set path_eqb traitNamespaces' cur traitNS').

(** [path.traverse({ LabeledStatement })]: every labeled statement of the
    unit, parents before children, children in the order of the keys.
    [parent_ok] tells whether the parent of the statement at hand is a
    block or the program, [cur] is the path of the block around it. *)
Fixpoint collect_e (t : program) (cur : blockpath) (e : expr) (m : registry)
    : R registry :=
  match e with
  | Identifier _ | ThisExpression | NumericLiteral _ | StringLiteral _ => Ok m
  | TemplateLiteral _ es => foldM (collect_e t cur) es m
  | MemberExpression o _ => collect_e t cur o m
  | ComputedMemberExpression o x =>
      m' <- collect_e t cur o m ;; collect_e t cur x m'
  | CallExpression c args =>
      m' <- collect_e t cur c m ;; foldM (collect_e t cur) args m'
  | AssignmentExpression l r =>
      m' <- collect_e t cur l m ;; collect_e t cur r m'
  | FunctionExpression _ b => collect_b t cur b m
  end
with collect_s (t : program) (parent_ok : bool) (cur : blockpath) (s : stmt)
    (m : registry) : R registry :=
  match s with
  | ExpressionStatement e => collect_e t cur e m
  | LabeledStatement r l s' =>
      m' <- visit_LabeledStatement t parent_ok cur r l m ;;
      collect_s t false cur s' m'
  | BlockStatement b => collect_b t cur b m
  | VariableDeclaration _ ds =>
      foldM (fun d => collect_e t cur (snd d)) ds m
  | FunctionDeclaration _ _ b => collect_b t cur b m
  | ReturnStatement e => collect_e t cur e m
  | IfStatement e s' =>
      m' <- collect_e t cur e m ;; collect_s t false cur s' m'
  | GetSymbolDeclaration _ => Ok m
  end
with collect_b (t : program) (cur : blockpath) (b : block) (m : registry)
    : R registry :=
  match b with
  | Block r ss => foldM (collect_s t true (r :: cur)) ss m
  end.

Definition collect (t : program) : R registry :=
  foldM (collect_s t true []) (program_body t) [].

(** ** Step 2: the providers of the namespaces above *)

(** [traitNamespaces.get(parentPath).providers.forEach( p => traitNS.addProvider( p ) )],
    [traitNS] being the namespace at [key]. *)
Definition addProviders (t : program) (key : blockpath) (ps : list NodePath)
    (m : registry) : R registry :=
  foldM (fun p m' =>
           match Map_get path_eqb m' key with
           | Some traitNS =>
               traitNS' <- addProvider t traitNS p ;;
               Ok (Map_set path_eqb m' key traitNS')
           | None => Ok m'
           end) ps m.

(** The [while( parentPath )] loop, entered with a path that is not null:
    the body, then [parentPath = parentPath.parentPath]. *)
Fixpoint inherit_while (t : program) (key : blockpath) (parent : blockpath)
    (m : registry) : R registry :=
  m' <- match Map_get path_eqb m parent with
        | Some above => addProviders t key (providers above) m
        | None => Ok m
        end ;;
  match parent with
  | [] => Ok m'
  | _ :: up => inherit_while t key up m'
  end.

(** One turn of the [for] loop: [let parentPath = blockPath.parentPath]
    and the [while] loop. *)
Definition inherit_one (t : program) (key : blockpath) (m : registry) : R registry :=
  match key with
  | [] => Ok m
  | _ :: parent => inherit_while t key parent m
  end.

Definition inherit (t : program) (m : registry) : R registry :=
  foldM (inherit_one t) (map fst m) m.

(** ** Step 3: the [Identifier] and [BlockStatement] visitors *)

Section Visitor.

(** [scope.generateUidIdentifier( name )], the service of the host that
    names new identifiers: from the unit whose scope it looks at, the
    identifiers it has made so far and the wanted name, the next one. *)
Variable generateUid : program -> list string -> string -> string.

(** The unit as the visitor received it, for the host to look at. *)
Variable scope : program.

(** [provideSymbol( symName )], on the namespace and the identifiers made
    so far. *)
Definition provideSymbol (symName : string) (st : TraitNamespace * list string)
    : string * (TraitNamespace * list string) :=
  let '(traitNS, uids) := st in
  match Map_get String.eqb (symbols traitNS) symName with
  | Some id => (id, st)
  | None =>
      let newSymbolIdentifier := generateUid scope uids symName in
      (newSymbolIdentifier,
       (set_symbols traitNS
          (Map_set String.eqb (symbols traitNS) symName newSymbolIdentifier),
        uids ++ [newSymbolIdentifier]))
  end.

(** The [Identifier] visitor on an identifier that is not the property of
    a member expression [o._Straits] which is itself the object of a
    member expression: nothing for another name, and for [_Straits] one
    of the asserts on the parent and the parent of the parent fails. *)
Definition visit_Identifier (name : string) : R unit :=
  if String.eqb name "_Straits" then Throw (AssertionError None) else Ok tt.

Definition visit_Identifiers (names : list string) : R unit :=
  foldM (fun n _ => visit_Identifier n) names tt.

(** [blockPath.traverse({ BlockStatement, Identifier })].  A member
    expression whose object is [o._Straits] is where the visitor rewrites:
    [o] is visited first; then, when the outer access is computed, the
    object is replaced by [o] and the property is visited; otherwise the
    outer access is replaced by [o[id]], [id] provided by the namespace.
    The traversal of the replaced access still goes on to its property,
    now out of the tree and under the computed access.  A node put in the
    tree is queued and visited in its turn: it is made of visited nodes,
    where nothing is left to do, and of the identifier [id], the property
    of a computed access. *)
Fixpoint rw_e (m : registry) (cur : blockpath) (e : expr)
    (st : TraitNamespace * list string) : R (expr * (TraitNamespace * list string)) :=
  match e with
  | Identifier n => _ <- visit_Identifier n ;; Ok (e, st)
  | ThisExpression | NumericLiteral _ | StringLiteral _ => Ok (e, st)
  | TemplateLiteral qs es =>
      '(es', st') <- mapM (rw_e m cur) es st ;;
      Ok (TemplateLiteral qs es', st')
  | MemberExpression x p =>
      let elsewhere :=
        '(x', st') <- rw_e m cur x st ;;
        _ <- visit_Identifier p ;;
        Ok (MemberExpression x' p, st') in
      match x with
      | MemberExpression o q =>
          if String.eqb q "_Straits" then
            '(o', st') <- rw_e m cur o st ;;
            let '(newSymbolIdentifier, st'') := provideSymbol p st' in
            _ <- visit_Identifier p ;;
            _ <- visit_Identifier newSymbolIdentifier ;;
            Ok (ComputedMemberExpression o' (Identifier newSymbolIdentifier), st'')
          else elsewhere
      | _ => elsewhere
      end
  | ComputedMemberExpression x y =>
      let elsewhere :=
        '(x', st') <- rw_e m cur x st ;;
        '(y', st'') <- rw_e m cur y st' ;;
        Ok (ComputedMemberExpression x' y', st'') in
      match x with
      | MemberExpression o q =>
          if String.eqb q "_Straits" then
            '(o', st') <- rw_e m cur o st ;;
            '(y', st'') <- rw_e m cur y st' ;;
            Ok (ComputedMemberExpression o' y', st'')
          else elsewhere
      | _ => elsewhere
      end
  | CallExpression c args =>
      '(c', st') <- rw_e m cur c st ;;
      '(args', st'') <- mapM (rw_e m cur) args st' ;;
      Ok (CallExpression c' args', st'')
  | AssignmentExpression l r =>
      '(l', st') <- rw_e m cur l st ;;
      '(r', st'') <- rw_e m cur r st' ;;
      Ok (AssignmentExpression l' r', st'')
  | FunctionExpression ps b =>
      _ <- visit_Identifiers ps ;;
      '(b', st') <- rw_b m cur b st ;;
      Ok (FunctionExpression ps b', st')
  end
with rw_s (m : registry) (cur : blockpath) (s : stmt)
    (st : TraitNamespace * list string) : R (stmt * (TraitNamespace * list string)) :=
  match s with
  | ExpressionStatement e =>
      '(e', st') <- rw_e m cur e st ;; Ok (ExpressionStatement e', st')
  | LabeledStatement r l s' =>
      _ <- visit_Identifier l ;;
      '(s'', st') <- rw_s m cur s' st ;;
      Ok (LabeledStatement r l s'', st')
  | BlockStatement b =>
      '(b', st') <- rw_b m cur b st ;; Ok (BlockStatement b', st')
  | VariableDeclaration k ds =>
      '(ds', st') <-
         mapM (fun d st0 =>
                 _ <- visit_Identifier (fst d) ;;
                 '(x', st1) <- rw_e m cur (snd d) st0 ;;
                 Ok ((fst d, x'), st1)) ds st ;;
      Ok (VariableDeclaration k ds', st')
  | FunctionDeclaration i ps b =>
      _ <- visit_Identifier i ;;
      _ <- visit_Identifiers ps ;;
      '(b', st') <- rw_b m cur b st ;;
      Ok (FunctionDeclaration i ps b', st')
  | ReturnStatement e =>
      '(e', st') <- rw_e m cur e st ;; Ok (ReturnStatement e', st')
  | IfStatement e s' =>
      '(e', st') <- rw_e m cur e st ;;
      '(s'', st'') <- rw_s m cur s' st' ;;
      Ok (IfStatement e' s'', st'')
  | GetSymbolDeclaration g =>
      _ <- visit_Identifier g ;; Ok (s, st)
  end
with rw_b (m : registry) (cur : blockpath) (b : block)
    (st : TraitNamespace * list string) : R (block * (TraitNamespace * list string)) :=
  match b with
  | Block r ss =>
      if Map_has path_eqb m (r :: cur) then Ok (b, st)
      else
        '(ss', st') <- mapM (rw_s m (r :: cur)) ss st ;;
        Ok (Block r ss', st')
  end.

(** One turn of the [for] loop of step 3, on the tree, the namespaces and
    the identifiers made so far. *)
Definition rewrite_one (key : blockpath)
    (acc : program * registry * list string) : R (program * registry * list string) :=
  let '(t, m, uids) := acc in
  match Map_get path_eqb m key, get_block key t with
  | Some traitNS, Some ss =>
      '(ss', (traitNS', uids')) <- mapM (rw_s m key) ss (traitNS, uids) ;;
      Ok (set_block key ss' t, Map_set path_eqb m key traitNS', uids')
  | _, _ => Ok acc
  end.

Definition rewrite_all (t : program) (m : registry) (uids : list string)
    : R (program * registry * list string) :=
  foldM rewrite_one (map fst m) (t, m, uids).

End Visitor.

(** ** [finalize] and [remove] *)

(** [path.insertBefore( new )] and [path.remove()] for the path of a
    labeled statement, in the body that holds it. *)
Fixpoint insert_before (r : nat) (new : stmt) (ss : list stmt) : list stmt :=
  match ss with
  | [] => []
  | LabeledStatement r' l s :: ss' =>
      if Nat.eqb r' r then new :: LabeledStatement r' l s :: ss'
      else LabeledStatement r' l s :: insert_before r new ss'
  | s :: ss' => s :: insert_before r new ss'
  end.

Fixpoint remove_labeled (r : nat) (ss : list stmt) : list stmt :=
  match ss with
  | [] => []
  | LabeledStatement r' l s :: ss' =>
      if Nat.eqb r' r then ss'
      else LabeledStatement r' l s :: remove_labeled r ss'
  | s :: ss' => s :: remove_labeled r ss'
  end.

Definition insertBefore (p : NodePath) (new : stmt) (t : program) : program :=
  match get_block (parentPath p) t with
  | Some ss => set_block (parentPath p) (insert_before (node p) new ss) t
  | None => t
  end.

Definition path_remove (p : NodePath) (t : program) : program :=
  match get_block (parentPath p) t with
  | Some ss => set_block (parentPath p) (remove_labeled (node p) ss) t
  | None => t
  end.

(** [Array.from(this.providers).map( p=>p.node.body.expression )]: every
    provider is still in the tree, the removals come after all the
    calls of [finalize].  The source takes the expression nodes
    themselves, and the declaration shares them with the provider
    statements; here the expressions are read from the tree at the time
    of the call, so that the declaration holds them as they are then.
    Both are the same tree as long as nothing is put into or taken out
    of a provider expression afterwards, that is, when no provider
    statement lies within another ([Props.entangled] is [false]).  When
    one does, the shared node of the source goes on changing: it loses
    the anchors removed inside it, and once a declaration that lists it
    is inserted inside it the tree of the source holds itself and cannot
    be traversed to an end, which a finite tree cannot render. *)
Definition providingExpressions (t : program) (ns : TraitNamespace) : list expr :=
  flat_map (fun p => match body_expression t p with
                     | Some e => [e]
                     | None => []
                     end) (providers ns).

(** The declaration [finalize] builds, the provider expressions as
    [providingExpressions] reads them. *)
Definition declaration (getSymbolIdentifier : string) (t : program)
    (ns : TraitNamespace) : stmt :=
  VariableDeclaration "const"
    (map (fun entry =>
            (snd entry,
             CallExpression (Identifier getSymbolIdentifier)
               (StringLiteral (fst entry) :: providingExpressions t ns)))
       (symbols ns)).

(** [finalize( getSymbolIdentifier )] *)
Definition finalize (getSymbolIdentifier : string) (t : program)
    (ns : TraitNamespace) : program :=
  if Nat.eqb (List.length (symbols ns)) 0 then t
  else insertBefore (path ns) (declaration getSymbolIdentifier t ns) t.

(** [remove()] *)
Definition remove (t : program) (ns : TraitNamespace) : program :=
  path_remove (path ns) t.

(** ** [cleanString] *)

(** [str.replace( re, rep )] for a global regular expression given by
    [match_at]: the length of its match at the start of a string, when
    there is one.  The scan goes left to right and resumes after each
    match; [skip] counts the characters of the match still to pass. *)
Fixpoint replace (match_at : string -> option nat) (rep : string) (skip : nat)
    (str : string) : string :=
  match str with
  | EmptyString => EmptyString
  | String c str' =>
      match skip with
      | S k => replace match_at rep k str'
      | O =>
          match match_at str with
          | Some (S k) => rep ++ replace match_at rep k str'
          | _ => String c (replace match_at rep O str')
          end
      end
  end.

(** [/\._Straits\.?/]: the optional dot is taken when it is there. *)
Definition match_Straits (str : string) : option nat :=
  if String.prefix "._Straits." str then Some 10
  else if String.prefix "._Straits" str then Some 9
  else None.

(** [/_StraitsProvider:/] *)
Definition match_StraitsProvider (str : string) : option nat :=
  if String.prefix "_StraitsProvider:" str then Some 17 else None.

Definition cleanString (str : string) : string :=
  replace match_StraitsProvider "use traits * from" 0
    (replace match_Straits ".*" 0 str).

(** The [StringLiteral] visitor. *)
Definition clean_StringLiteral (str : string) : expr :=
  let newStr := cleanString str in
  if String.eqb newStr str then StringLiteral str else StringLiteral newStr.

(** The [TemplateElement] visitor. *)
Definition clean_TemplateElement (q : TemplateElement) : TemplateElement :=
  let newRaw := cleanString (raw q) in
  let newCooked := cleanString (cooked q) in
  if String.eqb newRaw (raw q) || String.eqb newCooked (cooked q) then q
  else mkTemplateElement newRaw newCooked (tail q).

(** [path.traverse({ StringLiteral, TemplateElement })].  The literals of
    the resolver hold neither spelling.  A literal put in the tree is
    visited in its turn, and is then found unchanged: [cleanString]
    leaves its own results as they are. *)
Fixpoint clean_e (e : expr) : expr :=
  match e with
  | Identifier _ | ThisExpression | NumericLiteral _ => e
  | StringLiteral str => clean_StringLiteral str
  | TemplateLiteral qs es =>
      TemplateLiteral (map clean_TemplateElement qs) (map clean_e es)
  | MemberExpression o p => MemberExpression (clean_e o) p
  | ComputedMemberExpression o x => ComputedMemberExpression (clean_e o) (clean_e x)
  | CallExpression c args => CallExpression (clean_e c) (map clean_e args)
  | AssignmentExpression l r => AssignmentExpression (clean_e l) (clean_e r)
  | FunctionExpression ps b => FunctionExpression ps (clean_b b)
  end
with clean_s (s : stmt) : stmt :=
  match s with
  | ExpressionStatement e => ExpressionStatement (clean_e e)
  | LabeledStatement r l s' => LabeledStatement r l (clean_s s')
  | BlockStatement b => BlockStatement (clean_b b)
  | VariableDeclaration k ds =>
      VariableDeclaration k (map (fun d => (fst d, clean_e (snd d))) ds)
  | FunctionDeclaration i ps b => FunctionDeclaration i ps (clean_b b)
  | ReturnStatement e => ReturnStatement (clean_e e)
  | IfStatement e s' => IfStatement (clean_e e) (clean_s s')
  | GetSymbolDeclaration _ => s
  end
with clean_b (b : block) : block :=
  match b with
  | Block r ss => Block r (map clean_s ss)
  end.

Definition clean (t : program) : program :=
  Program (map clean_s (program_body t)).

(** ** [finalCheck] *)

Definition check_Identifier (name : string) : R unit :=
  if String.eqb name "_Straits" then Throw (CodeFrameError used_without_traits)
  else Ok tt.

Fixpoint finalCheck_e (e : expr) (u : unit) : R unit :=
  match e with
  | Identifier n => check_Identifier n
  | ThisExpression | NumericLiteral _ | StringLiteral _ => Ok tt
  | TemplateLiteral _ es => foldM finalCheck_e es tt
  | MemberExpression o p => _ <- finalCheck_e o tt ;; check_Identifier p
  | ComputedMemberExpression o x => _ <- finalCheck_e o tt ;; finalCheck_e x tt
  | CallExpression c args => _ <- finalCheck_e c tt ;; foldM finalCheck_e args tt
  | AssignmentExpression l r => _ <- finalCheck_e l tt ;; finalCheck_e r tt
  | FunctionExpression ps b =>
      _ <- foldM (fun n _ => check_Identifier n) ps tt ;; finalCheck_b b tt
  end
with finalCheck_s (s : stmt) (u : unit) : R unit :=
  match s with
  | ExpressionStatement e => finalCheck_e e tt
  | LabeledStatement _ l s' => _ <- check_Identifier l ;; finalCheck_s s' tt
  | BlockStatement b => finalCheck_b b tt
  | VariableDeclaration _ ds =>
      foldM (fun d _ => _ <- check_Identifier (fst d) ;; finalCheck_e (snd d) tt) ds tt
  | FunctionDeclaration i ps b =>
      _ <- check_Identifier i ;;
      _ <- foldM (fun n _ => check_Identifier n) ps tt ;;
      finalCheck_b b tt
  | ReturnStatement e => finalCheck_e e tt
  | IfStatement e s' => _ <- finalCheck_e e tt ;; finalCheck_s s' tt
  | GetSymbolDeclaration g => check_Identifier g
  end
with finalCheck_b (b : block) (u : unit) : R unit :=
  match b with
  | Block _ ss => foldM finalCheck_s ss tt
  end.

Definition finalCheck (t : program) : R unit :=
  foldM finalCheck_s (program_body t) tt.

(** ** The [Program] visitor *)

(** [path.unshiftContainer('body', node)] on the path of the program. *)
Definition unshiftContainer (new : stmt) (t : program) : program :=
  Program (new :: program_body t).

Section Program.

Variable generateUid : program -> list string -> string -> string.

Definition Program_visitor (t : program) : R program :=
  let getSymbolIdentifier := generateUid t [] "getSymbol" in
  traitNamespaces <- collect t ;;
  if Nat.eqb (List.length traitNamespaces) 0 then
    _ <- finalCheck t ;; Ok t
  else
    let t1 := unshiftContainer (GetSymbolDeclaration getSymbolIdentifier) t in
    traitNamespaces2 <- inherit t1 traitNamespaces ;;
    '(t3, traitNamespaces3, _) <-
       rewrite_all generateUid t t1 traitNamespaces2 [getSymbolIdentifier] ;;
    let t4 := fold_left (finalize getSymbolIdentifier) (map snd traitNamespaces3) t3 in
    let t5 := fold_left remove (map snd traitNamespaces3) t4 in
    let t6 := clean t5 in
    _ <- finalCheck t6 ;; Ok t6.

End Program.

End Plugin.

(* ===================================================================== *)
(** * The vocabulary of the properties *)
(* ===================================================================== *)

Module Props.
Import Ast Plugin.

(** The names of all the [Identifier] nodes of a tree. *)
Fixpoint identifiers_e (e : expr) : list string :=
  match e with
  | Identifier n => [n]
  | ThisExpression | NumericLiteral _ | StringLiteral _ => []
  | TemplateLiteral _ es => flat_map identifiers_e es
  | MemberExpression o p => identifiers_e o ++ [p]
  | ComputedMemberExpression o x => identifiers_e o ++ identifiers_e x
  | CallExpression c args => identifiers_e c ++ flat_map identifiers_e args
  | AssignmentExpression l r => identifiers_e l ++ identifiers_e r
  | FunctionExpression ps b => ps ++ identifiers_b b
  end
with identifiers_s (s : stmt) : list string :=
  match s with
  | ExpressionStatement e => identifiers_e e
  | LabeledStatement _ l s' => l :: identifiers_s s'
  | BlockStatement b => identifiers_b b
  | VariableDeclaration _ ds =>
      flat_map (fun d => fst d :: identifiers_e (snd d)) ds
  | FunctionDeclaration i ps b => i :: ps ++ identifiers_b b
  | ReturnStatement e => identifiers_e e
  | IfStatement e s' => identifiers_e e ++ identifiers_s s'
  | GetSymbolDeclaration g => [g]
  end
with identifiers_b (b : block) : list string :=
  match b with
  | Block _ ss => flat_map identifiers_s ss
  end.

Definition identifiers (t : program) : list string :=
  flat_map identifiers_s (program_body t).

(** A placeholder marker is an identifier of the reserved name. *)
Definition is_marker (name : string) : bool := String.eqb name "_Straits".

Definition markers (t : program) : list string :=
  filter is_marker (identifiers t).

(** What a sweep for markers answers on a list of identifiers. *)
Definition verdict (names : list string) : R unit :=
  if existsb is_marker names then Throw (CodeFrameError used_without_traits)
  else Ok tt.

(** A provider statement, and a body that holds one directly. *)
Definition is_provider (s : stmt) : bool :=
  match s with
  | LabeledStatement _ l _ => String.eqb l "_StraitsProvider"
  | _ => false
  end.

Definition governs (ss : list stmt) : bool := existsb is_provider ss.

(** The number of provider statements of a tree, wherever they are. *)
Fixpoint provider_count_e (e : expr) : nat :=
  match e with
  | Identifier _ | ThisExpression | NumericLiteral _ | StringLiteral _ => 0
  | TemplateLiteral _ es => list_sum (map provider_count_e es)
  | MemberExpression o _ => provider_count_e o
  | ComputedMemberExpression o x => provider_count_e o + provider_count_e x
  | CallExpression c args => provider_count_e c + list_sum (map provider_count_e args)
  | AssignmentExpression l r => provider_count_e l + provider_count_e r
  | FunctionExpression _ b => provider_count_b b
  end
with provider_count_s (s : stmt) : nat :=
  match s with
  | ExpressionStatement e => provider_count_e e
  | LabeledStatement _ l s' =>
      (if String.eqb l "_StraitsProvider" then 1 else 0) + provider_count_s s'
  | BlockStatement b => provider_count_b b
  | VariableDeclaration _ ds => list_sum (map (fun d => provider_count_e (snd d)) ds)
  | FunctionDeclaration _ _ b => provider_count_b b
  | ReturnStatement e => provider_count_e e
  | IfStatement e s' => provider_count_e e + provider_count_s s'
  | GetSymbolDeclaration _ => 0
  end
with provider_count_b (b : block) : nat :=
  match b with
  | Block _ ss => list_sum (map provider_count_s ss)
  end.

Definition provider_count (t : program) : nat :=
  list_sum (map provider_count_s (program_body t)).

(** The paths of the blocks that hold a provider statement directly. *)
Fixpoint governed_e (cur : blockpath) (e : expr) : list blockpath :=
  match e with
  | Identifier _ | ThisExpression | NumericLiteral _ | StringLiteral _ => []
  | TemplateLiteral _ es => flat_map (governed_e cur) es
  | MemberExpression o _ => governed_e cur o
  | ComputedMemberExpression o x => governed_e cur o ++ governed_e cur x
  | CallExpression c args => governed_e cur c ++ flat_map (governed_e cur) args
  | AssignmentExpression l r => governed_e cur l ++ governed_e cur r
  | FunctionExpression _ b => governed_b cur b
  end
with governed_s (cur : blockpath) (s : stmt) : list blockpath :=
  match s with
  | ExpressionStatement e => governed_e cur e
  | LabeledStatement _ _ s' => governed_s cur s'
  | BlockStatement b => governed_b cur b
  | VariableDeclaration _ ds => flat_map (fun d => governed_e cur (snd d)) ds
  | FunctionDeclaration _ _ b => governed_b cur b
  | ReturnStatement e => governed_e cur e
  | IfStatement e s' => governed_e cur e ++ governed_s cur s'
  | GetSymbolDeclaration _ => []
  end
with governed_b (cur : blockpath) (b : block) : list blockpath :=
  match b with
  | Block r ss =>
      (if governs ss then [r :: cur] else [])
        ++ flat_map (governed_s (r :: cur)) ss
  end.

Definition governed (t : program) : list blockpath :=
  (if governs (program_body t) then [[]] else [])
    ++ flat_map (governed_s []) (program_body t).

(** The namespaces sit where their anchor statements are. *)
Definition anchored (m : registry) : Prop :=
  Forall (fun kv => parentPath (path (snd kv)) = fst kv
                    /\ blockPath (snd kv) = fst kv) m.

(** Two states of the namespaces with the same keys, the second anchored
    when the first is. *)
Definition same_shape (m m' : registry) : Prop :=
  map fst m' = map fst m /\ (anchored m -> anchored m').

(** [exposed keys cur x]: [x] holds a marker that no block of a path in
    [keys] encloses, [cur] being the path of the block around [x]. *)
Fixpoint exposed_e (keys : list blockpath) (cur : blockpath) (e : expr) : bool :=
  match e with
  | Identifier n => is_marker n
  | ThisExpression | NumericLiteral _ | StringLiteral _ => false
  | TemplateLiteral _ es => existsb (exposed_e keys cur) es
  | MemberExpression o p => exposed_e keys cur o || is_marker p
  | ComputedMemberExpression o x => exposed_e keys cur o || exposed_e keys cur x
  | CallExpression c args => exposed_e keys cur c || existsb (exposed_e keys cur) args
  | AssignmentExpression l r => exposed_e keys cur l || exposed_e keys cur r
  | FunctionExpression ps b => existsb is_marker ps || exposed_b keys cur b
  end
with exposed_s (keys : list blockpath) (cur : blockpath) (s : stmt) : bool :=
  match s with
  | ExpressionStatement e => exposed_e keys cur e
  | LabeledStatement _ l s' => is_marker l || exposed_s keys cur s'
  | BlockStatement b => exposed_b keys cur b
  | VariableDeclaration _ ds =>
      existsb (fun d => is_marker (fst d) || exposed_e keys cur (snd d)) ds
  | FunctionDeclaration i ps b =>
      is_marker i || existsb is_marker ps || exposed_b keys cur b
  | ReturnStatement e => exposed_e keys cur e
  | IfStatement e s' => exposed_e keys cur e || exposed_s keys cur s'
  | GetSymbolDeclaration g => is_marker g
  end
with exposed_b (keys : list blockpath) (cur : blockpath) (b : block) : bool :=
  match b with
  | Block r ss =>
      if Set_has path_eqb keys (r :: cur) then false
      else existsb (exposed_s keys (r :: cur)) ss
  end.

Definition exposed (keys : list blockpath) (t : program) : bool :=
  if Set_has path_eqb keys [] then false
  else existsb (exposed_s keys []) (program_body t).

(** ** Trait requests

    [requested m cur x]: the trait names of the accesses [o.*name] of [x]
    that the traversal of a namespace reaches, in its order; the blocks
    that are namespaces of [m] themselves are left out. *)
Fixpoint requested_e (m : registry) (cur : blockpath) (e : expr) : list string :=
  match e with
  | Identifier _ | ThisExpression | NumericLiteral _ | StringLiteral _ => []
  | TemplateLiteral _ es => flat_map (requested_e m cur) es
  | MemberExpression x p =>
      match x with
      | MemberExpression o q =>
          if String.eqb q "_Straits" then requested_e m cur o ++ [p]
          else requested_e m cur x
      | _ => requested_e m cur x
      end
  | ComputedMemberExpression x y =>
      match x with
      | MemberExpression o q =>
          if String.eqb q "_Straits" then requested_e m cur o ++ requested_e m cur y
          else requested_e m cur x ++ requested_e m cur y
      | _ => requested_e m cur x ++ requested_e m cur y
      end
  | CallExpression c args => requested_e m cur c ++ flat_map (requested_e m cur) args
  | AssignmentExpression l r => requested_e m cur l ++ requested_e m cur r
  | FunctionExpression _ b => requested_b m cur b
  end
with requested_s (m : registry) (cur : blockpath) (s : stmt) : list string :=
  match s with
  | ExpressionStatement e => requested_e m cur e
  | LabeledStatement _ _ s' => requested_s m cur s'
  | BlockStatement b => requested_b m cur b
  | VariableDeclaration _ ds => flat_map (fun d => requested_e m cur (snd d)) ds
  | FunctionDeclaration _ _ b => requested_b m cur b
  | ReturnStatement e => requested_e m cur e
  | IfStatement e s' => requested_e m cur e ++ requested_s m cur s'
  | GetSymbolDeclaration _ => []
  end
with requested_b (m : registry) (cur : blockpath) (b : block) : list string :=
  match b with
  | Block r ss =>
      if Map_has path_eqb m (r :: cur) then []
      else flat_map (requested_s m (r :: cur)) ss
  end.

(** [dispatch id m cur x]: [x] with every such access [o.*name] turned
    into [o[id name]], and every access [o.*[y]] into [o[y]]. *)
Fixpoint dispatch_e (id : string -> string) (m : registry) (cur : blockpath)
    (e : expr) : expr :=
  match e with
  | Identifier _ | ThisExpression | NumericLiteral _ | StringLiteral _ => e
  | TemplateLiteral qs es => TemplateLiteral qs (map (dispatch_e id m cur) es)
  | MemberExpression x p =>
      match x with
      | MemberExpression o q =>
          if String.eqb q "_Straits" then
            ComputedMemberExpression (dispatch_e id m cur o) (Identifier (id p))
          else MemberExpression (dispatch_e id m cur x) p
      | _ => MemberExpression (dispatch_e id m cur x) p
      end
  | ComputedMemberExpression x y =>
      match x with
      | MemberExpression o q =>
          if String.eqb q "_Straits" then
            ComputedMemberExpression (dispatch_e id m cur o) (dispatch_e id m cur y)
          else ComputedMemberExpression (dispatch_e id m cur x) (dispatch_e id m cur y)
      | _ => ComputedMemberExpression (dispatch_e id m cur x) (dispatch_e id m cur y)
      end
  | CallExpression c args =>
      CallExpression (dispatch_e id m cur c) (map (dispatch_e id m cur) args)
  | AssignmentExpression l r =>
      AssignmentExpression (dispatch_e id m cur l) (dispatch_e id m cur r)
  | FunctionExpression ps b => FunctionExpression ps (dispatch_b id m cur b)
  end
with dispatch_s (id : string -> string) (m : registry) (cur : blockpath)
    (s : stmt) : stmt :=
  match s with
  | ExpressionStatement e => ExpressionStatement (dispatch_e id m cur e)
  | LabeledStatement r l s' => LabeledStatement r l (dispatch_s id m cur s')
  | BlockStatement b => BlockStatement (dispatch_b id m cur b)
  | VariableDeclaration k ds =>
      VariableDeclaration k (map (fun d => (fst d, dispatch_e id m cur (snd d))) ds)
  | FunctionDeclaration i ps b => FunctionDeclaration i ps (dispatch_b id m cur b)
  | ReturnStatement e => ReturnStatement (dispatch_e id m cur e)
  | IfStatement e s' => IfStatement (dispatch_e id m cur e) (dispatch_s id m cur s')
  | GetSymbolDeclaration _ => s
  end
with dispatch_b (id : string -> string) (m : registry) (cur : blockpath)
    (b : block) : block :=
  match b with
  | Block r ss =>
      if Map_has path_eqb m (r :: cur) then b
      else Block r (map (dispatch_s id m (r :: cur)) ss)
  end.

(** The identifier a map of symbols gives to a name. *)
Definition symbol_of (symbols : list (string * string)) (name : string) : string :=
  match Map_get String.eqb symbols name with
  | Some id => id
  | None => ""
  end.

(** [absorb seen names]: [seen], then the names of [names] not met
    before, each once, in their order. *)
Definition absorb (seen names : list string) : list string :=
  fold_left (fun acc n => if Set_has String.eqb acc n then acc else acc ++ [n])
    names seen.

(** [extends a b]: the map [b] gives every name of [a] what [a] gives. *)
Definition extends (a b : list (string * string)) : Prop :=
  forall n id, Map_get String.eqb a n = Some id -> Map_get String.eqb b n = Some id.

(** [steps st names st']: from [st] to [st'] the namespace only gained
    symbols, for [names], and kept those it had. *)
Definition steps (st : TraitNamespace * list string) (names : list string)
    (st' : TraitNamespace * list string) : Prop :=
  path (fst st') = path (fst st)
  /\ blockPath (fst st') = blockPath (fst st)
  /\ providers (fst st') = providers (fst st)
  /\ map fst (symbols (fst st')) = absorb (map fst (symbols (fst st))) names
  /\ extends (symbols (fst st)) (symbols (fst st')).

(** What a successful visit of [x] from [st] to [y] and [st'] amounts to:
    the namespace stepped for the requests of [x], and [y] is [x] with
    its accesses dispatched through any map that extends the symbols of
    [st']. *)
Definition rw_ok {A B : Type} (req : A -> list string)
    (pure : (string -> string) -> A -> B)
    (x : A) (st : TraitNamespace * list string)
    (y : B) (st' : TraitNamespace * list string) : Prop :=
  steps st (req x) st'
  /\ forall sigma, extends (symbols (fst st')) sigma -> y = pure (symbol_of sigma) x.



(** ** Inheritance *)

(** The providers a state of the namespaces holds at a key. *)
Definition providers_at (m : registry) (key : blockpath) : list NodePath :=
  match Map_get path_eqb m key with
  | Some ns => providers ns
  | None => []
  end.

(** [above a k]: the block of path [a] is strictly around the block of
    path [k]. *)
Definition above (a k : blockpath) : Prop :=
  exists pre, pre <> [] /\ k = pre ++ a.

(** [around a k]: [a] is [k] or is above [k]. *)
Definition around (a k : blockpath) : Prop :=
  exists pre, k = pre ++ a.

(** The providers a namespace may see: its own and those of the
    namespaces above it, [m] being the namespaces as the first step found
    them. *)
Definition visible (m : registry) (k : blockpath) (p : NodePath) : Prop :=
  In p (providers_at m k) \/ exists a, above a k /\ In p (providers_at m a).

(** Every provider a state of the namespaces holds at a key is a
    statement of the block of that key. *)
Definition owned (m : registry) : Prop :=
  forall k p, In p (providers_at m k) -> parentPath p = k.

(** The state [s] of the second step, against the namespaces [m] it
    started from: the same keys, at least the providers of [m], at most
    the visible ones. *)
Definition inheriting (m s : registry) : Prop :=
  map fst s = map fst m
  /\ (forall k p, In p (providers_at m k) -> In p (providers_at s k))
  /\ (forall k p, In p (providers_at s k) -> visible m k p).

(** The namespaces of the keys [d] hold all they may see. *)
Definition inherited (m : registry) (d : list blockpath) (s : registry) : Prop :=
  forall k, In k d -> forall p, visible m k p -> In p (providers_at s k).

(** ** Resolver declarations and literals *)

(** The names of the resolver declarations of a tree. *)
Fixpoint resolvers_e (e : expr) : list string :=
  match e with
  | Identifier _ | ThisExpression | NumericLiteral _ | StringLiteral _ => []
  | TemplateLiteral _ es => flat_map resolvers_e es
  | MemberExpression o _ => resolvers_e o
  | ComputedMemberExpression o x => resolvers_e o ++ resolvers_e x
  | CallExpression c args => resolvers_e c ++ flat_map resolvers_e args
  | AssignmentExpression l r => resolvers_e l ++ resolvers_e r
  | FunctionExpression _ b => resolvers_b b
  end
with resolvers_s (s : stmt) : list string :=
  match s with
  | ExpressionStatement e => resolvers_e e
  | LabeledStatement _ _ s' => resolvers_s s'
  | BlockStatement b => resolvers_b b
  | VariableDeclaration _ ds => flat_map (fun d => resolvers_e (snd d)) ds
  | FunctionDeclaration _ _ b => resolvers_b b
  | ReturnStatement e => resolvers_e e
  | IfStatement e s' => resolvers_e e ++ resolvers_s s'
  | GetSymbolDeclaration g => [g]
  end
with resolvers_b (b : block) : list string :=
  match b with
  | Block _ ss => flat_map resolvers_s ss
  end.

Definition resolvers (t : program) : list string :=
  flat_map resolvers_s (program_body t).

(** The contents of the string literals of a tree, in order. *)
Fixpoint strings_e (e : expr) : list string :=
  match e with
  | Identifier _ | ThisExpression | NumericLiteral _ => []
  | StringLiteral str => [str]
  | TemplateLiteral _ es => flat_map strings_e es
  | MemberExpression o _ => strings_e o
  | ComputedMemberExpression o x => strings_e o ++ strings_e x
  | CallExpression c args => strings_e c ++ flat_map strings_e args
  | AssignmentExpression l r => strings_e l ++ strings_e r
  | FunctionExpression _ b => strings_b b
  end
with strings_s (s : stmt) : list string :=
  match s with
  | ExpressionStatement e => strings_e e
  | LabeledStatement _ _ s' => strings_s s'
  | BlockStatement b => strings_b b
  | VariableDeclaration _ ds => flat_map (fun d => strings_e (snd d)) ds
  | FunctionDeclaration _ _ b => strings_b b
  | ReturnStatement e => strings_e e
  | IfStatement e s' => strings_e e ++ strings_s s'
  | GetSymbolDeclaration _ => []
  end
with strings_b (b : block) : list string :=
  match b with
  | Block _ ss => flat_map strings_s ss
  end.

Definition strings (t : program) : list string :=
  flat_map strings_s (program_body t).

(** The template elements of a tree, in order. *)
Fixpoint quasis_e (e : expr) : list TemplateElement :=
  match e with
  | Identifier _ | ThisExpression | NumericLiteral _ | StringLiteral _ => []
  | TemplateLiteral qs es => qs ++ flat_map quasis_e es
  | MemberExpression o _ => quasis_e o
  | ComputedMemberExpression o x => quasis_e o ++ quasis_e x
  | CallExpression c args => quasis_e c ++ flat_map quasis_e args
  | AssignmentExpression l r => quasis_e l ++ quasis_e r
  | FunctionExpression _ b => quasis_b b
  end
with quasis_s (s : stmt) : list TemplateElement :=
  match s with
  | ExpressionStatement e => quasis_e e
  | LabeledStatement _ _ s' => quasis_s s'
  | BlockStatement b => quasis_b b
  | VariableDeclaration _ ds => flat_map (fun d => quasis_e (snd d)) ds
  | FunctionDeclaration _ _ b => quasis_b b
  | ReturnStatement e => quasis_e e
  | IfStatement e s' => quasis_e e ++ quasis_s s'
  | GetSymbolDeclaration _ => []
  end
with quasis_b (b : block) : list TemplateElement :=
  match b with
  | Block _ ss => flat_map quasis_s ss
  end.

Definition quasis_of (t : program) : list TemplateElement :=
  flat_map quasis_s (program_body t).

(** The tree with the contents of its literals blanked: what is left is
    its structure. *)
Definition blank (q : TemplateElement) : TemplateElement :=
  mkTemplateElement "" "" (tail q).

Fixpoint skeleton_e (e : expr) : expr :=
  match e with
  | Identifier _ | ThisExpression | NumericLiteral _ => e
  | StringLiteral _ => StringLiteral ""
  | TemplateLiteral qs es => TemplateLiteral (map blank qs) (map skeleton_e es)
  | MemberExpression o p => MemberExpression (skeleton_e o) p
  | ComputedMemberExpression o x =>
      ComputedMemberExpression (skeleton_e o) (skeleton_e x)
  | CallExpression c args => CallExpression (skeleton_e c) (map skeleton_e args)
  | AssignmentExpression l r => AssignmentExpression (skeleton_e l) (skeleton_e r)
  | FunctionExpression ps b => FunctionExpression ps (skeleton_b b)
  end
with skeleton_s (s : stmt) : stmt :=
  match s with
  | ExpressionStatement e => ExpressionStatement (skeleton_e e)
  | LabeledStatement r l s' => LabeledStatement r l (skeleton_s s')
  | BlockStatement b => BlockStatement (skeleton_b b)
  | VariableDeclaration k ds =>
      VariableDeclaration k (map (fun d => (fst d, skeleton_e (snd d))) ds)
  | FunctionDeclaration i ps b => FunctionDeclaration i ps (skeleton_b b)
  | ReturnStatement e => ReturnStatement (skeleton_e e)
  | IfStatement e s' => IfStatement (skeleton_e e) (skeleton_s s')
  | GetSymbolDeclaration _ => s
  end
with skeleton_b (b : block) : block :=
  match b with
  | Block r ss => Block r (map skeleton_s ss)
  end.

Definition skeleton (t : program) : program :=
  Program (map skeleton_s (program_body t)).

(** A unit that starts with the resolver named [g] and holds no other
    resolver declaration. *)
Definition headed (g : string) (t : program) : Prop :=
  exists rest,
    program_body t = GetSymbolDeclaration g :: rest
    /\ flat_map resolvers_s rest = [].

(** A body that can stand at [key] in such a unit. *)
Definition fits (g : string) (key : blockpath) (ss : list stmt) : Prop :=
  match key with
  | [] => exists rest, ss = GetSymbolDeclaration g :: rest
                       /\ flat_map resolvers_s rest = []
  | _ => flat_map resolvers_s ss = []
  end.

(** Every namespace satisfies [P]. *)
Definition every_namespace (P : TraitNamespace -> Prop) (m : registry) : Prop :=
  forall k ns, Map_get path_eqb m k = Some ns -> P ns.

(** ** Spellings in a text *)

(** [spells pat str]: [pat] occurs somewhere in [str]. *)
Fixpoint spells (pat str : string) : bool :=
  match str with
  | EmptyString => String.prefix pat EmptyString
  | String c str' => String.prefix pat str || spells pat str'
  end.

(** [lacks c str]: the character [c] is not in [str]. *)
Fixpoint lacks (c : ascii) (str : string) : bool :=
  match str with
  | EmptyString => true
  | String d str' => negb (Ascii.eqb c d) && lacks c str'
  end.

(** [breaks pat rep rest]: [pat] starts at none of the characters of [rep]
    in the text [rep ++ rest]. *)
Fixpoint breaks (pat rep rest : string) : bool :=
  match rep with
  | EmptyString => true
  | String c rep' =>
      negb (String.prefix pat (String c (rep' ++ rest))) && breaks pat rep' rest
  end.

(** [guarded pat match_at str]: wherever the scan of [str] finds no match,
    [pat] does not start. *)
Fixpoint guarded (pat : string) (match_at : string -> option nat) (str : string)
    : Prop :=
  match str with
  | EmptyString => True
  | String c str' =>
      ((forall k, match_at str <> Some (S k)) -> String.prefix pat str = false)
      /\ guarded pat match_at str'
  end.

(** [misplaced_s ok s]: [s] holds a provider statement whose parent is
    neither a block nor the program, [ok] telling whether the parent of
    [s] itself is one. *)
Fixpoint misplaced_e (e : expr) : bool :=
  match e with
  | Identifier _ | ThisExpression | NumericLiteral _ | StringLiteral _ => false
  | TemplateLiteral _ es => existsb misplaced_e es
  | MemberExpression o _ => misplaced_e o
  | ComputedMemberExpression o x => misplaced_e o || misplaced_e x
  | CallExpression c args => misplaced_e c || existsb misplaced_e args
  | AssignmentExpression l r => misplaced_e l || misplaced_e r
  | FunctionExpression _ b => misplaced_b b
  end
with misplaced_s (ok : bool) (s : stmt) : bool :=
  match s with
  | ExpressionStatement e => misplaced_e e
  | LabeledStatement _ l s' =>
      (String.eqb l "_StraitsProvider" && negb ok) || misplaced_s false s'
  | BlockStatement b => misplaced_b b
  | VariableDeclaration _ ds => existsb (fun d => misplaced_e (snd d)) ds
  | FunctionDeclaration _ _ b => misplaced_b b
  | ReturnStatement e => misplaced_e e
  | IfStatement e s' => misplaced_e e || misplaced_s false s'
  | GetSymbolDeclaration _ => false
  end
with misplaced_b (b : block) : bool :=
  match b with
  | Block _ ss => existsb (misplaced_s true) ss
  end.

Definition misplaced (t : program) : bool :=
  existsb (misplaced_s true) (program_body t).

(** The errors of the first step. *)
Definition collect_error (e : compile_error) : Prop :=
  e = AssertionError (Some must_be_in_block)
  \/ e = CodeFrameError requires_an_expression.


(** A namespace as the first two steps keep it: its anchor statement is
    the first of its providers, no provider is listed twice, and every
    provider has an expression in the unit [t]. *)
Definition listed (t : program) (ns : TraitNamespace) : Prop :=
  (exists rest, providers ns = path ns :: rest)
  /\ NoDup (providers ns)
  /\ Forall (fun p => body_expression t p <> None) (providers ns).

(** [grown ns ns']: [ns'] is [ns] with providers added after its own. *)
Definition grown (ns ns' : TraitNamespace) : Prop :=
  path ns' = path ns
  /\ blockPath ns' = blockPath ns
  /\ symbols ns' = symbols ns
  /\ exists more, providers ns' = providers ns ++ more.

(** [grows m m']: the same keys in the same order, each namespace grown. *)
Definition grows (m m' : registry) : Prop :=
  Forall2 (fun kv kv' => fst kv' = fst kv /\ grown (snd kv) (snd kv')) m m'.


(** [minted st st']: from [st] to [st'] the namespace got new symbols
    after those it had, and the identifiers made so far got the
    identifiers of those symbols, in the same order, and nothing else. *)
Definition minted (st st' : TraitNamespace * list string) : Prop :=
  path (fst st') = path (fst st)
  /\ blockPath (fst st') = blockPath (fst st)
  /\ providers (fst st') = providers (fst st)
  /\ exists added,
       symbols (fst st') = symbols (fst st) ++ added
       /\ snd st' = snd st ++ map snd added.

(** The identifiers the namespaces bind, namespace after namespace. *)
Definition bound_identifiers (m : registry) : list string :=
  flat_map (fun kv => map snd (symbols (snd kv))) m.


(** What reading a body gives after [new] was written at the same path:
    [new], when there was a body to write over. *)
Definition written {A : Type} (new : A) (old : option A) : option A :=
  match old with
  | Some _ => Some new
  | None => None
  end.


(** A text that spells neither placeholder. *)
Definition plain (str : string) : Prop :=
  spells "._Straits" str = false /\ spells "_StraitsProvider:" str = false.


(** [stray m cur x]: in the part of [x] that the traversal of a namespace
    walks, a marker stands elsewhere than as the inner property of a
    trait access [o.*name] or [o.*[y]]: alone, as the last property of a
    member access, as a label, a parameter or the name of a binding. *)
Fixpoint stray_e (m : registry) (cur : blockpath) (e : expr) : bool :=
  match e with
  | Identifier n => is_marker n
  | ThisExpression | NumericLiteral _ | StringLiteral _ => false
  | TemplateLiteral _ es => existsb (stray_e m cur) es
  | MemberExpression x p =>
      match x with
      | MemberExpression o q =>
          if String.eqb q "_Straits" then stray_e m cur o || is_marker p
          else stray_e m cur x || is_marker p
      | _ => stray_e m cur x || is_marker p
      end
  | ComputedMemberExpression x y =>
      match x with
      | MemberExpression o q =>
          if String.eqb q "_Straits" then stray_e m cur o || stray_e m cur y
          else stray_e m cur x || stray_e m cur y
      | _ => stray_e m cur x || stray_e m cur y
      end
  | CallExpression c args => stray_e m cur c || existsb (stray_e m cur) args
  | AssignmentExpression l r => stray_e m cur l || stray_e m cur r
  | FunctionExpression ps b => existsb is_marker ps || stray_b m cur b
  end
with stray_s (m : registry) (cur : blockpath) (s : stmt) : bool :=
  match s with
  | ExpressionStatement e => stray_e m cur e
  | LabeledStatement _ l s' => is_marker l || stray_s m cur s'
  | BlockStatement b => stray_b m cur b
  | VariableDeclaration _ ds =>
      existsb (fun d => is_marker (fst d) || stray_e m cur (snd d)) ds
  | FunctionDeclaration i ps b =>
      is_marker i || existsb is_marker ps || stray_b m cur b
  | ReturnStatement e => stray_e m cur e
  | IfStatement e s' => stray_e m cur e || stray_s m cur s'
  | GetSymbolDeclaration g => is_marker g
  end
with stray_b (m : registry) (cur : blockpath) (b : block) : bool :=
  match b with
  | Block r ss =>
      if Map_has path_eqb m (r :: cur) then false
      else existsb (stray_s m (r :: cur)) ss
  end.

(** A state of the traversal in which no symbol is bound to the name of
    the markers. *)
Definition unmarked (st : TraitNamespace * list string) : Prop :=
  Forall (fun entry => is_marker (snd entry) = false) (symbols (fst st)).


(** [renamed ns ns']: [ns'] is [ns] with symbols added after its own. *)
Definition renamed (ns ns' : TraitNamespace) : Prop :=
  path ns' = path ns
  /\ blockPath ns' = blockPath ns
  /\ providers ns' = providers ns
  /\ exists added, symbols ns' = symbols ns ++ added.

(** [renames m m']: the same keys in the same order, each namespace
    renamed. *)
Definition renames (m m' : registry) : Prop :=
  Forall2 (fun kv kv' => fst kv' = fst kv /\ renamed (snd kv) (snd kv')) m m'.


(** [unready t cur x]: [x] holds a provider statement without expression,
    [t] being the unit and [cur] the path of the block around [x]. *)
Fixpoint unready_e (t : program) (cur : blockpath) (e : expr) : bool :=
  match e with
  | Identifier _ | ThisExpression | NumericLiteral _ | StringLiteral _ => false
  | TemplateLiteral _ es => existsb (unready_e t cur) es
  | MemberExpression o _ => unready_e t cur o
  | ComputedMemberExpression o x => unready_e t cur o || unready_e t cur x
  | CallExpression c args => unready_e t cur c || existsb (unready_e t cur) args
  | AssignmentExpression l r => unready_e t cur l || unready_e t cur r
  | FunctionExpression _ b => unready_b t cur b
  end
with unready_s (t : program) (cur : blockpath) (s : stmt) : bool :=
  match s with
  | ExpressionStatement e => unready_e t cur e
  | LabeledStatement r l s' =>
      (String.eqb l "_StraitsProvider"
       && match body_expression t (mkNodePath r cur) with
          | Some _ => false
          | None => true
          end)
      || unready_s t cur s'
  | BlockStatement b => unready_b t cur b
  | VariableDeclaration _ ds => existsb (fun d => unready_e t cur (snd d)) ds
  | FunctionDeclaration _ _ b => unready_b t cur b
  | ReturnStatement e => unready_e t cur e
  | IfStatement e s' => unready_e t cur e || unready_s t cur s'
  | GetSymbolDeclaration _ => false
  end
with unready_b (t : program) (cur : blockpath) (b : block) : bool :=
  match b with
  | Block r ss => existsb (unready_s t (r :: cur)) ss
  end.

Definition unready (t : program) : bool :=
  existsb (unready_s t []) (program_body t).


(** The host never answers with the name of the markers when it is asked,
    in [scope], for an identifier after [name]. *)
Definition never_marker (generateUid : program -> list string -> string -> string)
    (scope : program) (name : string) : Prop :=
  forall made, is_marker (generateUid scope made name) = false.

(** [entangled t]: some provider statement of [t] holds another provider
    statement, in its expression or as its body.  [finalize] hands to the
    resolver the very expression nodes of the provider statements; when
    no provider statement lies within another, no anchor and no
    declaration stands inside such an expression, so that the expressions
    read from the tree by [providingExpressions] are what those nodes
    hold. *)
Fixpoint entangled_e (e : expr) : bool :=
  match e with
  | Identifier _ | ThisExpression | NumericLiteral _ | StringLiteral _ => false
  | TemplateLiteral _ es => existsb entangled_e es
  | MemberExpression o _ => entangled_e o
  | ComputedMemberExpression o x => entangled_e o || entangled_e x
  | CallExpression c args => entangled_e c || existsb entangled_e args
  | AssignmentExpression l r => entangled_e l || entangled_e r
  | FunctionExpression _ b => entangled_b b
  end
with entangled_s (s : stmt) : bool :=
  match s with
  | ExpressionStatement e => entangled_e e
  | LabeledStatement _ l s' =>
      (String.eqb l "_StraitsProvider" && negb (Nat.eqb (provider_count_s s') 0))
      || entangled_s s'
  | BlockStatement b => entangled_b b
  | VariableDeclaration _ ds => existsb (fun d => entangled_e (snd d)) ds
  | FunctionDeclaration _ _ b => entangled_b b
  | ReturnStatement e => entangled_e e
  | IfStatement e s' => entangled_e e || entangled_s s'
  | GetSymbolDeclaration _ => false
  end
with entangled_b (b : block) : bool :=
  match b with
  | Block _ ss => existsb entangled_s ss
  end.

Definition entangled (t : program) : bool :=
  existsb entangled_s (program_body t).

(** The nodes of the labeled statements of a list of statements. *)
Definition top_refs (ss : list stmt) : list nat :=
  flat_map (fun s => match s with
                     | LabeledStatement r _ _ => [r]
                     | _ => []
                     end) ss.

(** The anchor of the namespace of the program, when there is one. *)
Definition top_anchor (m : registry) : option NodePath :=
  option_map path (Map_get path_eqb m []).

(** The path of [s] when [s] is a provider statement that stands directly
    in the program. *)
Definition site (parent_ok : bool) (cur : blockpath) (s : stmt) : option NodePath :=
  match cur with
  | [] =>
      match s with
      | LabeledStatement r l _ =>
          if parent_ok && String.eqb l "_StraitsProvider"
          then Some (mkNodePath r []) else None
      | _ => None
      end
  | _ :: _ => None
  end.

Definition or_else {A : Type} (a b : option A) : option A :=
  match a with
  | Some x => Some x
  | None => b
  end.

(** The nodes of the provider statements of a list of statements. *)
Definition provider_refs (ss : list stmt) : list nat :=
  flat_map (fun s => match s with
                     | LabeledStatement r l _ =>
                         if String.eqb l "_StraitsProvider" then [r] else []
                     | _ => []
                     end) ss.

(** The providers of the namespace of the program, none when the program
    has no namespace. *)
Definition top_providers (m : registry) : list NodePath :=
  match Map_get path_eqb m [] with
  | Some ns => providers ns
  | None => []
  end.

Definition sites (parent_ok : bool) (cur : blockpath) (s : stmt) : list NodePath :=
  match site parent_ok cur s with
  | Some p => [p]
  | None => []
  end.

(** A unit with a marker that no provider declaration governs: none of
    the blocks around the marker, nor the program, holds a provider
    statement. *)
Definition ungoverned_marker (t : program) : bool := exposed (governed t) t.

End Props.

(* ===================================================================== *)
(** * Sample units and a sample host *)
(* ===================================================================== *)

Module Samples.
Import Ast Plugin Props.

(** A name service in the manner of Babel's: [_name], then [_name2],
    [_name3], ... until the name is taken neither in the unit nor by an
    earlier call. *)
Definition uid_name (name : string) (i : nat) : string :=
  "_" ++ name
      ++ (if Nat.leb i 1 then "" else NilEmpty.string_of_uint (Nat.to_uint i)).

Fixpoint uid_search (fuel : nat) (taken : list string) (name : string) (i : nat)
    : string :=
  match fuel with
  | O => uid_name name i
  | S fuel' =>
      if existsb (String.eqb (uid_name name i)) taken
      then uid_search fuel' taken name (S i)
      else uid_name name i
  end.

Definition sample_generateUid (scope : program) (uids : list string)
    (name : string) : string :=
  let taken := identifiers scope ++ uids in
  uid_search (List.length taken) taken name 1.

(** [use traits * from e;] and [o.*name], as the lexical layer hands them
    over. *)
Definition provider (r : nat) (e : expr) : stmt :=
  LabeledStatement r "_StraitsProvider" (ExpressionStatement e).

Definition access (o : expr) (name : string) : expr :=
  MemberExpression (MemberExpression o "_Straits") name.

(** [use traits * from a; use traits * from b;] *)
Definition two_providers : program :=
  Program [provider 1 (Identifier "a"); provider 2 (Identifier "b")].

(** [use traits * from a;] alone: no trait is ever asked for. *)
Definition provider_only : program :=
  Program [provider 1 (Identifier "a")].

(** ['x._Straits.one';] with no provider statement anywhere. *)
Definition literal_only : program :=
  Program [ExpressionStatement (StringLiteral "x._Straits.one")].

(** [var _Straits = 1;] *)
Definition reserved_binding : program :=
  Program [VariableDeclaration "var" [("_Straits", NumericLiteral 1)]].

(** [use traits * from a; x.*one; { use traits * from b; y.*two.*one(); y.*['k.*z']; } x.*one;] *)
Definition nested : program :=
  Program
    [provider 1 (Identifier "a");
     ExpressionStatement (access (Identifier "x") "one");
     BlockStatement
       (Block 10
          [provider 2 (Identifier "b");
           ExpressionStatement
             (CallExpression (access (access (Identifier "y") "two") "one") []);
           ExpressionStatement
             (ComputedMemberExpression
                (MemberExpression (Identifier "y") "_Straits")
                (StringLiteral "k._Straits.z"))]);
     ExpressionStatement (access (Identifier "x") "one")].

(** The namespaces of [nested], as the first step finds them. *)
Definition nested_namespaces : registry :=
  [([], mkTraitNamespace (mkNodePath 1 []) [] [mkNodePath 1 []] []);
   ([10], mkTraitNamespace (mkNodePath 2 [10]) [10] [mkNodePath 2 [10]] [])].

(** What the pass makes of [two_providers] with the sample host:
    [function _getSymbol(...) {...} _StraitsProvider: b;] *)
Definition two_providers_output : program :=
  Program [GetSymbolDeclaration "_getSymbol"; provider 2 (Identifier "b")].

(** A template element whose raw text spells the dot with an escape. *)
Definition escaped_element : TemplateElement :=
  mkTemplateElement "\x2e_Straits.one" "._Straits.one" true.

(** The namespaces of [nested] after the second step. *)
Definition nested_inherited : registry :=
  Eval vm_compute in
    match inherit nested nested_namespaces with
    | Ok m => m
    | Throw _ => []
    end.

(** [nested], its namespaces and the identifiers made, after the turn of
    the program in the third step. *)
Definition nested_turn : program * registry * list string :=
  Eval vm_compute in
    match rewrite_one sample_generateUid nested [] (nested, nested_namespaces, []) with
    | Ok acc => acc
    | Throw _ => (nested, [], [])
    end.

(** What the pass makes of [nested] with the sample host. *)
Definition nested_output : program :=
  Eval vm_compute in
    match Program_visitor sample_generateUid nested with
    | Ok t => t
    | Throw _ => nested
    end.

(** [if (c) use traits * from a;] *)
Definition provider_under_if : program :=
  Program [IfStatement (Identifier "c") (provider 1 (Identifier "a"))].

(** [use traits * from {}], the body a block. *)
Definition provider_of_block : program :=
  Program [LabeledStatement 1 "_StraitsProvider" (BlockStatement (Block 2 []))].


(** [nested], its namespaces and the identifiers made, after the third
    step. *)
Definition nested_rewritten : program * registry * list string :=
  Eval vm_compute in
    match rewrite_all sample_generateUid nested nested nested_inherited ["_getSymbol"] with
    | Ok acc => acc
    | Throw _ => (nested, [], [])
    end.


(** [use traits * from a; x._Straits;]: a marker that ends an access. *)
Definition stray_marker : program :=
  Program [provider 1 (Identifier "a");
           ExpressionStatement (MemberExpression (Identifier "x") "_Straits")].

(** [use traits * from a; x.*one;] *)
Definition one_access : program :=
  Program [provider 1 (Identifier "a");
           ExpressionStatement (access (Identifier "x") "one")].

(** [use traits * from a; 'x._Straits.one';]: the literal of
    [literal_only] after a provider statement. *)
Definition literal_after_provider : program :=
  Program [provider 1 (Identifier "a");
           ExpressionStatement (StringLiteral "x._Straits.one")].

(** [use traits * from a; use traits * from b; x.*one;] *)
Definition two_providers_access : program :=
  Program [provider 1 (Identifier "a"); provider 2 (Identifier "b");
           ExpressionStatement (access (Identifier "x") "one")].

(** What the pass makes of [two_providers_access] with the sample host:
    [function _getSymbol(...) {...} const _one = _getSymbol('one', a, b);
     _StraitsProvider: b; x[_one];] *)
Definition two_providers_access_output : program :=
  Program
    [GetSymbolDeclaration "_getSymbol";
     VariableDeclaration "const"
       [("_one", CallExpression (Identifier "_getSymbol")
                   [StringLiteral "one"; Identifier "a"; Identifier "b"])];
     provider 2 (Identifier "b");
     ExpressionStatement
       (ComputedMemberExpression (Identifier "x") (Identifier "_one"))].

(** [{ use traits * from b; } x.*one;]: the access is outside the block. *)
Definition inner_only : program :=
  Program
    [BlockStatement (Block 10 [provider 2 (Identifier "b")]);
     ExpressionStatement (access (Identifier "x") "one")].

End Samples.

(* ===================================================================== *)
(** * Properties of the resolver routine *)
(* ===================================================================== *)

Module ResolverProofs.
Import Resolver.

Lemma typeof_symbol (v : value) :
  String.eqb (typeof v) "symbol" = true -> exists id, v = VSymbol id.
Proof. destruct v; simpl; try discriminate. intros _. now exists id. Qed.

(** Once a symbol is held, the rest of the scan either meets no other
    candidate and keeps it, or throws. *)
Lemma forEach_holding (name : string) (id : nat) (sets : list object) :
  forEach name (VSymbol id) sets =
    match candidates name sets with
    | [] => Ok (VSymbol id)
    | _ :: _ => Throw (multiple name)
    end.
Proof.
  induction sets as [|symbolSet rest IH]; [reflexivity|].
  unfold candidates in *. simpl. unfold visit, carries.
  destruct (String.eqb (typeof (get symbolSet name)) "symbol"); simpl.
  - reflexivity.
  - exact IH.
Qed.

Lemma forEach_empty_handed (name : string) (sets : list object) :
  forEach name VUndefined sets =
    match candidates name sets with
    | [] => Ok VUndefined
    | [symbol] => Ok symbol
    | _ :: _ :: _ => Throw (multiple name)
    end.
Proof.
  induction sets as [|symbolSet rest IH]; [reflexivity|].
  unfold candidates in *. simpl. unfold visit, carries.
  destruct (String.eqb (typeof (get symbolSet name)) "symbol") eqn:Hk; simpl.
  - destruct (typeof_symbol _ Hk) as [id ->].
    rewrite forEach_holding. unfold candidates.
    now destruct (List.map _ _).
  - exact IH.
Qed.

Lemma candidates_truthy (name : string) (sets : list object) :
  Forall (fun v => truthy v = true) (candidates name sets).
Proof.
  unfold candidates. apply Forall_forall. intros v Hv.
  apply in_map_iff in Hv as [symbolSet [<- Hin]].
  apply filter_In in Hin as [_ Hk]. unfold carries in Hk.
  now destruct (typeof_symbol _ Hk) as [id ->].
Qed.

(** C2: a call of the resolver routine with a trait name and the list of
    provider values fails with the "no provider" error when no provider
    carries a symbol at that name, returns the candidate when exactly one
    does, and fails with the "multiple providers" error when more than one
    does. *)
Theorem GET_SYMBOL_by_candidates (targetSymName : string)
    (symbolSets : list object) :
  GET_SYMBOL targetSymName symbolSets =
    match candidates targetSymName symbolSets with
    | [] => Throw (nobody targetSymName)
    | [symbol] => Ok symbol
    | _ :: _ :: _ => Throw (multiple targetSymName)
    end.
Proof.
  unfold GET_SYMBOL. rewrite forEach_empty_handed.
  pose proof (candidates_truthy targetSymName symbolSets) as Ht.
  destruct (candidates targetSymName symbolSets) as [|v [|w l]]; try reflexivity.
  inversion Ht as [|? ? Hv _]; subst. now rewrite Hv.
Qed.

(** ** Further properties of the routine *)

Lemma candidates_cons (name : string) (symbolSet : object) (rest : list object) :
  candidates name (symbolSet :: rest) =
    if carries name symbolSet then get symbolSet name :: candidates name rest
    else candidates name rest.
Proof. unfold candidates. simpl. now destruct (carries name symbolSet). Qed.

Lemma candidates_app (name : string) (a b : list object) :
  candidates name (a ++ b) = candidates name a ++ candidates name b.
Proof. unfold candidates. now rewrite List.filter_app, List.map_app. Qed.

Lemma candidates_Permutation (name : string) (a b : list object) :
  Permutation a b -> Permutation (candidates name a) (candidates name b).
Proof.
  induction 1 as [|x a b _ IH|x y a|a b c _ IH1 _ IH2].
  - constructor.
  - rewrite !candidates_cons. destruct (carries name x); auto.
  - rewrite !candidates_cons.
    destruct (carries name x), (carries name y); auto using perm_swap.
  - eapply perm_trans; eauto.
Qed.

Lemma GET_SYMBOL_same_candidates (name : string) (a b : list object) :
  Permutation (candidates name a) (candidates name b) ->
  GET_SYMBOL name a = GET_SYMBOL name b.
Proof.
  intros P. unfold GET_SYMBOL. rewrite !forEach_empty_handed.
  pose proof (candidates_truthy name a) as Ta.
  pose proof (Permutation_length P) as L.
  destruct (candidates name a) as [|v [|w l]].
  - apply Permutation_nil in P. now rewrite P.
  - apply Permutation_length_1_inv in P. now rewrite P.
  - destruct (candidates name b) as [|v' [|w' l']]; simpl in L; try discriminate.
    reflexivity.
Qed.

(** X14: what the routine answers does not depend on the order in which
    the providers are passed: the same providers in another order give
    the same symbol or the same error. *)
Theorem GET_SYMBOL_any_order (targetSymName : string) (symbolSets symbolSets' : list object) :
  Permutation symbolSets symbolSets' ->
  GET_SYMBOL targetSymName symbolSets = GET_SYMBOL targetSymName symbolSets'.
Proof.
  intros P. apply GET_SYMBOL_same_candidates. now apply candidates_Permutation.
Qed.

Lemma GET_SYMBOL_any_order_witness :
  GET_SYMBOL "one"
      [(stdpp.base.singletonM "one" (VSymbol 1) : object); (stdpp.base.empty : object)]
    = GET_SYMBOL "one"
        [(stdpp.base.empty : object); (stdpp.base.singletonM "one" (VSymbol 1) : object)].
Proof.
  apply (GET_SYMBOL_any_order "one"). apply perm_swap.
Defined.


Lemma candidates_none (name : string) (sets : list object) :
  Forall (fun symbolSet => carries name symbolSet = false) sets ->
  candidates name sets = [].
Proof.
  induction 1 as [|x l Hx _ IH]; [reflexivity|].
  now rewrite candidates_cons, Hx.
Qed.

Lemma candidates_In (name : string) (sets : list object) (v : value) :
  In v (candidates name sets) <->
  exists symbolSet, In symbolSet sets /\ carries name symbolSet = true
                    /\ get symbolSet name = v.
Proof.
  unfold candidates. rewrite in_map_iff. split.
  - intros [x [<- Hx]]. apply filter_In in Hx as [Hin Hc]. eauto.
  - intros [x [Hin [Hc <-]]]. exists x. split; [reflexivity|].
    apply filter_In. auto.
Qed.

(** X15: only the providers that hold a symbol at the name count: the
    others can be dropped or added without changing the answer, whatever
    they hold there.  A symbol returned is held at the name by one of the
    providers passed.  And a provider that holds a symbol at the name
    makes the call fail when it is passed twice. *)
Theorem GET_SYMBOL_counts_carriers (targetSymName : string) (symbolSets : list object) :
  GET_SYMBOL targetSymName (List.filter (carries targetSymName) symbolSets)
    = GET_SYMBOL targetSymName symbolSets
  /\ (forall others,
        Forall (fun symbolSet => carries targetSymName symbolSet = false) others ->
        GET_SYMBOL targetSymName (symbolSets ++ others)
          = GET_SYMBOL targetSymName symbolSets
        /\ GET_SYMBOL targetSymName (others ++ symbolSets)
           = GET_SYMBOL targetSymName symbolSets)
  /\ (forall symbol, GET_SYMBOL targetSymName symbolSets = Ok symbol ->
        typeof symbol = "symbol"
        /\ exists symbolSet, In symbolSet symbolSets
                             /\ get symbolSet targetSymName = symbol)
  /\ (forall symbolSet, carries targetSymName symbolSet = true ->
        In symbolSet symbolSets ->
        GET_SYMBOL targetSymName (symbolSet :: symbolSets)
          = Throw (multiple targetSymName)).
Proof.
  repeat split.
  - apply GET_SYMBOL_same_candidates.
    assert (E : candidates targetSymName
                  (List.filter (carries targetSymName) symbolSets)
                = candidates targetSymName symbolSets).
    { induction symbolSets as [|x l IH]; simpl; [reflexivity|].
      destruct (carries targetSymName x) eqn:C.
      - rewrite !candidates_cons, C. now f_equal.
      - now rewrite candidates_cons, C. }
    now rewrite E.
  - apply GET_SYMBOL_same_candidates.
    now rewrite candidates_app, (candidates_none _ _ H), app_nil_r.
  - apply GET_SYMBOL_same_candidates.
    now rewrite candidates_app, (candidates_none _ _ H).
  - unfold GET_SYMBOL in H. rewrite forEach_empty_handed in H.
    pose proof (candidates_In targetSymName symbolSets symbol) as [Hc _].
    destruct (candidates targetSymName symbolSets) as [|v [|w l]];
      try discriminate.
    destruct (negb (truthy v)); [discriminate|]. inversion H; subst.
    destruct (Hc (or_introl eq_refl)) as [x [_ [Cx <-]]].
    unfold carries in Cx. now apply String.eqb_eq in Cx.
  - unfold GET_SYMBOL in H. rewrite forEach_empty_handed in H.
    pose proof (candidates_In targetSymName symbolSets symbol) as [Hc _].
    destruct (candidates targetSymName symbolSets) as [|v [|w l]];
      try discriminate.
    destruct (negb (truthy v)); [discriminate|]. inversion H; subst.
    destruct (Hc (or_introl eq_refl)) as [x [Hin [_ <-]]]. eauto.
  - intros symbolSet C Hin. unfold GET_SYMBOL.
    rewrite forEach_empty_handed, candidates_cons, C.
    assert (Hv : In (get symbolSet targetSymName) (candidates targetSymName symbolSets))
      by (apply candidates_In; eauto).
    destruct (candidates targetSymName symbolSets); [destruct Hv|reflexivity].
Qed.


End ResolverProofs.

(* ===================================================================== *)
(** * Properties of the pass *)
(* ===================================================================== *)

Module PluginProofs.
Import Ast Plugin Props.

(** ** Loops *)

(** A property of the state that every turn keeps is kept by the loop. *)
Lemma foldM_keeps {S A : Type} (P : S -> Prop) (f : A -> S -> R S) (l : list A) :
  Forall (fun x => forall s s', f x s = Ok s' -> P s -> P s') l ->
  forall s s', foldM f l s = Ok s' -> P s -> P s'.
Proof.
  induction 1 as [|x l Hx _ IH]; simpl; intros s s' Hf Hs.
  - now inversion Hf; subst.
  - destruct (f x s) as [s1|] eqn:E; simpl in Hf; [|discriminate].
    eapply IH; eauto.
Qed.

(** ** The final check reads names only *)

Lemma verdict_app (l1 l2 : list string) :
  verdict (l1 ++ l2) = (_ <- verdict l1 ;; verdict l2).
Proof.
  unfold verdict. rewrite existsb_app.
  destruct (existsb is_marker l1); reflexivity.
Qed.

Lemma verdict_one (n : string) : check_Identifier n = verdict [n].
Proof.
  unfold check_Identifier, verdict, is_marker. simpl.
  rewrite orb_false_r. reflexivity.
Qed.

Lemma verdict_names (ps : list string) :
  foldM (fun n _ => check_Identifier n) ps tt = verdict ps.
Proof.
  induction ps as [|n ps IH]; [reflexivity|].
  change (n :: ps) with ([n] ++ ps) at 2. rewrite verdict_app, <- verdict_one.
  simpl. destruct (check_Identifier n) as [[]|]; simpl; [exact IH | reflexivity].
Qed.

Lemma verdict_children {A : Type} (f : A -> unit -> R unit) (ids : A -> list string)
    (l : list A) :
  Forall (fun x => f x tt = verdict (ids x)) l ->
  foldM f l tt = verdict (flat_map ids l).
Proof.
  induction 1 as [|x l Hx _ IH]; [reflexivity|].
  simpl. rewrite verdict_app, Hx.
  destruct (verdict (ids x)) as [[]|]; simpl; [exact IH | reflexivity].
Qed.

Lemma finalCheck_nodes :
  (forall e, finalCheck_e e tt = verdict (identifiers_e e)) /\
  (forall s, finalCheck_s s tt = verdict (identifiers_s s)) /\
  (forall b, finalCheck_b b tt = verdict (identifiers_b b)).
Proof.
  apply node_ind; intros; simpl;
    repeat rewrite verdict_app;
    repeat match goal with H : _ = verdict _ |- _ => rewrite H; clear H end;
    try rewrite verdict_names; try rewrite <- verdict_one; try reflexivity.
  - now apply verdict_children.
  - now rewrite (verdict_children finalCheck_e identifiers_e).
  - change (l :: identifiers_s s) with ([l] ++ identifiers_s s).
    now rewrite verdict_app, <- verdict_one.
  - apply (verdict_children
             (fun d _ => _ <- check_Identifier (fst d) ;; finalCheck_e (snd d) tt)
             (fun d => fst d :: identifiers_e (snd d))).
    eapply Forall_impl; [|eassumption]. intros d Hd. simpl in Hd.
    change (fst d :: identifiers_e (snd d)) with ([fst d] ++ identifiers_e (snd d)).
    now rewrite verdict_app, <- verdict_one, Hd.
  - change (i :: ps ++ identifiers_b b) with ([i] ++ ps ++ identifiers_b b).
    now rewrite !verdict_app, <- verdict_one.
  - now apply verdict_children.
Qed.

Lemma finalCheck_verdict (t : program) : finalCheck t = verdict (identifiers t).
Proof.
  unfold finalCheck, identifiers. apply verdict_children.
  apply Forall_forall. intros s _. apply finalCheck_nodes.
Qed.

Lemma is_marker_In (names : list string) :
  existsb is_marker names = true <-> In "_Straits" names.
Proof.
  rewrite existsb_exists. unfold is_marker. split.
  - intros [n [Hin Hn]]. apply String.eqb_eq in Hn. now subst.
  - intros Hin. exists "_Straits". split; [assumption | apply String.eqb_refl].
Qed.

Lemma finalCheck_Ok (t : program) :
  finalCheck t = Ok tt <-> ~ In "_Straits" (identifiers t).
Proof.
  rewrite finalCheck_verdict, <- is_marker_In. unfold verdict.
  destruct (existsb is_marker (identifiers t)); split; intros H;
    try discriminate; try reflexivity; try congruence.
Qed.

Lemma finalCheck_Throw (t : program) :
  In "_Straits" (identifiers t) ->
  finalCheck t = Throw (CodeFrameError used_without_traits).
Proof.
  rewrite finalCheck_verdict, <- is_marker_In. unfold verdict. now intros ->.
Qed.


(** ** A unit without provider statements *)

Lemma list_sum_zero {A : Type} (f : A -> nat) (l : list A) :
  list_sum (map f l) = 0 -> Forall (fun x => f x = 0) l.
Proof.
  induction l as [|x l IH]; simpl; intros H; constructor.
  - lia.
  - apply IH. lia.
Qed.

Lemma foldM_idle {S A : Type} (f : A -> S -> R S) (l : list A) (s : S) :
  Forall (fun x => f x s = Ok s) l -> foldM f l s = Ok s.
Proof.
  induction 1 as [|x l Hx _ IH]; simpl; [reflexivity|].
  now rewrite Hx.
Qed.

Lemma Forall_modus {A : Type} {P Q : A -> Prop} {l : list A} :
  Forall (fun x => P x -> Q x) l -> Forall P l -> Forall Q l.
Proof.
  induction 1; intros HP; inversion HP; subst; constructor; auto.
Qed.

Lemma collect_without_providers (t : program) :
  (forall e, provider_count_e e = 0 ->
     forall cur m, collect_e t cur e m = Ok m) /\
  (forall s, provider_count_s s = 0 ->
     forall ok cur m, collect_s t ok cur s m = Ok m) /\
  (forall b, provider_count_b b = 0 ->
     forall cur m, collect_b t cur b m = Ok m).
Proof.
  apply node_ind; simpl; intros;
    repeat match goal with
      | H : _ + _ = 0 |- _ => apply Nat.eq_add_0 in H; destruct H
      | H : list_sum _ = 0 |- _ => apply list_sum_zero in H
      end;
    repeat match goal with
      | IH : provider_count_e ?e = 0 -> _, H : provider_count_e ?e = 0 |- _ =>
          specialize (IH H); try rewrite IH; simpl
      | IH : provider_count_s ?e = 0 -> _, H : provider_count_s ?e = 0 |- _ =>
          specialize (IH H); try rewrite IH; simpl
      | IH : provider_count_b ?e = 0 -> _, H : provider_count_b ?e = 0 |- _ =>
          specialize (IH H); try rewrite IH; simpl
      end;
    try reflexivity; auto;
    try (apply foldM_idle;
         match goal with
         | H1 : Forall _ ?l, H2 : Forall _ ?l |- _ =>
             pose proof (Forall_modus H1 H2) as HF;
             eapply Forall_impl; [|exact HF]; simpl; intros; auto
         end).
  unfold visit_LabeledStatement.
  destruct (String.eqb l "_StraitsProvider"); [discriminate|]. simpl. auto.
Qed.

Lemma collect_nothing (t : program) :
  provider_count t = 0 -> collect t = Ok [].
Proof.
  unfold provider_count, collect. intros H.
  apply list_sum_zero in H. apply foldM_idle.
  eapply Forall_impl; [|exact H]. intros s Hs.
  now apply collect_without_providers.
Qed.

Lemma visitor_without_providers
    (generateUid : program -> list string -> string -> string) (t : program) :
  provider_count t = 0 ->
  Program_visitor generateUid t = (_ <- finalCheck t ;; Ok t).
Proof.
  intros H. unfold Program_visitor. now rewrite collect_nothing.
Qed.

(** The visitor answers only through the final check. *)
Lemma visitor_checked
    (generateUid : program -> list string -> string -> string) (t t' : program) :
  Program_visitor generateUid t = Ok t' -> finalCheck t' = Ok tt.
Proof.
  unfold Program_visitor.
  destruct (collect t) as [m|]; simpl; [|discriminate].
  destruct (Nat.eqb (List.length m) 0).
  - destruct (finalCheck t) as [[]|] eqn:E; simpl; [|discriminate].
    intros H. now inversion H; subst.
  - destruct (inherit _ m) as [m2|]; simpl; [|discriminate].
    destruct (rewrite_all _ _ _ _ _) as [[[t3 m3] uids]|]; simpl; [|discriminate].
    match goal with |- context [finalCheck ?x] => destruct (finalCheck x) as [[]|] eqn:E end;
      simpl; [|discriminate].
    intros H. now inversion H; subst.
Qed.

(** C10: the final check answers on the names alone, whatever the place
    of the identifier; the pass returns a tree only when that check
    accepts it; and in a unit without any provider statement, an
    identifier of the reserved name, be it a binding or a reference that is
    no trait access, makes the pass fail with the error of the check. *)
Theorem finalCheck_keys_on_names
    (generateUid : program -> list string -> string -> string) (t : program) :
  (finalCheck t = Ok tt <-> ~ In "_Straits" (identifiers t)) /\
  (In "_Straits" (identifiers t) ->
     finalCheck t = Throw (CodeFrameError used_without_traits)) /\
  (forall t', Program_visitor generateUid t = Ok t' ->
     ~ In "_Straits" (identifiers t')) /\
  (provider_count t = 0 -> In "_Straits" (identifiers t) ->
     Program_visitor generateUid t = Throw (CodeFrameError used_without_traits)).
Proof.
  split; [apply finalCheck_Ok|].
  split; [apply finalCheck_Throw|].
  split.
  - intros t' H. apply finalCheck_Ok. eapply visitor_checked; eauto.
  - intros H0 Hin. rewrite visitor_without_providers by assumption.
    now rewrite finalCheck_Throw.
Qed.

Lemma finalCheck_keys_on_names_witness :
  Program_visitor Samples.sample_generateUid Samples.reserved_binding
    = Throw (CodeFrameError used_without_traits).
Proof.
  apply (finalCheck_keys_on_names Samples.sample_generateUid Samples.reserved_binding).
  - reflexivity.
  - simpl. auto.
Defined.


(** ** Paths, maps and sets *)

Lemma path_eqb_eq (a b : blockpath) : path_eqb a b = true <-> a = b.
Proof.
  revert b. induction a as [|x a IH]; destruct b as [|y b]; simpl;
    try (split; [discriminate | discriminate]); [tauto|].
  rewrite andb_true_iff, Nat.eqb_eq, IH. split.
  - now intros [-> ->].
  - intros H. now inversion H.
Qed.

Lemma path_eqb_refl (a : blockpath) : path_eqb a a = true.
Proof. now apply path_eqb_eq. Qed.

Lemma Set_has_In (keys : list blockpath) (c : blockpath) :
  Set_has path_eqb keys c = true <-> In c keys.
Proof.
  unfold Set_has. rewrite existsb_exists. split.
  - intros [k [Hin Hk]]. apply path_eqb_eq in Hk. now subst.
  - intros Hin. exists c. split; [assumption | apply path_eqb_refl].
Qed.

Lemma Map_get_In {V : Type} (m : list (blockpath * V)) (key : blockpath) (v : V) :
  Map_get path_eqb m key = Some v -> In (key, v) m.
Proof.
  induction m as [|[k w] m IH]; simpl; [discriminate|].
  destruct (path_eqb k key) eqn:E.
  - apply path_eqb_eq in E. subst. intros H. inversion H. now left.
  - intros H. right. now apply IH.
Qed.

Lemma Map_get_key {V : Type} (m : list (blockpath * V)) (key : blockpath) (v : V) :
  Map_get path_eqb m key = Some v -> In key (map fst m).
Proof.
  intros H. apply Map_get_In in H. now apply (in_map fst) in H.
Qed.

Lemma Map_get_None {V : Type} (m : list (blockpath * V)) (key : blockpath) :
  Map_get path_eqb m key = None -> ~ In key (map fst m).
Proof.
  induction m as [|[k w] m IH]; simpl; [tauto|].
  destruct (path_eqb k key) eqn:E; [discriminate|].
  intros H [Hk|Hin]; [|now apply IH].
  subst. now rewrite path_eqb_refl in E.
Qed.

(** Writing at a key that is there keeps the keys. *)
Lemma Map_set_keys {V : Type} (m : list (blockpath * V)) (key : blockpath) (v : V) :
  In key (map fst m) -> map fst (Map_set path_eqb m key v) = map fst m.
Proof.
  induction m as [|[k w] m IH]; simpl; [tauto|].
  destruct (path_eqb k key) eqn:E; simpl; [reflexivity|].
  intros [Hk|Hin]; [subst; now rewrite path_eqb_refl in E|].
  now rewrite IH.
Qed.

Lemma Map_set_In {V : Type} (m : list (blockpath * V)) (key : blockpath) (v : V)
    (k : blockpath) (w : V) :
  In (k, w) (Map_set path_eqb m key v) -> In (k, w) m \/ (k = key /\ w = v).
Proof.
  induction m as [|[k0 w0] m IH]; simpl.
  - intros [H|[]]. inversion H. now right.
  - destruct (path_eqb k0 key) eqn:E; simpl.
    + apply path_eqb_eq in E. subst.
      intros [H|H]; [inversion H; now right | left; now right].
    + intros [H|H]; [left; now left|].
      destruct (IH H) as [?|?]; [left; now right | now right].
Qed.

Lemma Map_get_set {V : Type} (m : list (blockpath * V)) (key k : blockpath) (v : V) :
  Map_get path_eqb (Map_set path_eqb m key v) k =
    if path_eqb key k then Some v else Map_get path_eqb m k.
Proof.
  induction m as [|[k0 w0] m IH]; simpl.
  - reflexivity.
  - destruct (path_eqb k0 key) eqn:E; simpl.
    + apply path_eqb_eq in E. subst. destruct (path_eqb key k); reflexivity.
    + destruct (path_eqb k0 k) eqn:F.
      * apply path_eqb_eq in F. subst.
        destruct (path_eqb key k) eqn:G; [|reflexivity].
        apply path_eqb_eq in G. subst. now rewrite path_eqb_refl in E.
      * exact IH.
Qed.


(** ** Markers that no namespace encloses *)

Arguments path_eqb : simpl never.
Arguments Set_has : simpl never.

Lemma existsb_map_same {A : Type} (f : A -> bool) (g : A -> A) (l : list A) :
  Forall (fun x => f (g x) = f x) l -> existsb f (map g l) = existsb f l.
Proof.
  induction 1 as [|x l Hx _ IH]; simpl; [reflexivity|]. now rewrite Hx, IH.
Qed.

Lemma existsb_weaken {A : Type} (f g : A -> bool) (l : list A) :
  Forall (fun x => f x = true -> g x = true) l ->
  existsb f l = true -> existsb g l = true.
Proof.
  induction 1 as [|x l Hx _ IH]; simpl; [discriminate|].
  rewrite !orb_true_iff. intros [H|H]; [left; auto | right; auto].
Qed.

Lemma existsb_flat_map {A : Type} (f : A -> bool) (ids : A -> list string) (l : list A) :
  Forall (fun x => f x = true -> existsb is_marker (ids x) = true) l ->
  existsb f l = true -> existsb is_marker (flat_map ids l) = true.
Proof.
  induction 1 as [|x l Hx _ IH]; simpl; [discriminate|].
  rewrite existsb_app, !orb_true_iff. intros [H|H]; [left; auto | right; auto].
Qed.

(** Writing the body of a block of [keys] neither hides nor shows a
    marker outside of the blocks of [keys]. *)
Lemma exposed_set_nodes (keys : list blockpath) (target : blockpath) (new : list stmt) :
  In target keys ->
  (forall e cur, exposed_e keys cur (set_e target new cur e) = exposed_e keys cur e) /\
  (forall s cur, exposed_s keys cur (set_s target new cur s) = exposed_s keys cur s) /\
  (forall b cur, exposed_b keys cur (set_b target new cur b) = exposed_b keys cur b).
Proof.
  intros Hin. apply node_ind; simpl; intros;
    repeat match goal with H : forall cur, _ = _ |- _ => rewrite H; clear H end;
    try reflexivity;
    try (f_equal; apply existsb_map_same; eapply Forall_impl; [|eassumption];
         simpl; intros; auto; fail).
  - apply existsb_map_same. eapply Forall_impl; [|eassumption]. simpl; intros; auto.
  - apply existsb_map_same. eapply Forall_impl; [|eassumption].
    simpl; intros a Ha. now rewrite Ha.
  - destruct (path_eqb (r :: cur) target) eqn:E; simpl.
    + apply path_eqb_eq in E. subst target.
      apply Set_has_In in Hin. now rewrite Hin.
    + destruct (Set_has path_eqb keys (r :: cur)); [reflexivity|].
      apply existsb_map_same. eapply Forall_impl; [|eassumption]. simpl; intros; auto.
Qed.

Lemma exposed_set_block (keys : list blockpath) (target : blockpath)
    (new : list stmt) (t : program) :
  In target keys -> exposed keys (set_block target new t) = exposed keys t.
Proof.
  intros Hin. unfold exposed, set_block. destruct target as [|r target].
  - apply Set_has_In in Hin. now rewrite Hin.
  - simpl. destruct (Set_has path_eqb keys []); [reflexivity|].
    apply existsb_map_same. apply Forall_forall. intros s _.
    now apply exposed_set_nodes.
Qed.

Lemma exposed_clean_nodes (keys : list blockpath) :
  (forall e cur, exposed_e keys cur (clean_e e) = exposed_e keys cur e) /\
  (forall s cur, exposed_s keys cur (clean_s s) = exposed_s keys cur s) /\
  (forall b cur, exposed_b keys cur (clean_b b) = exposed_b keys cur b).
Proof.
  apply node_ind; simpl; intros;
    repeat match goal with H : forall cur, _ = _ |- _ => rewrite H; clear H end;
    try reflexivity;
    try (f_equal; apply existsb_map_same; eapply Forall_impl; [|eassumption];
         simpl; intros; auto; fail).
  - unfold clean_StringLiteral. now destruct (String.eqb _ _).
  - apply existsb_map_same. eapply Forall_impl; [|eassumption]. simpl; intros; auto.
  - apply existsb_map_same. eapply Forall_impl; [|eassumption].
    simpl; intros a Ha. now rewrite Ha.
  - destruct (Set_has path_eqb keys (r :: cur)); [reflexivity|].
    apply existsb_map_same. eapply Forall_impl; [|eassumption]. simpl; intros; auto.
Qed.

Lemma exposed_clean (keys : list blockpath) (t : program) :
  exposed keys (clean t) = exposed keys t.
Proof.
  unfold exposed, clean. simpl. destruct (Set_has path_eqb keys []); [reflexivity|].
  apply existsb_map_same. apply Forall_forall. intros s _. apply exposed_clean_nodes.
Qed.

(** Fewer namespaces enclose less. *)
Lemma exposed_fewer_nodes (keys keys' : list blockpath) :
  (forall c, In c keys' -> In c keys) ->
  (forall e cur, exposed_e keys cur e = true -> exposed_e keys' cur e = true) /\
  (forall s cur, exposed_s keys cur s = true -> exposed_s keys' cur s = true) /\
  (forall b cur, exposed_b keys cur b = true -> exposed_b keys' cur b = true).
Proof.
  intros Hsub. apply node_ind; simpl; intros;
    repeat match goal with
      | H : _ || _ = true |- _ => apply orb_true_iff in H; destruct H
      end;
    repeat rewrite orb_true_iff; auto;
    try (right; eapply existsb_weaken; [|eassumption];
         eapply Forall_impl; [|eassumption]; simpl; intros; auto; fail);
    try (eapply existsb_weaken; [|eassumption];
         eapply Forall_impl; [|eassumption]; simpl; intros; auto; fail).
  - eapply existsb_weaken; [|eassumption].
    eapply Forall_impl; [|eassumption]. simpl. intros a Ha.
    rewrite !orb_true_iff. intros [?|?]; auto.
  - destruct (Set_has path_eqb keys (r :: cur)) eqn:E; [discriminate|].
    destruct (Set_has path_eqb keys' (r :: cur)) eqn:E'.
    + apply Set_has_In in E'. apply Hsub in E'. apply Set_has_In in E'. congruence.
    + eapply existsb_weaken; [|eassumption].
      eapply Forall_impl; [|eassumption]. simpl; intros; auto.
Qed.

Lemma exposed_fewer (keys keys' : list blockpath) (t : program) :
  (forall c, In c keys' -> In c keys) ->
  exposed keys t = true -> exposed keys' t = true.
Proof.
  intros Hsub. unfold exposed.
  destruct (Set_has path_eqb keys []) eqn:E; [discriminate|].
  destruct (Set_has path_eqb keys' []) eqn:E'.
  - apply Set_has_In in E'. apply Hsub in E'. apply Set_has_In in E'. congruence.
  - apply existsb_weaken. apply Forall_forall. intros s _.
    now apply exposed_fewer_nodes.
Qed.

(** What is exposed is a marker of the tree. *)
Lemma exposed_marker_nodes (keys : list blockpath) :
  (forall e cur, exposed_e keys cur e = true ->
     existsb is_marker (identifiers_e e) = true) /\
  (forall s cur, exposed_s keys cur s = true ->
     existsb is_marker (identifiers_s s) = true) /\
  (forall b cur, exposed_b keys cur b = true ->
     existsb is_marker (identifiers_b b) = true).
Proof.
  apply node_ind; simpl; intros;
    repeat match goal with
      | H : _ || _ = true |- _ => apply orb_true_iff in H; destruct H
      end;
    repeat rewrite existsb_app; simpl;
    repeat rewrite orb_true_iff; eauto;
    try discriminate;
    try (right; eapply existsb_flat_map; [|eassumption];
         eapply Forall_impl; [|eassumption]; simpl; intros; eauto; fail);
    try (eapply existsb_flat_map; [|eassumption];
         eapply Forall_impl; [|eassumption]; simpl; intros; eauto; fail).
  - eapply existsb_flat_map; [|eassumption].
    eapply Forall_impl; [|eassumption]. simpl. intros a Ha.
    rewrite !orb_true_iff. intros [?|?]; eauto.
  - destruct (Set_has path_eqb keys (r :: cur)); [discriminate|].
    eapply existsb_flat_map; [|eassumption].
    eapply Forall_impl; [|eassumption]. simpl; intros; eauto.
Qed.

Lemma exposed_marker (keys : list blockpath) (t : program) :
  exposed keys t = true -> In "_Straits" (identifiers t).
Proof.
  unfold exposed, identifiers. destruct (Set_has path_eqb keys []); [discriminate|].
  intros H. apply is_marker_In. eapply existsb_flat_map; [|eassumption].
  apply Forall_forall. intros s _. apply exposed_marker_nodes.
Qed.

Lemma exposed_unshift (keys : list blockpath) (new : stmt) (t : program) :
  exposed keys t = true -> exposed keys (unshiftContainer new t) = true.
Proof.
  unfold exposed, unshiftContainer. simpl.
  destruct (Set_has path_eqb keys []); [discriminate|].
  intros ->. apply orb_true_r.
Qed.


(** ** What the first step builds *)

(** Every namespace sits at the path of the block that holds its anchor
    statement. *)
Lemma addProvider_fields (t : program) (ns ns' : TraitNamespace) (p : NodePath) :
  addProvider t ns p = Ok ns' ->
  path ns' = path ns /\ blockPath ns' = blockPath ns /\ symbols ns' = symbols ns /\
  providers ns' = Set_add NodePath_eqb (providers ns) p.
Proof.
  unfold addProvider. destruct (body_expression t p); [|discriminate].
  intros H. inversion H. now simpl.
Qed.

Ltac bind_ok H :=
  match type of H with
  | bind ?m _ = Ok _ =>
      let E := fresh "E" in
      destruct m eqn:E; simpl in H; [|discriminate]
  end.

Ltac unbind :=
  repeat match goal with
    | H : bind ?m _ = Ok _ |- _ =>
        let E := fresh "E" in
        destruct m eqn:E; simpl in H; [|discriminate]
    | H : (let '(_, _) := ?p in _) = Ok _ |- _ => destruct p
    | H : Ok _ = Ok _ |- _ => inversion H; subst; clear H
    | H : Throw _ = Ok _ |- _ => discriminate
    end.

Ltac fields :=
  repeat match goal with
    | E : addProvider _ _ _ = Ok _ |- _ =>
        apply addProvider_fields in E as (? & ? & ? & ?)
    end.

(** A property of the namespaces that the [LabeledStatement] visitor
    keeps is kept by the traversal. *)
Section CollectKeeps.
Variable t : program.
Variable P : registry -> Prop.
Hypothesis visit_keeps : forall ok cur r l m m',
  visit_LabeledStatement t ok cur r l m = Ok m' -> P m -> P m'.

Lemma collect_keeps_nodes :
  (forall e cur m m', collect_e t cur e m = Ok m' -> P m -> P m') /\
  (forall s ok cur m m', collect_s t ok cur s m = Ok m' -> P m -> P m') /\
  (forall b cur m m', collect_b t cur b m = Ok m' -> P m -> P m').
Proof.
  apply node_ind; simpl; intros;
    repeat match goal with H : bind _ _ = Ok _ |- _ => bind_ok H end;
    try match goal with H : Ok _ = Ok _ |- _ => inversion H; subst; clear H end;
    eauto;
    try (eapply foldM_keeps; [|eassumption|]; eauto;
         eapply Forall_impl; [|eassumption]; simpl; intros; eauto; fail).
Qed.

Lemma collect_keeps (m : registry) : collect t = Ok m -> P [] -> P m.
Proof.
  unfold collect. intros H H0. eapply foldM_keeps; [|eassumption|eassumption].
  apply Forall_forall. intros s _ m1 m2. apply collect_keeps_nodes.
Qed.
End CollectKeeps.

Lemma anchored_set (m : registry) (key : blockpath) (ns : TraitNamespace) :
  anchored m -> parentPath (path ns) = key -> blockPath ns = key ->
  anchored (Map_set path_eqb m key ns).
Proof.
  unfold anchored. intros Hm H1 H2. apply Forall_forall. intros [k w] Hin.
  apply Map_set_In in Hin as [Hin|[-> ->]]; simpl.
  - rewrite Forall_forall in Hm. exact (Hm _ Hin).
  - now split.
Qed.

Lemma anchored_get {m : registry} {key : blockpath} {ns : TraitNamespace} :
  anchored m -> Map_get path_eqb m key = Some ns ->
  parentPath (path ns) = key /\ blockPath ns = key.
Proof.
  unfold anchored. intros Hm H. apply Map_get_In in H.
  rewrite Forall_forall in Hm. exact (Hm _ H).
Qed.

Lemma visit_anchored (t : program) (ok : bool) (cur : blockpath) (r : nat)
    (l : string) (m m' : registry) :
  visit_LabeledStatement t ok cur r l m = Ok m' -> anchored m -> anchored m'.
Proof.
  unfold visit_LabeledStatement, defaultGet, TraitNamespace_new.
  destruct (String.eqb l "_StraitsProvider"); simpl;
    [|intros H; now inversion H; subst].
  intros H Hm.
  destruct (Map_get path_eqb m cur) as [ns|] eqn:G; simpl in H; unbind; fields.
  - destruct (anchored_get Hm G). apply anchored_set; congruence.
  - simpl in *.
    repeat apply anchored_set; auto;
      repeat match goal with H : path _ = _ |- _ => rewrite H; clear H end;
      simpl; congruence.
Qed.

Lemma collect_anchored (t : program) (m : registry) :
  collect t = Ok m -> anchored m.
Proof.
  intros H. eapply (collect_keeps t anchored); eauto.
  - intros. eapply visit_anchored; eauto.
  - constructor.
Qed.


(** ** The keys of the first step are governed blocks *)

Lemma Map_set_keys_In {V : Type} (m : list (blockpath * V)) (key : blockpath)
    (v : V) (c : blockpath) :
  In c (map fst (Map_set path_eqb m key v)) -> In c (map fst m) \/ c = key.
Proof.
  intros H. apply in_map_iff in H as [[k w] [<- Hin]].
  apply Map_set_In in Hin as [Hin|[-> _]]; [left | now right].
  now apply (in_map fst) in Hin.
Qed.

Lemma assert_true (b : bool) (msg : string) (u : unit) :
  assert b msg = Ok u -> b = true.
Proof. now destruct b. Qed.

Lemma visit_keys (t : program) (ok : bool) (cur : blockpath) (r : nat)
    (l : string) (m m' : registry) :
  visit_LabeledStatement t ok cur r l m = Ok m' ->
  forall c, In c (map fst m') ->
    In c (map fst m) \/ (String.eqb l "_StraitsProvider" = true /\ ok = true /\ c = cur).
Proof.
  unfold visit_LabeledStatement, defaultGet, TraitNamespace_new.
  destruct (String.eqb l "_StraitsProvider"); simpl;
    [|intros H; inversion H; subst; now left].
  intros H c Hc.
  destruct (Map_get path_eqb m cur) as [ns|] eqn:G; simpl in H; unbind;
    repeat match goal with
      | H : In _ (map fst (Map_set _ _ _ _)) |- _ =>
          apply Map_set_keys_In in H; destruct H
      | E : assert _ _ = Ok _ |- _ => apply assert_true in E
      end; auto.
Qed.

Lemma foldM_grows {S A : Type} (K : S -> list blockpath) (f : A -> S -> R S)
    (Q : A -> blockpath -> Prop) {l : list A} :
  Forall (fun x => forall s s', f x s = Ok s' ->
            forall c, In c (K s') -> In c (K s) \/ Q x c) l ->
  forall s s', foldM f l s = Ok s' ->
    forall c, In c (K s') -> In c (K s) \/ exists x, In x l /\ Q x c.
Proof.
  induction 1 as [|x l Hx _ IH]; simpl; intros s s' Hf c Hc.
  - inversion Hf; subst. now left.
  - unbind. destruct (IH _ _ Hf _ Hc) as [H1|[y [Hy HQ]]].
    + destruct (Hx _ _ E _ H1) as [H2|H2]; [now left|].
      right. exists x. auto.
    + right. exists y. auto.
Qed.

Lemma collect_keys_nodes (t : program) :
  (forall e cur m m', collect_e t cur e m = Ok m' ->
     forall c, In c (map fst m') -> In c (map fst m) \/ In c (governed_e cur e)) /\
  (forall s ok cur m m', collect_s t ok cur s m = Ok m' ->
     forall c, In c (map fst m') ->
       In c (map fst m) \/ (is_provider s = true /\ ok = true /\ c = cur)
       \/ In c (governed_s cur s)) /\
  (forall b cur m m', collect_b t cur b m = Ok m' ->
     forall c, In c (map fst m') -> In c (map fst m) \/ In c (governed_b cur b)).
Proof.
  apply node_ind; simpl; intros; unbind; auto;
    repeat match goal with
      | IH : (forall cur m m', collect_e t cur ?e m = Ok m' -> _),
        E : collect_e t _ ?e _ = Ok ?m2, Hc : In _ (map fst ?m2) |- _ =>
          let H := fresh "H" in
          destruct (IH _ _ _ E _ Hc) as [H|H]; clear E Hc
      | IH : (forall cur m m', collect_b t cur ?e m = Ok m' -> _),
        E : collect_b t _ ?e _ = Ok ?m2, Hc : In _ (map fst ?m2) |- _ =>
          let H := fresh "H" in
          destruct (IH _ _ _ E _ Hc) as [H|H]; clear E Hc
      | IH : (forall ok cur m m', collect_s t ok cur ?e m = Ok m' -> _),
        E : collect_s t _ _ ?e _ = Ok ?m2, Hc : In _ (map fst ?m2) |- _ =>
          let H := fresh "H" in
          destruct (IH _ _ _ _ E _ Hc) as [H|[(H & ? & ?)|H]]; clear E Hc
      | E : visit_LabeledStatement t _ _ _ _ _ = Ok ?m2, Hc : In _ (map fst ?m2) |- _ =>
          let H := fresh "H" in
          destruct (visit_keys _ _ _ _ _ _ _ E _ Hc) as [H|(H & ? & ?)]; clear E Hc
      | IH : Forall _ ?l, E : foldM (collect_e t ?cur) ?l _ = Ok ?m2,
        Hc : In _ (map fst ?m2) |- _ =>
          let H := fresh "H" in
          let HF := fresh "HF" in
          let x := fresh "x" in
          assert (HF : Forall (fun x => forall s s', collect_e t cur x s = Ok s' ->
                          forall c, In c (map fst s') ->
                            In c (map fst s) \/ In c (governed_e cur x)) l)
            by (eapply Forall_impl; [|exact IH]; simpl; intros; eauto);
          destruct (foldM_grows (fun m : registry => map fst m) _
                      (fun x c => In c (governed_e cur x)) HF _ _ E _ Hc)
            as [H|[x [? H]]]; clear E Hc IH HF
      | IH : Forall _ ?l, E : foldM (fun d => collect_e t ?cur (snd d)) ?l _ = Ok ?m2,
        Hc : In _ (map fst ?m2) |- _ =>
          let H := fresh "H" in
          let HF := fresh "HF" in
          let x := fresh "x" in
          assert (HF : Forall (fun d => forall s s', collect_e t cur (snd d) s = Ok s' ->
                          forall c, In c (map fst s') ->
                            In c (map fst s) \/ In c (governed_e cur (snd d))) l)
            by (eapply Forall_impl; [|exact IH]; simpl; intros; eauto);
          destruct (foldM_grows (fun m : registry => map fst m) _
                      (fun d c => In c (governed_e cur (snd d))) HF _ _ E _ Hc)
            as [H|[x [? H]]]; clear E Hc IH HF
      | IH : Forall _ ?l, E : foldM (collect_s t true ?cur) ?l _ = Ok ?m2,
        Hc : In _ (map fst ?m2) |- _ =>
          let H := fresh "H" in
          let HF := fresh "HF" in
          let x := fresh "x" in
          assert (HF : Forall (fun x => forall s s', collect_s t true cur x s = Ok s' ->
                          forall c, In c (map fst s') ->
                            In c (map fst s)
                            \/ ((is_provider x = true /\ c = cur)
                                \/ In c (governed_s cur x))) l)
            by (eapply Forall_impl; [|exact IH]; simpl;
                intros ? IH1 ? ? E1 ? Hc1;
                destruct (IH1 _ _ _ _ E1 _ Hc1) as [?|[(? & ? & ?)|?]]; auto);
          destruct (foldM_grows (fun m : registry => map fst m) _
                      (fun x c => (is_provider x = true /\ c = cur)
                                  \/ In c (governed_s cur x)) HF _ _ E _ Hc)
            as [H|[x [? [[? ?]|H]]]]; clear E Hc IH HF
      end;
    rewrite ?in_app_iff, ?in_flat_map; eauto 6; try discriminate.
  - right. left. subst.
    replace (governs ss) with true; [now left|].
    symmetry. apply existsb_exists. eauto.
Qed.

Lemma collect_keys_governed (t : program) (m : registry) :
  collect t = Ok m -> forall c, In c (map fst m) -> In c (governed t).
Proof.
  unfold collect, governed. intros H c Hc.
  assert (HF : Forall (fun x => forall s s', collect_s t true [] x s = Ok s' ->
                  forall c, In c (map fst s') ->
                    In c (map fst s)
                    \/ ((is_provider x = true /\ c = [])
                        \/ In c (governed_s [] x))) (program_body t)).
  { apply Forall_forall. intros s _ m1 m2 E c1 Hc1.
    destruct (proj1 (proj2 (collect_keys_nodes t)) _ _ _ _ _ E _ Hc1)
      as [?|[(? & ? & ?)|?]]; auto. }
  destruct (foldM_grows (fun m : registry => map fst m) _
              (fun x c => (is_provider x = true /\ c = [])
                          \/ In c (governed_s [] x)) HF _ _ H _ Hc)
    as [[]|[x [Hx [[Hp ->]|Hg]]]]; apply in_app_iff.
  - left. replace (governs (program_body t)) with true; [now left|].
    symmetry. apply existsb_exists. eauto.
  - right. apply in_flat_map. eauto.
Qed.



(** ** The second step keeps the keys and the anchors *)

Lemma same_shape_refl (m : registry) : same_shape m m.
Proof. now split. Qed.

Lemma same_shape_trans (m1 m2 m3 : registry) :
  same_shape m1 m2 -> same_shape m2 m3 -> same_shape m1 m3.
Proof. intros [H1 H2] [H3 H4]. split; [congruence | auto]. Qed.

(** Writing back a namespace that kept its paths. *)
Lemma same_shape_set (m : registry) (key : blockpath) (ns ns' : TraitNamespace) :
  Map_get path_eqb m key = Some ns ->
  path ns' = path ns -> blockPath ns' = blockPath ns ->
  same_shape m (Map_set path_eqb m key ns').
Proof.
  intros G Hp Hb. split.
  - apply Map_set_keys. eapply Map_get_key; eauto.
  - intros Hm. destruct (anchored_get Hm G). apply anchored_set; congruence.
Qed.

Lemma addProviders_shape (t : program) (key : blockpath) (ps : list NodePath)
    (m m' : registry) :
  addProviders t key ps m = Ok m' -> same_shape m m'.
Proof.
  unfold addProviders. intros H.
  eapply (foldM_keeps (fun x => same_shape m x)); [|exact H|apply same_shape_refl].
  apply Forall_forall. intros p _ s s' Hs Hshape.
  destruct (Map_get path_eqb s key) as [ns|] eqn:G; simpl in Hs; unbind; auto.
  fields. eapply same_shape_trans; [exact Hshape|].
  eapply same_shape_set; eauto.
Qed.

Lemma inherit_while_shape (t : program) (key parent : blockpath) (m m' : registry) :
  inherit_while t key parent m = Ok m' -> same_shape m m'.
Proof.
  revert m m'. induction parent as [|r up IH]; simpl; intros m m' H; unbind.
  - destruct (Map_get path_eqb m []); unbind;
      [eapply addProviders_shape; eauto | apply same_shape_refl].
  - eapply same_shape_trans; [|eapply IH; eauto].
    destruct (Map_get path_eqb m (r :: up)); unbind;
      [eapply addProviders_shape; eauto | apply same_shape_refl].
Qed.

Lemma inherit_shape (t : program) (m m' : registry) :
  inherit t m = Ok m' -> same_shape m m'.
Proof.
  unfold inherit. intros H.
  eapply (foldM_keeps (fun x => same_shape m x)); [|exact H|apply same_shape_refl].
  apply Forall_forall. intros key _ s s' Hs Hshape.
  eapply same_shape_trans; [exact Hshape|].
  destruct key; simpl in Hs; unbind;
    [apply same_shape_refl | eapply inherit_while_shape; eauto].
Qed.


(** ** Induction that also reaches the object of the object *)

Section Deep.
Variable Pe : expr -> Prop.
Variable Ps : stmt -> Prop.
Variable Pb : block -> Prop.

Hypothesis HIdentifier : forall n, Pe (Identifier n).
Hypothesis HThis : Pe ThisExpression.
Hypothesis HNumeric : forall n, Pe (NumericLiteral n).
Hypothesis HString : forall s, Pe (StringLiteral s).
Hypothesis HTemplate : forall qs es, Forall Pe es -> Pe (TemplateLiteral qs es).
Hypothesis HMember : forall x p,
  Pe x -> (forall o q, x = MemberExpression o q -> Pe o) -> Pe (MemberExpression x p).
Hypothesis HComputed : forall x y,
  Pe x -> (forall o q, x = MemberExpression o q -> Pe o) -> Pe y ->
  Pe (ComputedMemberExpression x y).
Hypothesis HCall : forall c args, Pe c -> Forall Pe args -> Pe (CallExpression c args).
Hypothesis HAssign : forall l r, Pe l -> Pe r -> Pe (AssignmentExpression l r).
Hypothesis HFunctionE : forall ps b, Pb b -> Pe (FunctionExpression ps b).
Hypothesis HExpression : forall e, Pe e -> Ps (ExpressionStatement e).
Hypothesis HLabeled : forall r l s, Ps s -> Ps (LabeledStatement r l s).
Hypothesis HBlockS : forall b, Pb b -> Ps (BlockStatement b).
Hypothesis HVariable : forall k ds,
  Forall (fun d => Pe (snd d)) ds -> Ps (VariableDeclaration k ds).
Hypothesis HFunctionD : forall i ps b, Pb b -> Ps (FunctionDeclaration i ps b).
Hypothesis HReturn : forall e, Pe e -> Ps (ReturnStatement e).
Hypothesis HIf : forall e s, Pe e -> Ps s -> Ps (IfStatement e s).
Hypothesis HGetSymbol : forall g, Ps (GetSymbolDeclaration g).
Hypothesis HBlock : forall r ss, Forall Ps ss -> Pb (Block r ss).

Lemma node_ind_deep :
  (forall e, Pe e) /\ (forall s, Ps s) /\ (forall b, Pb b).
Proof.
  assert (H : (forall e, Pe e /\ (forall o q, e = MemberExpression o q -> Pe o))
              /\ (forall s, Ps s) /\ (forall b, Pb b)).
  { apply node_ind; intros;
      repeat match goal with H : _ /\ _ |- _ => destruct H end;
      try (split; [|intros ? ? Heq; inversion Heq; subst; auto]); auto.
    - apply HTemplate. eapply Forall_impl; [|eassumption]. now intros ? [? _].
    - apply HCall; [assumption|].
      eapply Forall_impl; [|eassumption]. now intros ? [? _].
    - apply HVariable. eapply Forall_impl; [|eassumption]. now intros ? [? _]. }
  destruct H as (He & Hs & Hb). repeat split; auto. apply He.
Qed.
End Deep.


(** ** Maps of symbols *)

Lemma symbols_get_key (s : list (string * string)) (n id : string) :
  Map_get String.eqb s n = Some id -> Set_has String.eqb (map fst s) n = true.
Proof.
  unfold Set_has. induction s as [|[k v] s IH]; simpl; [discriminate|].
  rewrite (String.eqb_sym n k). destruct (String.eqb k n); simpl; auto.
Qed.

Lemma symbols_get_none (s : list (string * string)) (n : string) :
  Map_get String.eqb s n = None -> Set_has String.eqb (map fst s) n = false.
Proof.
  unfold Set_has. induction s as [|[k v] s IH]; simpl; [reflexivity|].
  rewrite (String.eqb_sym n k). destruct (String.eqb k n); simpl; [discriminate | auto].
Qed.

Lemma symbols_set_new (s : list (string * string)) (n id : string) :
  Map_get String.eqb s n = None -> Map_set String.eqb s n id = s ++ [(n, id)].
Proof.
  induction s as [|[k v] s IH]; simpl; [reflexivity|].
  destruct (String.eqb k n); [discriminate|]. intros H. now rewrite IH.
Qed.

Lemma symbols_get_app (s : list (string * string)) (n k v : string) :
  Map_get String.eqb (s ++ [(k, v)]) n =
    match Map_get String.eqb s n with
    | Some id => Some id
    | None => if String.eqb k n then Some v else None
    end.
Proof.
  induction s as [|[k0 v0] s IH]; simpl; [reflexivity|].
  destruct (String.eqb k0 n); [reflexivity | exact IH].
Qed.

Lemma extends_refl (a : list (string * string)) : extends a a.
Proof. now intros n id. Qed.

Lemma extends_trans (a b c : list (string * string)) :
  extends a b -> extends b c -> extends a c.
Proof. intros H1 H2 n id H. auto. Qed.

Lemma extends_symbol_of (a b : list (string * string)) (n id : string) :
  extends a b -> Map_get String.eqb a n = Some id -> symbol_of b n = id.
Proof. intros H G. unfold symbol_of. now rewrite (H _ _ G). Qed.

(** ** Steps of a namespace *)

Lemma absorb_app (seen a b : list string) :
  absorb seen (a ++ b) = absorb (absorb seen a) b.
Proof. unfold absorb. apply fold_left_app. Qed.

Lemma steps_refl (st : TraitNamespace * list string) : steps st [] st.
Proof. unfold steps. repeat split; auto using extends_refl. Qed.

Lemma steps_trans (st st1 st2 : TraitNamespace * list string) (a b : list string) :
  steps st a st1 -> steps st1 b st2 -> steps st (a ++ b) st2.
Proof.
  unfold steps. intros (H1 & H2 & H3 & H4 & H5) (G1 & G2 & G3 & G4 & G5).
  repeat split; try congruence.
  - now rewrite absorb_app, <- H4.
  - eapply extends_trans; eauto.
Qed.

Lemma steps_extends (st st' : TraitNamespace * list string) (names : list string) :
  steps st names st' -> extends (symbols (fst st)) (symbols (fst st')).
Proof. now intros (_ & _ & _ & _ & H). Qed.

Section Provide.
Variable generateUid : program -> list string -> string -> string.
Variable scope : program.

Lemma provideSymbol_steps (p id : string) (st st' : TraitNamespace * list string) :
  provideSymbol generateUid scope p st = (id, st') ->
  steps st [p] st' /\ Map_get String.eqb (symbols (fst st')) p = Some id.
Proof.
  unfold provideSymbol. destruct st as [ns uids].
  destruct (Map_get String.eqb (symbols ns) p) as [i|] eqn:G; intros H; inversion H; subst.
  - split; [|exact G]. unfold steps, absorb. simpl.
    rewrite (symbols_get_key _ _ _ G). repeat split. apply extends_refl.
  - unfold steps, absorb. simpl.
    rewrite (symbols_get_none _ _ G), (symbols_set_new _ _ (generateUid scope uids p) G).
    rewrite map_app. simpl. repeat split.
    + intros n i Hn. rewrite symbols_get_app. now rewrite Hn.
    + rewrite symbols_get_app, G. now rewrite String.eqb_refl.
Qed.

(** ** What the traversal of a namespace does *)

Lemma mapM_rw_ok {A B : Type}
    (f : A -> TraitNamespace * list string -> R (B * (TraitNamespace * list string)))
    (req : A -> list string) (pure : (string -> string) -> A -> B) (l : list A) :
  Forall (fun x => forall st y st', f x st = Ok (y, st') -> rw_ok req pure x st y st') l ->
  forall st ys st', mapM f l st = Ok (ys, st') ->
    rw_ok (flat_map req) (fun id => map (pure id)) l st ys st'.
Proof.
  induction 1 as [|x l Hx _ IH]; simpl; intros st ys st' Hm; unbind.
  - split; [apply steps_refl | reflexivity].
  - destruct (Hx _ _ _ E) as [S1 P1]. destruct (IH _ _ _ E0) as [S2 P2].
    split; [eapply steps_trans; eauto|].
    intros sigma Hs. simpl. f_equal; [|now apply P2].
    apply P1. eapply extends_trans; [|exact Hs]. eapply steps_extends; eauto.
Qed.

End Provide.


Section Rewriting.
Variable generateUid : program -> list string -> string -> string.
Variable scope : program.
Variable m : registry.

Ltac use_IH :=
  repeat match goal with
    | IH : (forall cur st e' st', rw_e generateUid scope m cur ?e st = Ok (e', st') -> _),
      E : rw_e generateUid scope m _ ?e _ = Ok (_, _) |- _ =>
        apply IH in E; destruct E as [? ?]
    | IH : (forall cur st e' st', rw_s generateUid scope m cur ?e st = Ok (e', st') -> _),
      E : rw_s generateUid scope m _ ?e _ = Ok (_, _) |- _ =>
        apply IH in E; destruct E as [? ?]
    | IH : (forall cur st e' st', rw_b generateUid scope m cur ?e st = Ok (e', st') -> _),
      E : rw_b generateUid scope m _ ?e _ = Ok (_, _) |- _ =>
        apply IH in E; destruct E as [? ?]
    end.

Ltac chain :=
  eauto using steps_refl, steps_trans, extends_trans, steps_extends.

Lemma access_or_not (x : expr) :
  (exists o, x = MemberExpression o "_Straits")
  \/ (forall o, x <> MemberExpression o "_Straits").
Proof.
  destruct x as [?| |?|?|? ?|o q|? ?|? ?|? ?|? ?]; try (right; discriminate).
  destruct (String.eqb q "_Straits") eqn:Q.
  - apply String.eqb_eq in Q. subst. left. now exists o.
  - right. intros o' H. inversion H; subst. now rewrite String.eqb_refl in Q.
Qed.

Ltac elsewhere x :=
  destruct x as [?| |?|?|? ?|?o ?q|? ?|? ?|? ?|? ?]; try reflexivity;
  simpl;
  match goal with
  | H : forall o, MemberExpression _ ?q <> _ |- _ =>
      destruct (String.eqb q "_Straits") eqn:Q; [|reflexivity];
      apply String.eqb_eq in Q; subst; exfalso; eapply H; reflexivity
  end.

Lemma rw_member_elsewhere (x : expr) (p : string) (cur : blockpath)
    (st : TraitNamespace * list string) :
  (forall o, x <> MemberExpression o "_Straits") ->
  rw_e generateUid scope m cur (MemberExpression x p) st =
    ('(x', st') <- rw_e generateUid scope m cur x st ;;
     _ <- visit_Identifier p ;;
     Ok (MemberExpression x' p, st')).
Proof. intros H. elsewhere x. Qed.

Lemma rw_computed_elsewhere (x y : expr) (cur : blockpath)
    (st : TraitNamespace * list string) :
  (forall o, x <> MemberExpression o "_Straits") ->
  rw_e generateUid scope m cur (ComputedMemberExpression x y) st =
    ('(x', st') <- rw_e generateUid scope m cur x st ;;
     '(y', st'') <- rw_e generateUid scope m cur y st' ;;
     Ok (ComputedMemberExpression x' y', st'')).
Proof. intros H. elsewhere x. Qed.

Lemma requested_member_elsewhere (x : expr) (p : string) (cur : blockpath) :
  (forall o, x <> MemberExpression o "_Straits") ->
  requested_e m cur (MemberExpression x p) = requested_e m cur x.
Proof. intros H. elsewhere x. Qed.

Lemma requested_computed_elsewhere (x y : expr) (cur : blockpath) :
  (forall o, x <> MemberExpression o "_Straits") ->
  requested_e m cur (ComputedMemberExpression x y)
    = requested_e m cur x ++ requested_e m cur y.
Proof. intros H. elsewhere x. Qed.

Lemma dispatch_member_elsewhere (id : string -> string) (x : expr) (p : string)
    (cur : blockpath) :
  (forall o, x <> MemberExpression o "_Straits") ->
  dispatch_e id m cur (MemberExpression x p)
    = MemberExpression (dispatch_e id m cur x) p.
Proof. intros H. elsewhere x. Qed.

Lemma dispatch_computed_elsewhere (id : string -> string) (x y : expr)
    (cur : blockpath) :
  (forall o, x <> MemberExpression o "_Straits") ->
  dispatch_e id m cur (ComputedMemberExpression x y)
    = ComputedMemberExpression (dispatch_e id m cur x) (dispatch_e id m cur y).
Proof. intros H. elsewhere x. Qed.

Lemma rw_nodes :
  (forall e cur st e' st', rw_e generateUid scope m cur e st = Ok (e', st') ->
     rw_ok (requested_e m cur) (fun id => dispatch_e id m cur) e st e' st') /\
  (forall s cur st s' st', rw_s generateUid scope m cur s st = Ok (s', st') ->
     rw_ok (requested_s m cur) (fun id => dispatch_s id m cur) s st s' st') /\
  (forall b cur st b' st', rw_b generateUid scope m cur b st = Ok (b', st') ->
     rw_ok (requested_b m cur) (fun id => dispatch_b id m cur) b st b' st').
Proof.
  apply node_ind_deep; intros.
  all: try (simpl in *; unbind; use_IH; split;
            [chain; fail | intros sigma Hs; simpl; f_equal; chain; fail]).
  - (* TemplateLiteral *)
    simpl in *. unbind.
    apply (mapM_rw_ok _ (requested_e m cur) (fun id => dispatch_e id m cur)) in E;
      [|eapply Forall_impl; [|eassumption]; simpl; intros; eauto].
    destruct E as [S1 P1]. split; [exact S1|].
    intros sigma Hs. simpl. f_equal. now apply P1.
  - (* MemberExpression *)
    match goal with
    | Hd : (forall o q, _ = MemberExpression o q -> _),
      Hr : rw_e _ _ _ _ _ _ = Ok _ |- _ => rename Hd into IHo; rename Hr into Hrw
    end.
    destruct (access_or_not x) as [[o ->]|Hx].
    + simpl in Hrw.
      destruct (rw_e generateUid scope m cur o st) as [[o' st1]|] eqn:E;
        simpl in Hrw; [|discriminate].
      apply (IHo _ _ eq_refl) in E. destruct E as [S1 P1].
      destruct (provideSymbol generateUid scope p st1) as [id st2] eqn:Ep.
      simpl in Hrw. bind_ok Hrw. bind_ok Hrw. inversion Hrw; subst; clear Hrw.
      apply provideSymbol_steps in Ep as [S2 G2].
      split; simpl; [chain|].
      intros sigma Hs. f_equal.
      * apply P1. chain.
      * f_equal. symmetry. eapply extends_symbol_of; eauto.
    + rewrite rw_member_elsewhere in Hrw by assumption. unbind. use_IH.
      split; [rewrite requested_member_elsewhere by assumption; chain|].
      intros sigma Hs. rewrite dispatch_member_elsewhere by assumption.
      f_equal. chain.
  - (* ComputedMemberExpression *)
    match goal with
    | Hd : (forall o q, _ = MemberExpression o q -> _),
      Hr : rw_e _ _ _ _ _ _ = Ok _ |- _ => rename Hd into IHo; rename Hr into Hrw
    end.
    destruct (access_or_not x) as [[o ->]|Hx].
    + simpl in Hrw. unbind. apply (IHo _ _ eq_refl) in E. destruct E as [S1 P1].
      use_IH. split; simpl; [chain|].
      intros sigma Hs. f_equal; chain.
    + rewrite rw_computed_elsewhere in Hrw by assumption. unbind. use_IH.
      split; [rewrite requested_computed_elsewhere by assumption; chain|].
      intros sigma Hs. rewrite dispatch_computed_elsewhere by assumption.
      f_equal; chain.
  - (* CallExpression *)
    simpl in *. unbind. use_IH.
    apply (mapM_rw_ok _ (requested_e m cur) (fun id => dispatch_e id m cur)) in E0;
      [|eapply Forall_impl; [|eassumption]; simpl; intros; eauto].
    destruct E0 as [S1 P1]. split; [chain|].
    intros sigma Hs. simpl. f_equal; chain.
  - (* VariableDeclaration *)
    simpl in *. unbind.
    apply (mapM_rw_ok _ (fun d => requested_e m cur (snd d))
             (fun id d => (fst d, dispatch_e id m cur (snd d)))) in E.
    + destruct E as [S1 P1]. split; [exact S1|].
      intros sigma Hs. simpl. f_equal. now apply P1.
    + eapply Forall_impl; [|eassumption]. simpl. intros d IH st0 y st1 Hd.
      unbind.
      match goal with
      | E : rw_e _ _ _ _ _ _ = Ok _ |- _ => apply IH in E; destruct E as [S1 P1]
      end.
      split; [exact S1|].
      intros sigma Hs. f_equal. now apply P1.
  - (* Block *)
    unfold rw_ok. simpl in *. destruct (Map_has path_eqb m (r :: cur)) eqn:Hh.
    + unbind. split; [apply steps_refl | reflexivity].
    + unbind.
      apply (mapM_rw_ok _ (requested_s m (r :: cur))
               (fun id => dispatch_s id m (r :: cur))) in E;
        [|eapply Forall_impl; [|eassumption]; simpl; intros; eauto].
      destruct E as [S1 P1]. split; [exact S1|].
      intros sigma Hs. simpl. f_equal. now apply P1.
Qed.

End Rewriting.


(** ** The third step and the emission keep what is exposed *)

Lemma rewrite_one_keeps (generateUid : program -> list string -> string -> string)
    (scope : program) (key : blockpath) (t t' : program) (m m' : registry)
    (uids uids' : list string) :
  rewrite_one generateUid scope key (t, m, uids) = Ok (t', m', uids') ->
  same_shape m m' /\ exposed (map fst m) t' = exposed (map fst m) t.
Proof.
  unfold rewrite_one.
  destruct (Map_get path_eqb m key) as [ns|] eqn:G;
    [|intros H; inversion H; subst; split; [apply same_shape_refl | reflexivity]].
  destruct (get_block key t) as [ss|];
    [|intros H; inversion H; subst; split; [apply same_shape_refl | reflexivity]].
  intros H. unbind.
  apply (mapM_rw_ok _ (requested_s m key) (fun id => dispatch_s id m key)) in E;
    [|apply Forall_forall; intros s _ st y st' Hs;
      eapply (proj1 (proj2 (rw_nodes generateUid scope m))); eauto].
  destruct E as [(Hp & Hb & _) _]. simpl in *. split.
  - eapply same_shape_set; eauto.
  - apply exposed_set_block. eapply Map_get_key; eauto.
Qed.

Lemma rewrite_all_keeps (generateUid : program -> list string -> string -> string)
    (scope : program) (t t' : program) (m m' : registry)
    (uids uids' : list string) :
  rewrite_all generateUid scope t m uids = Ok (t', m', uids') ->
  same_shape m m' /\ exposed (map fst m) t' = exposed (map fst m) t.
Proof.
  unfold rewrite_all. intros H.
  apply (foldM_keeps
           (fun acc : program * registry * list string =>
              same_shape m (snd (fst acc))
              /\ exposed (map fst m) (fst (fst acc)) = exposed (map fst m) t))
    in H; simpl in *; auto using same_shape_refl.
  apply Forall_forall. intros key _ [[t1 m1] u1] [[t2 m2] u2] Hs [Hshape Hexp].
  simpl in *. apply rewrite_one_keeps in Hs as [Hs1 Hs2]. split.
  - eapply same_shape_trans; eauto.
  - destruct Hshape as [Hk _]. rewrite Hk in Hs2. congruence.
Qed.

Lemma anchor_key (m : registry) (ns : TraitNamespace) :
  anchored m -> In ns (map snd m) -> In (parentPath (path ns)) (map fst m).
Proof.
  unfold anchored. rewrite Forall_forall. intros Hm Hin.
  apply in_map_iff in Hin as [[k w] [<- Hin]].
  destruct (Hm _ Hin) as [-> _]. now apply (in_map fst) in Hin.
Qed.

Lemma exposed_finalize (keys : list blockpath) (g : string) (t : program)
    (ns : TraitNamespace) :
  In (parentPath (path ns)) keys ->
  exposed keys (finalize g t ns) = exposed keys t.
Proof.
  intros Hin. unfold finalize, insertBefore.
  destruct (Nat.eqb _ 0); [reflexivity|].
  destruct (get_block _ t); [|reflexivity].
  now apply exposed_set_block.
Qed.

Lemma exposed_remove (keys : list blockpath) (t : program) (ns : TraitNamespace) :
  In (parentPath (path ns)) keys ->
  exposed keys (remove t ns) = exposed keys t.
Proof.
  intros Hin. unfold remove, path_remove.
  destruct (get_block _ t); [|reflexivity].
  now apply exposed_set_block.
Qed.

Lemma exposed_fold (keys : list blockpath) (f : program -> TraitNamespace -> program)
    (l : list TraitNamespace) (t : program) :
  (forall t ns, In ns l -> exposed keys (f t ns) = exposed keys t) ->
  exposed keys (fold_left f l t) = exposed keys t.
Proof.
  revert t. induction l as [|ns l IH]; simpl; intros t H; [reflexivity|].
  rewrite IH; auto.
Qed.

(** C1: when the pass returns a tree, no identifier of the reserved
    placeholder name is left in it; and a unit that holds a marker outside
    of every block (and of the program) holding a provider statement is
    refused: the pass throws while compiling. *)
Theorem no_marker_survives
    (generateUid : program -> list string -> string -> string) (t : program) :
  (forall t', Program_visitor generateUid t = Ok t' -> markers t' = []) /\
  (ungoverned_marker t = true ->
     exists e, Program_visitor generateUid t = Throw e).
Proof.
  split.
  - intros t' H. apply visitor_checked in H. apply finalCheck_Ok in H.
    unfold markers. destruct (filter is_marker (identifiers t')) as [|n l] eqn:F;
      [reflexivity|].
    exfalso. apply H. assert (Hn : In n (n :: l)) by now left.
    rewrite <- F in Hn. apply filter_In in Hn as [Hin Hm].
    unfold is_marker in Hm. apply String.eqb_eq in Hm. now subst.
  - unfold ungoverned_marker. intros Hexp.
    destruct (Program_visitor generateUid t) as [t'|e] eqn:HP; [|now exists e].
    exfalso. unfold Program_visitor in HP.
    destruct (collect t) as [m|] eqn:Hc; simpl in HP; [|discriminate].
    assert (Hk : exposed (map fst m) t = true).
    { eapply exposed_fewer; [|exact Hexp].
      intros c Hin. eapply collect_keys_governed; eauto. }
    destruct (Nat.eqb (List.length m) 0).
    + apply exposed_marker in Hk. apply finalCheck_Throw in Hk.
      rewrite Hk in HP. discriminate.
    + destruct (inherit _ m) as [m2|] eqn:Hi; simpl in HP; [|discriminate].
      destruct (rewrite_all _ _ _ _ _) as [[[t3 m3] uids]|] eqn:Hr;
        simpl in HP; [|discriminate].
      apply inherit_shape in Hi as [Hk2 Ha2].
      apply rewrite_all_keeps in Hr as [[Hk3 Ha3] He3].
      pose proof (collect_anchored _ _ Hc) as Ha.
      assert (Ha' : anchored m3) by auto.
      assert (HK : map fst m3 = map fst m) by congruence.
      match type of HP with
      | context [finalCheck ?x] =>
          assert (Hfin : exposed (map fst m) x = true)
      end.
      { rewrite exposed_clean.
        rewrite exposed_fold
          by (intros; apply exposed_remove; rewrite <- HK; now apply anchor_key).
        rewrite exposed_fold
          by (intros; apply exposed_finalize; rewrite <- HK; now apply anchor_key).
        rewrite <- Hk2, He3, Hk2. now apply exposed_unshift. }
      apply exposed_marker in Hfin. apply finalCheck_Throw in Hfin.
      rewrite Hfin in HP. discriminate.
Qed.

Lemma no_marker_survives_witness :
  markers Samples.nested_output = []
  /\ exists e, Program_visitor Samples.sample_generateUid Samples.inner_only = Throw e.
Proof.
  split.
  - apply (proj1 (no_marker_survives Samples.sample_generateUid Samples.nested)).
    reflexivity.
  - apply (proj2 (no_marker_survives Samples.sample_generateUid Samples.inner_only)).
    reflexivity.
Defined.


(** ** Where there is no marker the traversal changes nothing *)

Lemma mapM_idle {S A : Type} (f : A -> S -> R (A * S)) (l : list A) (s : S) :
  Forall (fun x => f x s = Ok (x, s)) l -> mapM f l s = Ok (l, s).
Proof.
  induction 1 as [|x l Hx _ IH]; simpl; [reflexivity|].
  rewrite Hx. simpl. rewrite IH. reflexivity.
Qed.

Lemma existsb_flat_map_false {A : Type} (ids : A -> list string) (l : list A) :
  existsb is_marker (flat_map ids l) = false ->
  Forall (fun x => existsb is_marker (ids x) = false) l.
Proof.
  induction l as [|x l IH]; simpl; intros H; constructor;
    rewrite existsb_app in H; apply orb_false_iff in H as [H1 H2]; auto.
Qed.

Lemma visit_Identifier_other (n : string) :
  is_marker n = false -> visit_Identifier n = Ok tt.
Proof. unfold is_marker, visit_Identifier. now intros ->. Qed.

Lemma visit_Identifiers_other (ps : list string) :
  existsb is_marker ps = false -> visit_Identifiers ps = Ok tt.
Proof.
  unfold visit_Identifiers. induction ps as [|n ps IH]; simpl; [reflexivity|].
  intros H. apply orb_false_iff in H as [H1 H2].
  rewrite (visit_Identifier_other _ H1). simpl. auto.
Qed.

Lemma marker_free_object (x : expr) :
  existsb is_marker (identifiers_e x) = false ->
  forall o, x <> MemberExpression o "_Straits".
Proof.
  intros H o ->. simpl in H. rewrite existsb_app in H.
  apply orb_false_iff in H as [_ H]. discriminate.
Qed.

Section Idle.
Variable generateUid : program -> list string -> string -> string.
Variable scope : program.
Variable m : registry.

Ltac split_markers :=
  repeat match goal with
    | H : existsb is_marker (_ ++ _) = false |- _ =>
        rewrite existsb_app in H; apply orb_false_iff in H; destruct H
    | H : existsb is_marker (_ :: _) = false |- _ =>
        simpl in H; apply orb_false_iff in H; destruct H
    | H : _ || _ = false |- _ => apply orb_false_iff in H; destruct H
    end.

Lemma rw_idle_nodes :
  (forall e, existsb is_marker (identifiers_e e) = false ->
     forall cur st, rw_e generateUid scope m cur e st = Ok (e, st)) /\
  (forall s, existsb is_marker (identifiers_s s) = false ->
     forall cur st, rw_s generateUid scope m cur s st = Ok (s, st)) /\
  (forall b, existsb is_marker (identifiers_b b) = false ->
     forall cur st, rw_b generateUid scope m cur b st = Ok (b, st)).
Proof.
  apply node_ind; intros.
  all: try (simpl in *; split_markers;
            repeat match goal with
              | IH : existsb is_marker ?l = false -> _,
                H : existsb is_marker ?l = false |- _ =>
                  specialize (IH H)
              end;
            repeat match goal with
              | IH : forall cur st, _ = Ok _ |- _ => rewrite IH; simpl
              | H : is_marker _ = false |- _ =>
                  rewrite (visit_Identifier_other _ H); simpl; clear H
              | H : existsb is_marker _ = false |- _ =>
                  rewrite (visit_Identifiers_other _ H); simpl; clear H
              end;
            reflexivity).
  - (* TemplateLiteral *)
    simpl in *. apply existsb_flat_map_false in H0.
    rewrite mapM_idle; [reflexivity|].
    eapply Forall_impl; [|exact (Forall_modus H H0)]. simpl; auto.
  - (* MemberExpression *)
    simpl in H0. split_markers.
    rewrite rw_member_elsewhere by (apply marker_free_object; assumption).
    rewrite H by assumption. simpl.
    now rewrite visit_Identifier_other.
  - (* ComputedMemberExpression *)
    simpl in H1. split_markers.
    rewrite rw_computed_elsewhere by (apply marker_free_object; assumption).
    rewrite H by assumption. simpl. rewrite H0 by assumption. reflexivity.
  - (* CallExpression *)
    simpl in *. split_markers. apply existsb_flat_map_false in H2.
    rewrite H by assumption. simpl.
    rewrite mapM_idle; [reflexivity|].
    eapply Forall_impl; [|exact (Forall_modus H0 H2)]. simpl; auto.
  - (* VariableDeclaration *)
    simpl in *.
    apply (existsb_flat_map_false (fun d => fst d :: identifiers_e (snd d))) in H0.
    rewrite mapM_idle; [reflexivity|].
    pose proof (Forall_and H H0) as HH.
    eapply Forall_impl; [|exact HH]. simpl. intros d [IH Hd].
    split_markers. rewrite visit_Identifier_other by assumption. simpl.
    rewrite IH by assumption. simpl. now destruct d.
  - (* Block *)
    simpl in *. destruct (Map_has path_eqb m (r :: cur)); [reflexivity|].
    apply existsb_flat_map_false in H0.
    rewrite mapM_idle; [reflexivity|].
    eapply Forall_impl; [|exact (Forall_modus H H0)]. simpl; auto.
Qed.

End Idle.


(** ** The computed access *)

(** C7: on a trait access whose outer member access is computed,
    [o.*[y]], the visitor visits [o], puts [o] in the place of
    [o._Straits], then visits [y]: the construct becomes the plain access
    [o[y]]; the visitor asks the namespace for no symbol and throws
    nothing of its own, so that with no marker left in [o] and [y] the
    result is [o[y]] and the state is unchanged. *)
Theorem computed_access_is_plain
    (generateUid : program -> list string -> string -> string)
    (scope : program) (m : registry) (cur : blockpath) (o y : expr)
    (st : TraitNamespace * list string) :
  rw_e generateUid scope m cur
      (ComputedMemberExpression (MemberExpression o "_Straits") y) st
    = ('(o', st1) <- rw_e generateUid scope m cur o st ;;
       '(y', st2) <- rw_e generateUid scope m cur y st1 ;;
       Ok (ComputedMemberExpression o' y', st2))
  /\ requested_e m cur (ComputedMemberExpression (MemberExpression o "_Straits") y)
     = requested_e m cur o ++ requested_e m cur y
  /\ (existsb is_marker (identifiers_e o) = false ->
      existsb is_marker (identifiers_e y) = false ->
      rw_e generateUid scope m cur
          (ComputedMemberExpression (MemberExpression o "_Straits") y) st
        = Ok (ComputedMemberExpression o y, st)).
Proof.
  repeat split.
  intros Ho Hy. simpl.
  rewrite (proj1 (rw_idle_nodes generateUid scope m) _ Ho). simpl.
  rewrite (proj1 (rw_idle_nodes generateUid scope m) _ Hy). reflexivity.
Qed.

Lemma computed_access_is_plain_witness :
  rw_e Samples.sample_generateUid Samples.nested [] [10]
      (ComputedMemberExpression (MemberExpression (Identifier "y") "_Straits")
         (StringLiteral "k"))
      (mkTraitNamespace (mkNodePath 2 [10]) [10] [] [], [])
    = Ok (ComputedMemberExpression (Identifier "y") (StringLiteral "k"),
          (mkTraitNamespace (mkNodePath 2 [10]) [10] [] [], [])).
Proof.
  apply (computed_access_is_plain Samples.sample_generateUid Samples.nested [] [10]
           (Identifier "y") (StringLiteral "k")); reflexivity.
Defined.

(** ** The names a traversal takes in *)

Lemma string_Set_has_In (l : list string) (n : string) :
  Set_has String.eqb l n = true <-> In n l.
Proof.
  unfold Set_has. rewrite existsb_exists. split.
  - intros [k [Hin Hk]]. apply String.eqb_eq in Hk. now subst.
  - intros Hin. exists n. split; [assumption | apply String.eqb_refl].
Qed.

Lemma absorb_In (names seen : list string) (n : string) :
  In n (absorb seen names) <-> In n seen \/ In n names.
Proof.
  unfold absorb. revert seen. induction names as [|k names IH]; intros seen; simpl.
  - tauto.
  - rewrite IH. destruct (Set_has String.eqb seen k) eqn:E.
    + apply string_Set_has_In in E. intuition (subst; auto).
    + rewrite in_app_iff. simpl. intuition.
Qed.

Lemma absorb_NoDup (names seen : list string) :
  NoDup seen -> NoDup (absorb seen names).
Proof.
  unfold absorb. revert seen. induction names as [|k names IH]; intros seen H; simpl.
  - assumption.
  - apply IH. destruct (Set_has String.eqb seen k) eqn:E; [assumption|].
    apply NoDup_app; [assumption | repeat constructor; auto |].
    intros x Hx [<-|[]]. apply string_Set_has_In in Hx. congruence.
Qed.

(** ** The second step: the providers of the namespaces above *)

Lemma NodePath_eqb_eq (p q : NodePath) : NodePath_eqb p q = true <-> p = q.
Proof.
  unfold NodePath_eqb. rewrite andb_true_iff, Nat.eqb_eq, path_eqb_eq.
  destruct p, q; simpl. split.
  - now intros [-> ->].
  - intros H. now inversion H.
Qed.

Lemma Set_add_In (l : list NodePath) (x p : NodePath) :
  In p (Set_add NodePath_eqb l x) <-> In p l \/ p = x.
Proof.
  unfold Set_add. destruct (Set_has NodePath_eqb l x) eqn:E.
  - unfold Set_has in E. apply existsb_exists in E as [y [Hy Hxy]].
    apply NodePath_eqb_eq in Hxy. subst y. intuition (subst; auto).
  - rewrite in_app_iff. simpl. intuition.
Qed.

Lemma providers_at_set (m : registry) (key k : blockpath) (ns : TraitNamespace) :
  providers_at (Map_set path_eqb m key ns) k =
    if path_eqb key k then providers ns else providers_at m k.
Proof.
  unfold providers_at. rewrite Map_get_set. now destruct (path_eqb key k).
Qed.

(** What [addProviders] leaves at the keys. *)
Lemma addProviders_at (t : program) (key : blockpath) (ps : list NodePath)
    (m m' : registry) :
  addProviders t key ps m = Ok m' ->
  Map_get path_eqb m key <> None ->
  (forall k, k <> key -> providers_at m' k = providers_at m k)
  /\ (forall p, In p (providers_at m' key) <-> In p (providers_at m key) \/ In p ps)
  /\ Map_get path_eqb m' key <> None.
Proof.
  unfold addProviders. revert m. induction ps as [|x ps IH]; simpl; intros m H Hk.
  - inversion H; subst. repeat split; auto; tauto.
  - destruct (Map_get path_eqb m key) as [ns|] eqn:G; [|congruence].
    destruct (addProvider t ns x) as [t0|] eqn:Ea; simpl in H; [|discriminate].
    apply addProvider_fields in Ea as (_ & _ & _ & Hq).
    assert (G' : Map_get path_eqb (Map_set path_eqb m key t0) key <> None).
    { rewrite Map_get_set, path_eqb_refl. discriminate. }
    destruct (IH _ H G') as (H1 & H2 & H3). repeat split; auto.
    + intros k Hne. rewrite H1 by assumption. rewrite providers_at_set.
      destruct (path_eqb key k) eqn:Q; [|reflexivity].
      apply path_eqb_eq in Q. congruence.
    + intros Hp. apply H2 in Hp. rewrite providers_at_set, path_eqb_refl in Hp.
      unfold providers_at. rewrite G.
      destruct Hp as [Hp|Hp]; [|auto].
      rewrite Hq in Hp.
      apply Set_add_In in Hp. intuition.
    + intros Hp. apply H2. rewrite providers_at_set, path_eqb_refl.
      unfold providers_at in Hp. rewrite G in Hp.
      rewrite Hq.
      rewrite Set_add_In. intuition.
Qed.

Lemma around_nil (a : blockpath) : around a [] <-> a = [].
Proof.
  split.
  - intros [pre H]. symmetry in H. now apply app_eq_nil in H as [_ ->].
  - intros ->. now exists [].
Qed.

Lemma around_cons (a : blockpath) (r : nat) (up : blockpath) :
  around a (r :: up) <-> a = r :: up \/ around a up.
Proof.
  split.
  - intros [[|x pre] H]; simpl in H.
    + now left.
    + inversion H; subst. right. now exists pre.
  - intros [->|[pre ->]]; [now exists [] | now exists (r :: pre)].
Qed.

Lemma around_length (a k : blockpath) :
  around a k -> List.length a <= List.length k.
Proof. intros [pre ->]. rewrite length_app. lia. Qed.

Lemma above_cons (a : blockpath) (r : nat) (up : blockpath) :
  above a (r :: up) <-> around a up.
Proof.
  split.
  - intros [[|x pre] [Hne H]]; [congruence|].
    simpl in H. inversion H; subst. now exists pre.
  - intros [pre ->]. exists (r :: pre). split; [discriminate | reflexivity].
Qed.

Lemma above_nil (a : blockpath) : ~ above a [].
Proof.
  intros [pre [Hne H]]. symmetry in H. apply app_eq_nil in H as [-> _]. congruence.
Qed.

Lemma above_trans (a b c : blockpath) : above a b -> above b c -> above a c.
Proof.
  intros [p1 [H1 ->]] [p2 [H2 ->]]. exists (p2 ++ p1). split.
  - destruct p2; [congruence | discriminate].
  - now rewrite app_assoc.
Qed.

Lemma inherit_while_at (t : program) (key parent : blockpath) (m m' : registry) :
  inherit_while t key parent m = Ok m' ->
  Map_get path_eqb m key <> None ->
  List.length parent < List.length key ->
  (forall k, k <> key -> providers_at m' k = providers_at m k)
  /\ (forall p, In p (providers_at m' key)
                <-> In p (providers_at m key)
                    \/ exists a, around a parent /\ In p (providers_at m a))
  /\ Map_get path_eqb m' key <> None.
Proof.
  revert m. induction parent as [|r up IH]; intros m H Hk Hlen.
  - simpl in H. unfold bind in H.
    assert (Hb : exists m1,
               (forall k, k <> key -> providers_at m1 k = providers_at m k)
               /\ (forall p, In p (providers_at m1 key)
                      <-> In p (providers_at m key) \/ In p (providers_at m []))
               /\ Map_get path_eqb m1 key <> None /\ m' = m1).
    { destruct (Map_get path_eqb m []) as [ab|] eqn:G.
      - assert (Hpa : providers_at m [] = providers ab)
          by (unfold providers_at; now rewrite G).
        destruct (addProviders t key (providers ab) m) as [m1|] eqn:E; [|discriminate].
        inversion H; subst. exists m'. rewrite Hpa.
        destruct (addProviders_at _ _ _ _ _ E Hk) as (H1 & H2 & H3).
        repeat split; auto; apply H2.
      - assert (Hpa : providers_at m [] = [])
          by (unfold providers_at; now rewrite G).
        inversion H; subst. exists m'. rewrite Hpa.
        repeat split; auto; simpl; tauto. }
    destruct Hb as (m1 & H1 & H2 & H3 & ->). repeat split; auto.
    + intros Hp. apply H2 in Hp as [Hp|Hp]; [now left|].
      right. exists []. split; [now apply around_nil | assumption].
    + intros [Hp|[a [Ha Hp]]]; apply H2; [now left|].
      apply around_nil in Ha. subst. now right.
  - simpl in H.
    assert (Hb : exists m1,
               (forall k, k <> key -> providers_at m1 k = providers_at m k)
               /\ (forall p, In p (providers_at m1 key)
                      <-> In p (providers_at m key) \/ In p (providers_at m (r :: up)))
               /\ Map_get path_eqb m1 key <> None
               /\ inherit_while t key up m1 = Ok m').
    { destruct (Map_get path_eqb m (r :: up)) as [ab|] eqn:G.
      - assert (Hpa : providers_at m (r :: up) = providers ab)
          by (unfold providers_at; now rewrite G).
        destruct (addProviders t key (providers ab) m) as [m1|] eqn:E;
          simpl in H; [|discriminate].
        exists m1. rewrite Hpa.
        destruct (addProviders_at _ _ _ _ _ E Hk) as (H1 & H2 & H3).
        repeat split; auto; apply H2.
      - assert (Hpa : providers_at m (r :: up) = [])
          by (unfold providers_at; now rewrite G).
        simpl in H. exists m. rewrite Hpa.
        repeat split; auto; simpl; tauto. }
    destruct Hb as (m1 & H1 & H2 & H3 & H4).
    simpl in Hlen.
    destruct (IH _ H4 H3 ltac:(lia)) as (G1 & G2 & G3).
    assert (Hneq : forall a, around a (r :: up) -> a <> key).
    { intros a Ha ->. apply around_length in Ha. simpl in Ha. lia. }
    repeat split; auto.
    + intros k Hne. rewrite G1, H1; auto.
    + intros Hp. apply G2 in Hp as [Hp|[a [Ha Hp]]].
      * apply H2 in Hp as [Hp|Hp]; [now left|].
        right. exists (r :: up). split; [apply around_cons; now left | assumption].
      * right. exists a. split; [apply around_cons; now right|].
        rewrite <- H1; [assumption|]. apply Hneq. apply around_cons. now right.
    + intros [Hp|[a [Ha Hp]]]; apply G2.
      * left. apply H2. now left.
      * apply around_cons in Ha as [->|Ha].
        -- left. apply H2. now right.
        -- right. exists a. split; [assumption|].
           rewrite H1; [assumption|]. apply Hneq. apply around_cons. now right.
Qed.


Lemma Map_get_None_iff {V : Type} (m : list (blockpath * V)) (key : blockpath) :
  Map_get path_eqb m key = None <-> ~ In key (map fst m).
Proof.
  split; [apply Map_get_None|].
  intros H. destruct (Map_get path_eqb m key) eqn:G; [|reflexivity].
  apply Map_get_key in G. contradiction.
Qed.

Lemma inherit_one_at (t : program) (key : blockpath) (m m' : registry) :
  inherit_one t key m = Ok m' ->
  Map_get path_eqb m key <> None ->
  (forall k, k <> key -> providers_at m' k = providers_at m k)
  /\ (forall p, In p (providers_at m' key)
               <-> In p (providers_at m key)
                   \/ exists a, above a key /\ In p (providers_at m a))
  /\ map fst m' = map fst m.
Proof.
  intros H Hk. destruct key as [|r parent]; simpl in H.
  - inversion H; subst. repeat split; auto.
    intros [Hp|[a [Ha _]]]; [assumption | now apply above_nil in Ha].
  - pose proof (inherit_while_shape _ _ _ _ _ H) as [Hkeys _].
    destruct (inherit_while_at _ _ _ _ _ H Hk ltac:(simpl; lia)) as (H1 & H2 & _).
    repeat split; auto.
    + intros Hp. apply H2 in Hp as [Hp|[a [Ha Hp]]]; [now left|].
      right. exists a. split; [now apply above_cons | assumption].
    + intros [Hp|[a [Ha Hp]]]; apply H2; [now left|].
      right. exists a. split; [now apply above_cons in Ha | assumption].
Qed.

Lemma visible_above (m : registry) (a k : blockpath) (p : NodePath) :
  above a k -> visible m a p -> visible m k p.
Proof.
  intros Hak [Hp|[b [Hb Hp]]]; right.
  - now exists a.
  - exists b. split; [eapply above_trans; eauto | assumption].
Qed.

Lemma inherit_one_step (t : program) (m : registry) (key : blockpath)
    (d : list blockpath) (s s' : registry) :
  In key (map fst m) ->
  inheriting m s -> inherited m d s ->
  inherit_one t key s = Ok s' ->
  inheriting m s' /\ inherited m (key :: d) s'.
Proof.
  intros Hkey (Hk & Hlow & Hup) Hd H.
  assert (Hsome : Map_get path_eqb s key <> None).
  { rewrite Map_get_None_iff, Hk. tauto. }
  destruct (inherit_one_at _ _ _ _ H Hsome) as (H1 & H2 & H3).
  assert (Hgrow : forall k p, In p (providers_at s k) -> In p (providers_at s' k)).
  { intros k p Hp. destruct (list_eq_dec Nat.eq_dec k key) as [->|Hne].
    - apply H2. now left.
    - now rewrite H1. }
  split; [repeat split|].
  - congruence.
  - auto.
  - intros k p Hp. destruct (list_eq_dec Nat.eq_dec k key) as [->|Hne].
    + apply H2 in Hp as [Hp|[a [Ha Hp]]]; [auto|].
      eapply visible_above; eauto.
    + rewrite H1 in Hp by assumption. auto.
  - intros k [<-|Hin] p Hv.
    + apply H2. destruct Hv as [Hp|[a [Ha Hp]]]; [left; auto|].
      right. exists a. auto.
    + apply Hgrow. auto.
Qed.

Lemma inherit_loop (t : program) (m : registry) (l d : list blockpath)
    (s s' : registry) :
  (forall k, In k l -> In k (map fst m)) ->
  inheriting m s -> inherited m d s ->
  foldM (inherit_one t) l s = Ok s' ->
  inheriting m s' /\ inherited m (l ++ d) s'.
Proof.
  revert d s. induction l as [|key l IH]; simpl; intros d s Hl Hi Hd H.
  - inversion H; subst. auto.
  - destruct (inherit_one t key s) as [s1|] eqn:E; simpl in H; [|discriminate].
    destruct (inherit_one_step t m key d s s1 (Hl _ (or_introl eq_refl)) Hi Hd E)
      as [Hi' Hd'].
    destruct (IH (key :: d) s1 (fun k Hk => Hl k (or_intror Hk)) Hi' Hd' H)
      as [Hi'' Hd''].
    split; [assumption|].
    intros k Hin. apply Hd''. simpl in Hin. destruct Hin as [<-|Hin].
    + apply in_app_iff. right. now left.
    + apply in_app_iff in Hin as [Hin|Hin]; apply in_app_iff; simpl; auto.
Qed.

Lemma visit_owned (t : program) (ok : bool) (cur : blockpath) (r : nat)
    (l : string) (m m' : registry) :
  visit_LabeledStatement t ok cur r l m = Ok m' -> owned m -> owned m'.
Proof.
  unfold visit_LabeledStatement, defaultGet, TraitNamespace_new.
  destruct (String.eqb l "_StraitsProvider"); simpl;
    [|intros H; now inversion H; subst].
  intros H Hm k p.
  destruct (Map_get path_eqb m cur) as [ns|] eqn:G; simpl in H; unbind; fields;
    rewrite !providers_at_set;
    destruct (path_eqb cur k) eqn:Q; try apply Hm;
    apply path_eqb_eq in Q; subst k;
    repeat match goal with Hq : providers _ = _ |- _ => rewrite Hq; clear Hq end;
    simpl; rewrite ?Set_add_In; intros Hp;
    repeat match goal with
      | Hp : _ \/ _ |- _ => destruct Hp as [Hp|Hp]
      | Hp : In _ [] |- _ => destruct Hp
      end; subst; try reflexivity.
  apply Hm. unfold providers_at. now rewrite G.
Qed.

Lemma collect_owned (t : program) (m : registry) : collect t = Ok m -> owned m.
Proof.
  intros H. eapply (collect_keeps t owned); eauto.
  - intros. eapply visit_owned; eauto.
  - intros k p [].
Qed.





(** ** Provider statements after the pass *)

(** C3, on the unit [use traits * from a; use traits * from b;]: the
    pass returns, and of the two provider statements of the program only
    the first is gone; the second is still in the output. *)
Theorem second_provider_stays :
  Program_visitor Samples.sample_generateUid Samples.two_providers
    = Ok Samples.two_providers_output
  /\ provider_count Samples.two_providers_output = 1.
Proof. split; reflexivity. Qed.

(** C9, on the same unit: the pass run on its own output inserts a
    second resolver and removes the statement that the first run left, so
    the second run changes the tree. *)
Theorem second_run_changes :
  markers Samples.two_providers_output = []
  /\ Program_visitor Samples.sample_generateUid Samples.two_providers
       = Ok Samples.two_providers_output
  /\ Program_visitor Samples.sample_generateUid Samples.two_providers_output
       = Ok (Program [GetSymbolDeclaration "_getSymbol2";
                      GetSymbolDeclaration "_getSymbol"])
  /\ Program_visitor Samples.sample_generateUid Samples.two_providers_output
       <> Ok Samples.two_providers_output.
Proof. repeat split; try reflexivity. discriminate. Qed.

(** On a tree with neither provider statement nor marker the pass
    changes nothing. *)
Lemma visitor_idle (generateUid : program -> list string -> string -> string)
    (t : program) :
  provider_count t = 0 -> markers t = [] -> Program_visitor generateUid t = Ok t.
Proof.
  intros Hp Hm. rewrite visitor_without_providers by assumption.
  rewrite finalCheck_verdict. unfold verdict.
  replace (existsb is_marker (identifiers t)) with false; [reflexivity|].
  symmetry. apply not_true_is_false. intros H.
  apply existsb_exists in H as [n [Hin Hn]].
  assert (Hf : In n (markers t)) by (apply filter_In; auto).
  rewrite Hm in Hf. destruct Hf.
Qed.


(** ** A unit with a provider statement has a namespace *)

Lemma foldM_reaches {S A : Type} (P : S -> Prop) (Q : A -> Prop)
    (f : A -> S -> R S) (l : list A) :
  Forall (fun x => forall s s', f x s = Ok s' -> P s \/ Q x -> P s') l ->
  forall s s', foldM f l s = Ok s' -> P s \/ Exists Q l -> P s'.
Proof.
  induction 1 as [|x l Hx _ IH]; simpl; intros s s' Hf Hor.
  - inversion Hf; subst. destruct Hor as [?|Hex]; [assumption | inversion Hex].
  - destruct (f x s) as [s1|] eqn:E; simpl in Hf; [|discriminate].
    apply (IH _ _ Hf). destruct Hor as [Hp|Hex].
    + left. eapply Hx; eauto.
    + inversion Hex; subst; [left; eapply Hx; eauto | now right].
Qed.

Lemma list_sum_positive {A : Type} (f : A -> nat) (l : list A) :
  list_sum (map f l) <> 0 -> Exists (fun x => f x <> 0) l.
Proof.
  induction l as [|x l IH]; simpl; intros H; [congruence|].
  destruct (Nat.eq_dec (f x) 0) as [E|E].
  - right. apply IH. lia.
  - now left.
Qed.

Lemma Map_set_nonempty {V : Type} (m : list (blockpath * V)) (key : blockpath) (v : V) :
  Map_set path_eqb m key v <> [].
Proof.
  destruct m as [|[k w] m]; simpl; [discriminate|].
  destruct (path_eqb k key); discriminate.
Qed.

Lemma visit_nonempty (t : program) (ok : bool) (cur : blockpath) (r : nat)
    (l : string) (m m' : registry) :
  visit_LabeledStatement t ok cur r l m = Ok m' ->
  m <> [] \/ String.eqb l "_StraitsProvider" = true -> m' <> [].
Proof.
  unfold visit_LabeledStatement, defaultGet.
  destruct (String.eqb l "_StraitsProvider"); simpl.
  - intros H _. destruct (Map_get path_eqb m cur); simpl in H; unbind;
      apply Map_set_nonempty.
  - intros H [Hm|Hf]; [|discriminate]. now inversion H; subst.
Qed.

Lemma collect_nonempty_nodes (t : program) :
  (forall e cur m m', collect_e t cur e m = Ok m' ->
     m <> [] \/ provider_count_e e <> 0 -> m' <> []) /\
  (forall s ok cur m m', collect_s t ok cur s m = Ok m' ->
     m <> [] \/ provider_count_s s <> 0 -> m' <> []) /\
  (forall b cur m m', collect_b t cur b m = Ok m' ->
     m <> [] \/ provider_count_b b <> 0 -> m' <> []).
Proof.
  apply node_ind; simpl; intros; unbind;
    try match goal with H : _ \/ 0 <> 0 |- _ => destruct H; [assumption|congruence] end;
    eauto;
    repeat match goal with
      | IH : (forall cur m m', collect_e t cur ?e m = Ok m' -> _),
        E : collect_e t _ ?e ?m0 = Ok ?m1 |- _ =>
          pose proof (IH _ _ _ E); clear E
      | IH : (forall cur m m', collect_b t cur ?e m = Ok m' -> _),
        E : collect_b t _ ?e ?m0 = Ok ?m1 |- _ =>
          pose proof (IH _ _ _ E); clear E
      | IH : (forall ok cur m m', collect_s t ok cur ?e m = Ok m' -> _),
        E : collect_s t _ _ ?e ?m0 = Ok ?m1 |- _ =>
          pose proof (IH _ _ _ _ E); clear E
      | E : visit_LabeledStatement t _ _ _ _ _ = Ok _ |- _ =>
          pose proof (visit_nonempty _ _ _ _ _ _ _ E); clear E
      | IH : Forall _ ?l, E : foldM (collect_e t ?cur) ?l ?m0 = Ok ?m1 |- _ =>
          let HF := fresh "HF" in
          assert (HF : Forall (fun x => forall s s', collect_e t cur x s = Ok s' ->
                          s <> [] \/ provider_count_e x <> 0 -> s' <> []) l)
            by (eapply Forall_impl; [|exact IH]; simpl; intros; eauto);
          pose proof (foldM_reaches (fun m : registry => m <> [])
                        (fun x => provider_count_e x <> 0) _ _ HF _ _ E);
          clear E IH HF
      | IH : Forall _ ?l, E : foldM (fun d => collect_e t ?cur (snd d)) ?l ?m0 = Ok ?m1 |- _ =>
          let HF := fresh "HF" in
          assert (HF : Forall (fun d => forall s s', collect_e t cur (snd d) s = Ok s' ->
                          s <> [] \/ provider_count_e (snd d) <> 0 -> s' <> []) l)
            by (eapply Forall_impl; [|exact IH]; simpl; intros; eauto);
          pose proof (foldM_reaches (fun m : registry => m <> [])
                        (fun d => provider_count_e (snd d) <> 0) _ _ HF _ _ E);
          clear E IH HF
      | IH : Forall _ ?l, E : foldM (collect_s t true ?cur) ?l ?m0 = Ok ?m1 |- _ =>
          let HF := fresh "HF" in
          assert (HF : Forall (fun x => forall s s', collect_s t true cur x s = Ok s' ->
                          s <> [] \/ provider_count_s x <> 0 -> s' <> []) l)
            by (eapply Forall_impl; [|exact IH]; simpl; intros; eauto);
          pose proof (foldM_reaches (fun m : registry => m <> [])
                        (fun x => provider_count_s x <> 0) _ _ HF _ _ E);
          clear E IH HF
      end;
    repeat match goal with
      | |- context [list_sum (map ?f ?l)] => fail
      | H : context [list_sum (map ?f ?l)] |- _ =>
          pose proof (list_sum_positive f l);
          generalize dependent (list_sum (map f l)); intros
      end;
    repeat match goal with
      | H : _ \/ ?x + ?y <> 0 |- _ =>
          assert (x <> 0 \/ y <> 0 \/ x + y = 0) by lia;
          generalize dependent (x + y); intros
      | H : _ \/ (if ?c then 1 else 0) + ?y <> 0 |- _ => destruct c
      end;
    cbv beta in *;
    try match goal with
      | H : context [String.eqb ?l "_StraitsProvider"] |- _ =>
          destruct (String.eqb l "_StraitsProvider")
      end;
    try tauto; intuition (try congruence; try lia).
Qed.

Lemma collect_nonempty (t : program) (m : registry) :
  collect t = Ok m -> provider_count t <> 0 -> m <> [].
Proof.
  unfold collect, provider_count. intros H Hp.
  apply list_sum_positive in Hp.
  eapply (foldM_reaches (fun m : registry => m <> [])
            (fun x => provider_count_s x <> 0)); [|exact H|now right].
  apply Forall_forall. intros s _ s1 s2. apply collect_nonempty_nodes.
Qed.

(** With a provider statement the visitor goes through all its steps. *)
Lemma visitor_with_providers
    (generateUid : program -> list string -> string -> string) (t t' : program) :
  provider_count t <> 0 ->
  Program_visitor generateUid t = Ok t' ->
  exists m m2 t3 m3 uids,
    collect t = Ok m
    /\ inherit (unshiftContainer (GetSymbolDeclaration (generateUid t [] "getSymbol")) t) m
       = Ok m2
    /\ rewrite_all generateUid t
         (unshiftContainer (GetSymbolDeclaration (generateUid t [] "getSymbol")) t)
         m2 [generateUid t [] "getSymbol"] = Ok (t3, m3, uids)
    /\ t' = clean (fold_left remove (map snd m3)
                     (fold_left (finalize (generateUid t [] "getSymbol"))
                        (map snd m3) t3)).
Proof.
  intros Hp H. unfold Program_visitor in H.
  destruct (collect t) as [m|] eqn:Hc; simpl in H; [|discriminate].
  pose proof (collect_nonempty _ _ Hc Hp) as Hm.
  destruct m as [|kv m]; [congruence|]. simpl in H.
  destruct (inherit _ (kv :: m)) as [m2|] eqn:Hi; simpl in H; [|discriminate].
  destruct (rewrite_all _ _ _ _ _) as [[[t3 m3] uids]|] eqn:Hr; simpl in H;
    [|discriminate].
  match type of H with
  | context [finalCheck ?x] => destruct (finalCheck x) as [[]|]; simpl in H
  end; [|discriminate].
  inversion H; subst. exists (kv :: m), m2, t3, m3, uids. auto.
Qed.



(** ** What [cleanString] leaves *)

Section Replace.
Variable p0 : ascii.
Variable tl : string.
Variable match_at : string -> option nat.
Variable r0 : ascii.
Variable rep' : string.

Let pat := String p0 tl.
Let rep := String r0 rep'.

(** No character of the pattern after the first is the first of the
    replacement, and the pattern starts nowhere in the replacement. *)
Hypothesis tl_lacks : lacks r0 tl = true.
Hypothesis rep_breaks : forall rest, breaks pat rep rest = true.

(** What starts the output of the scan and never meets the first
    character of the replacement starts the input. *)
Lemma prefix_replace (q str : string) :
  lacks r0 q = true ->
  String.prefix q (replace match_at rep 0 str) = true ->
  String.prefix q str = true.
Proof.
  revert str. induction q as [|c q IH]; intros str Hl H; [now destruct str|].
  simpl in Hl. apply andb_true_iff in Hl as [Hc Hl].
  destruct str as [|d str]; simpl in H; [discriminate|].
  destruct (match_at (String d str)) as [[|k]|] eqn:M; simpl in H.
  - destruct (ascii_dec c d) as [->|]; [|discriminate]. simpl.
    destruct (ascii_dec d d); [|congruence]. now apply IH.
  - unfold rep in H. simpl in H.
    destruct (ascii_dec c r0) as [->|]; [|discriminate].
    rewrite Ascii.eqb_refl in Hc. discriminate.
  - destruct (ascii_dec c d) as [->|]; [|discriminate]. simpl.
    destruct (ascii_dec d d); [|congruence]. now apply IH.
Qed.

Lemma spells_after (r rest : string) :
  breaks pat r rest = true -> spells pat rest = false ->
  spells pat (r ++ rest) = false.
Proof.
  induction r as [|c r IH]; simpl; intros Hb Hs; [assumption|].
  apply andb_true_iff in Hb as [H1 H2]. apply negb_true_iff in H1.
  rewrite H1. simpl. now apply IH.
Qed.

(** The output of the scan of a guarded text does not spell the
    pattern. *)
Lemma replace_spells (str : string) (skip : nat) :
  guarded pat match_at str ->
  spells pat (replace match_at rep skip str) = false.
Proof.
  revert skip. induction str as [|c str IH]; intros skip Hg.
  - destruct skip; reflexivity.
  - destruct Hg as [Hhere Hg]. simpl. destruct skip as [|k]; [|now apply IH].
    destruct (match_at (String c str)) as [[|k]|] eqn:M.
    + change (String.prefix pat (String c (replace match_at rep 0 str))
              || spells pat (replace match_at rep 0 str) = false).
      rewrite (IH 0 Hg), orb_false_r.
      destruct (String.prefix pat (String c (replace match_at rep 0 str))) eqn:P;
        [|reflexivity].
      unfold pat in P. simpl in P.
      destruct (ascii_dec p0 c) as [->|]; [|discriminate].
      apply prefix_replace in P; [|exact tl_lacks].
      rewrite <- Hhere; [|intros k'; congruence].
      unfold pat. simpl. destruct (ascii_dec c c); [|congruence]. now symmetry.
    + apply spells_after; [apply rep_breaks | now apply IH].
    + change (String.prefix pat (String c (replace match_at rep 0 str))
              || spells pat (replace match_at rep 0 str) = false).
      rewrite (IH 0 Hg), orb_false_r.
      destruct (String.prefix pat (String c (replace match_at rep 0 str))) eqn:P;
        [|reflexivity].
      unfold pat in P. simpl in P.
      destruct (ascii_dec p0 c) as [->|]; [|discriminate].
      apply prefix_replace in P; [|exact tl_lacks].
      rewrite <- Hhere; [|intros k'; congruence].
      unfold pat. simpl. destruct (ascii_dec c c); [|congruence]. now symmetry.
Qed.

End Replace.

Lemma prefix_shorter (a b str : string) :
  String.prefix (a ++ b) str = true -> String.prefix a str = true.
Proof.
  revert str. induction a as [|c a IH]; intros str H; [now destruct str|].
  destruct str as [|d str]; simpl in *; [discriminate|].
  destruct (ascii_dec c d); [now apply IH | discriminate].
Qed.

Lemma match_Straits_None (str : string) :
  String.prefix "._Straits" str = false -> match_Straits str = None.
Proof.
  intros H. unfold match_Straits. rewrite H.
  destruct (String.prefix "._Straits." str) eqn:E; [|reflexivity].
  apply (prefix_shorter "._Straits" ".") in E. congruence.
Qed.

Lemma match_StraitsProvider_None (str : string) :
  String.prefix "_StraitsProvider:" str = false -> match_StraitsProvider str = None.
Proof. intros H. unfold match_StraitsProvider. now rewrite H. Qed.

Lemma guarded_Straits (str : string) : guarded "._Straits" match_Straits str.
Proof.
  induction str as [|c str IH]; [exact I|]. cbn [guarded]. split; [|exact IH].
  intros H. destruct (String.prefix "._Straits" (String c str)) eqn:P; [|reflexivity].
  exfalso. unfold match_Straits in H. rewrite P in H.
  destruct (String.prefix "._Straits." (String c str)); eapply H; reflexivity.
Qed.

Lemma guarded_StraitsProvider (str : string) :
  guarded "_StraitsProvider:" match_StraitsProvider str.
Proof.
  induction str as [|c str IH]; [exact I|]. cbn [guarded]. split; [|exact IH].
  intros H. destruct (String.prefix "_StraitsProvider:" (String c str)) eqn:P;
    [|reflexivity].
  exfalso. unfold match_StraitsProvider in H. rewrite P in H.
  eapply H; reflexivity.
Qed.

Lemma guarded_unspelled (pat : string) (match_at : string -> option nat)
    (str : string) :
  spells pat str = false -> guarded pat match_at str.
Proof.
  induction str as [|c str IH]; intros H; [exact I|].
  change (String.prefix pat (String c str) || spells pat str = false) in H.
  apply orb_false_iff in H as [H1 H2]. split; auto.
Qed.

Lemma replace_Straits_spells (str : string) :
  spells "._Straits" (replace match_Straits ".*" 0 str) = false.
Proof.
  apply (replace_spells "." "_Straits" match_Straits "." "*").
  - reflexivity.
  - intros rest. reflexivity.
  - apply guarded_Straits.
Qed.

(** The result of [cleanString] spells neither placeholder. *)
Lemma cleanString_spells (str : string) :
  spells "._Straits" (cleanString str) = false
  /\ spells "_StraitsProvider:" (cleanString str) = false.
Proof.
  unfold cleanString. split.
  - apply (replace_spells "." "_Straits" match_StraitsProvider "u" "se traits * from").
    + reflexivity.
    + intros rest. reflexivity.
    + apply guarded_unspelled. apply replace_Straits_spells.
  - apply (replace_spells "_" "StraitsProvider:" match_StraitsProvider
             "u" "se traits * from").
    + reflexivity.
    + intros rest. reflexivity.
    + apply guarded_StraitsProvider.
Qed.

(** A text in which the scan finds no match is left as it is. *)
Lemma replace_idle (pat : string) (match_at : string -> option nat) (rep str : string) :
  (forall u, String.prefix pat u = false -> match_at u = None) ->
  spells pat str = false -> replace match_at rep 0 str = str.
Proof.
  intros Hm. induction str as [|c str IH]; intros H; [reflexivity|].
  change (String.prefix pat (String c str) || spells pat str = false) in H.
  apply orb_false_iff in H as [H1 H2]. simpl.
  rewrite (Hm _ H1). now rewrite IH.
Qed.

(** [cleanString] leaves its own results as they are. *)
Lemma cleanString_idempotent (str : string) :
  cleanString (cleanString str) = cleanString str.
Proof.
  destruct (cleanString_spells str) as [H1 H2].
  unfold cleanString at 1.
  rewrite (replace_idle "._Straits" match_Straits ".*" _ match_Straits_None H1).
  apply (replace_idle "_StraitsProvider:" match_StraitsProvider _ _
           match_StraitsProvider_None H2).
Qed.

(** ** The literal pass *)

Lemma clean_StringLiteral_eq (str : string) :
  clean_StringLiteral str = StringLiteral (cleanString str).
Proof.
  unfold clean_StringLiteral. destruct (String.eqb (cleanString str) str) eqn:E;
    [|reflexivity].
  apply String.eqb_eq in E. now rewrite E.
Qed.

Lemma flat_map_map_through {A B : Type} (f : A -> list B) (g : A -> A)
    (h : B -> B) (l : list A) :
  Forall (fun x => f (g x) = map h (f x)) l ->
  flat_map f (map g l) = map h (flat_map f l).
Proof.
  induction 1 as [|x l Hx _ IH]; simpl; [reflexivity|].
  now rewrite map_app, Hx, IH.
Qed.

Lemma map_map_same {A B : Type} (f : A -> B) (g : A -> A) (l : list A) :
  Forall (fun x => f (g x) = f x) l -> map f (map g l) = map f l.
Proof.
  induction 1 as [|x l Hx _ IH]; simpl; [reflexivity|]. now rewrite Hx, IH.
Qed.

Ltac through_lists :=
  repeat rewrite map_app;
  repeat match goal with H : _ = map _ _ |- _ => rewrite H; clear H end;
  try reflexivity;
  try (f_equal; apply flat_map_map_through;
       eapply Forall_impl; [|eassumption]; simpl; intros; auto; fail);
  try (apply flat_map_map_through;
       eapply Forall_impl; [|eassumption]; simpl; intros; auto; fail).

Lemma strings_clean_nodes :
  (forall e, strings_e (clean_e e) = map cleanString (strings_e e)) /\
  (forall s, strings_s (clean_s s) = map cleanString (strings_s s)) /\
  (forall b, strings_b (clean_b b) = map cleanString (strings_b b)).
Proof.
  apply node_ind; simpl; intros; through_lists.
  now rewrite clean_StringLiteral_eq.
Qed.

Lemma quasis_clean_nodes :
  (forall e, quasis_e (clean_e e) = map clean_TemplateElement (quasis_e e)) /\
  (forall s, quasis_s (clean_s s) = map clean_TemplateElement (quasis_s s)) /\
  (forall b, quasis_b (clean_b b) = map clean_TemplateElement (quasis_b b)).
Proof.
  apply node_ind; simpl; intros; through_lists.
  now rewrite clean_StringLiteral_eq.
Qed.

Lemma blank_clean (q : TemplateElement) : blank (clean_TemplateElement q) = blank q.
Proof.
  unfold clean_TemplateElement, blank. now destruct (_ || _).
Qed.

Lemma skeleton_clean_nodes :
  (forall e, skeleton_e (clean_e e) = skeleton_e e) /\
  (forall s, skeleton_s (clean_s s) = skeleton_s s) /\
  (forall b, skeleton_b (clean_b b) = skeleton_b b).
Proof.
  apply node_ind; simpl; intros;
    repeat match goal with H : skeleton_e _ = _ |- _ => rewrite H; clear H
                      | H : skeleton_s _ = _ |- _ => rewrite H; clear H
                      | H : skeleton_b _ = _ |- _ => rewrite H; clear H end;
    try reflexivity;
    try (f_equal; apply map_map_same;
         eapply Forall_impl; [|eassumption]; simpl; intros; congruence).
  - now rewrite clean_StringLiteral_eq.
  - f_equal.
    + apply map_map_same. apply Forall_forall. intros q _. apply blank_clean.
    + apply map_map_same. eapply Forall_impl; [|eassumption]. simpl; auto.
Qed.

Lemma clean_program (u : program) :
  strings (clean u) = map cleanString (strings u)
  /\ quasis_of (clean u) = map clean_TemplateElement (quasis_of u)
  /\ skeleton (clean u) = skeleton u.
Proof.
  unfold strings, quasis_of, skeleton, clean. simpl. repeat split.
  - apply flat_map_map_through. apply Forall_forall. intros s _.
    apply strings_clean_nodes.
  - apply flat_map_map_through. apply Forall_forall. intros s _.
    apply quasis_clean_nodes.
  - f_equal. apply map_map_same. apply Forall_forall. intros s _.
    apply skeleton_clean_nodes.
Qed.

(** C8: the unit ['x._Straits.one';] holds no provider statement; the
    pass returns it as it is, with the placeholder spelling still in the
    string literal, although [cleanString] turns that content into
    ['x.*one'], and although the pass does patch the same literal once a
    provider statement stands before it: the early return of the pass
    comes before the traversal of the literals. *)
Lemma literal_left_unpatched :
  Program_visitor Samples.sample_generateUid Samples.literal_only
    = Ok Samples.literal_only
  /\ strings Samples.literal_only = ["x._Straits.one"]
  /\ cleanString "x._Straits.one" = "x.*one"
  /\ Program_visitor Samples.sample_generateUid Samples.literal_after_provider
     = Ok (Program [GetSymbolDeclaration "_getSymbol";
                    ExpressionStatement (StringLiteral "x.*one")]).
Proof. repeat split. Qed.


(** ** The resolver declaration *)

Lemma flat_map_nil {A B : Type} (f : A -> list B) (l : list A) :
  flat_map f l = [] <-> Forall (fun x => f x = []) l.
Proof.
  induction l as [|x l IH]; simpl.
  - split; [constructor | reflexivity].
  - split.
    + intros H. apply app_eq_nil in H as [H1 H2]. constructor; [assumption | now apply IH].
    + intros H. inversion H; subst. rewrite H2. simpl. now apply IH.
Qed.

Lemma first_some_found {A B : Type} (f : A -> option B) (l : list A) (y : B) :
  first_some f l = Some y -> exists x, In x l /\ f x = Some y.
Proof.
  induction l as [|x l IH]; simpl; [discriminate|].
  destruct (f x) eqn:E.
  - intros H. inversion H; subst. exists x. auto.
  - intros H. destruct (IH H) as [x' [? ?]]. exists x'. auto.
Qed.

Ltac nils :=
  repeat match goal with
    | H : _ ++ _ = [] |- _ => apply app_eq_nil in H; destruct H
    | H : flat_map _ _ = [] |- _ => apply flat_map_nil in H
    end.

(** The body read at a path of a tree without resolver has none. *)
Lemma resolvers_get_nodes (target : blockpath) :
  (forall e, resolvers_e e = [] -> forall cur ss,
     get_e target cur e = Some ss -> flat_map resolvers_s ss = []) /\
  (forall s, resolvers_s s = [] -> forall cur ss,
     get_s target cur s = Some ss -> flat_map resolvers_s ss = []) /\
  (forall b, resolvers_b b = [] -> forall cur ss,
     get_b target cur b = Some ss -> flat_map resolvers_s ss = []).
Proof.
  apply node_ind; simpl; intros; nils; try discriminate; eauto;
    repeat match goal with
      | H : match ?x with Some _ => _ | None => _ end = Some _ |- _ =>
          destruct x eqn:?
      | H : Some _ = Some _ |- _ => inversion H; subst; clear H
      end; eauto;
    try match goal with
      | H : (if ?c then _ else _) = Some _ |- _ => destruct c
      end;
    try match goal with
      | H : Some _ = Some _ |- _ =>
          inversion H; subst; clear H; now apply flat_map_nil
      end;
    match goal with
    | H : first_some _ ?l = Some _, IH : Forall _ ?l, Hn : Forall _ ?l |- _ =>
        apply first_some_found in H as [x [Hin Hx]];
        rewrite Forall_forall in IH, Hn;
        eapply IH; eauto
    end.
Qed.

Lemma map_nil_through {A : Type} (f : A -> list string) (g : A -> A) (l : list A) :
  Forall (fun x => f x = [] -> f (g x) = []) l ->
  flat_map f l = [] -> flat_map f (map g l) = [].
Proof.
  intros H Hn. apply flat_map_nil in Hn. apply flat_map_nil.
  apply Forall_map. pose proof (Forall_modus H Hn) as HH. exact HH.
Qed.

(** Writing a body without resolver leaves a tree without resolver so. *)
Lemma resolvers_set_nodes (target : blockpath) (new : list stmt) :
  flat_map resolvers_s new = [] ->
  (forall e, resolvers_e e = [] -> forall cur,
     resolvers_e (set_e target new cur e) = []) /\
  (forall s, resolvers_s s = [] -> forall cur,
     resolvers_s (set_s target new cur s) = []) /\
  (forall b, resolvers_b b = [] -> forall cur,
     resolvers_b (set_b target new cur b) = []).
Proof.
  intros Hnew. apply node_ind; simpl; intros;
    repeat match goal with
      | H : _ ++ _ = [] |- _ => apply app_eq_nil in H; destruct H
      end;
    try discriminate; try reflexivity;
    repeat match goal with
      | IH : ?x = [] -> forall cur, _ = [], H : ?x = [] |- _ =>
          specialize (IH H); rewrite IH; clear IH
      end;
    simpl; auto;
    try (apply map_nil_through; [|assumption];
         eapply Forall_impl; [|eassumption]; simpl; intros; auto; fail).
  destruct (path_eqb (r :: cur) target); simpl; [assumption|].
  apply map_nil_through; [|assumption].
  eapply Forall_impl; [|eassumption]. simpl; intros; auto.
Qed.


Lemma flat_map_map_same {A B : Type} (f : A -> list B) (g : A -> A) (l : list A) :
  Forall (fun x => f (g x) = f x) l -> flat_map f (map g l) = flat_map f l.
Proof.
  induction 1 as [|x l Hx _ IH]; simpl; [reflexivity|]. now rewrite Hx, IH.
Qed.

Lemma resolvers_dispatch_nodes (id : string -> string) (m : registry) :
  (forall e cur, resolvers_e (dispatch_e id m cur e) = resolvers_e e) /\
  (forall s cur, resolvers_s (dispatch_s id m cur s) = resolvers_s s) /\
  (forall b cur, resolvers_b (dispatch_b id m cur b) = resolvers_b b).
Proof.
  apply node_ind_deep; intros.
  all: try (simpl;
            repeat match goal with H : forall cur, _ = _ |- _ => rewrite H; clear H end;
            try reflexivity;
            try (f_equal; apply flat_map_map_same;
                 eapply Forall_impl; [|eassumption]; simpl; intros; auto);
            fail).
  - simpl. apply flat_map_map_same. eapply Forall_impl; [|eassumption]. simpl; auto.
  - destruct (access_or_not x) as [[o ->]|Hx].
    + simpl. rewrite (H0 _ _ eq_refl). apply app_nil_r.
    + rewrite dispatch_member_elsewhere by assumption. simpl. apply H.
  - destruct (access_or_not x) as [[o ->]|Hx].
    + simpl. now rewrite (H0 _ _ eq_refl), H1.
    + rewrite dispatch_computed_elsewhere by assumption. simpl. now rewrite H, H1.
  - simpl. apply flat_map_map_same. eapply Forall_impl; [|eassumption]. simpl; auto.
  - simpl. destruct (Map_has path_eqb m (r :: cur)); [reflexivity|]. simpl.
    apply flat_map_map_same. eapply Forall_impl; [|eassumption]. simpl; auto.
Qed.

Lemma resolvers_clean_nodes :
  (forall e, resolvers_e (clean_e e) = resolvers_e e) /\
  (forall s, resolvers_s (clean_s s) = resolvers_s s) /\
  (forall b, resolvers_b (clean_b b) = resolvers_b b).
Proof.
  apply node_ind; simpl; intros;
    repeat match goal with H : _ = resolvers_e _ |- _ => rewrite H; clear H
                      | H : _ = resolvers_s _ |- _ => rewrite H; clear H
                      | H : _ = resolvers_b _ |- _ => rewrite H; clear H end;
    try reflexivity;
    try (f_equal; apply flat_map_map_same;
         eapply Forall_impl; [|eassumption]; simpl; intros; auto; fail);
    try (apply flat_map_map_same;
         eapply Forall_impl; [|eassumption]; simpl; intros; auto; fail).
  unfold clean_StringLiteral. now destruct (String.eqb _ _).
Qed.

Lemma headed_get (g : string) (t : program) (key : blockpath) (ss : list stmt) :
  headed g t -> get_block key t = Some ss -> fits g key ss.
Proof.
  intros [rest [Hb Hr]] H. unfold get_block in H. destruct key as [|r k]; simpl.
  - inversion H; subst. now exists rest.
  - rewrite Hb in H. simpl in H.
    apply first_some_found in H as [x [Hin Hx]].
    apply flat_map_nil in Hr. rewrite Forall_forall in Hr.
    eapply (proj1 (proj2 (resolvers_get_nodes (r :: k)))); eauto.
Qed.

Lemma headed_set (g : string) (t : program) (key : blockpath) (new : list stmt) :
  headed g t -> fits g key new -> headed g (set_block key new t).
Proof.
  intros [rest [Hb Hr]] Hf. unfold set_block. destruct key as [|r k]; simpl in *.
  - exact Hf.
  - rewrite Hb. simpl. eexists. split; [reflexivity|].
    apply map_nil_through; [|assumption].
    apply Forall_forall. intros s _ Hs.
    now apply (proj1 (proj2 (resolvers_set_nodes (r :: k) new Hf))).
Qed.

Lemma fits_dispatch (g : string) (key : blockpath) (ss : list stmt)
    (id : string -> string) (m : registry) :
  fits g key ss -> fits g key (map (dispatch_s id m key) ss).
Proof.
  assert (Hmap : forall l, flat_map resolvers_s l = [] ->
                   flat_map resolvers_s (map (dispatch_s id m key) l) = []).
  { intros l Hl. rewrite flat_map_map_same; [assumption|].
    apply Forall_forall. intros s _. apply resolvers_dispatch_nodes. }
  unfold fits. destruct key as [|r k].
  - intros [rest [-> Hr]]. simpl. eexists. split; [reflexivity|]. now apply Hmap.
  - apply Hmap.
Qed.

Lemma insert_before_free (r : nat) (new : stmt) (ss : list stmt) :
  resolvers_s new = [] -> flat_map resolvers_s ss = [] ->
  flat_map resolvers_s (insert_before r new ss) = [].
Proof.
  intros Hn. induction ss as [|s ss IH]; simpl; [reflexivity|].
  intros H. apply app_eq_nil in H as [H1 H2].
  destruct s; simpl in *; try (rewrite ?H1, IH; auto; fail).
  destruct (Nat.eqb ref r); simpl; rewrite ?Hn, ?H1, ?H2, ?IH; auto.
Qed.

Lemma remove_labeled_free (r : nat) (ss : list stmt) :
  flat_map resolvers_s ss = [] -> flat_map resolvers_s (remove_labeled r ss) = [].
Proof.
  induction ss as [|s ss IH]; simpl; [reflexivity|].
  intros H. apply app_eq_nil in H as [H1 H2].
  destruct s; simpl in *; try (rewrite ?H1, IH; auto; fail).
  destruct (Nat.eqb ref r); simpl; rewrite ?H1, ?H2, ?IH; auto.
Qed.

Lemma find_labeled_free (r : nat) (ss : list stmt) (s : stmt) :
  flat_map resolvers_s ss = [] -> find_labeled r ss = Some s -> resolvers_s s = [].
Proof.
  induction ss as [|x ss IH]; simpl; [discriminate|].
  intros H. apply app_eq_nil in H as [H1 H2].
  destruct x; auto.
  destruct (Nat.eqb ref r); auto. intros Hs. inversion Hs; subst. exact H1.
Qed.

Lemma fits_insert (g : string) (key : blockpath) (r : nat) (new : stmt)
    (ss : list stmt) :
  resolvers_s new = [] -> fits g key ss -> fits g key (insert_before r new ss).
Proof.
  intros Hn. unfold fits. destruct key as [|x k].
  - intros [rest [-> Hr]]. simpl. eexists. split; [reflexivity|].
    now apply insert_before_free.
  - now apply insert_before_free.
Qed.

Lemma fits_remove (g : string) (key : blockpath) (r : nat) (ss : list stmt) :
  fits g key ss -> fits g key (remove_labeled r ss).
Proof.
  unfold fits. destruct key as [|x k].
  - intros [rest [-> Hr]]. simpl. eexists. split; [reflexivity|].
    now apply remove_labeled_free.
  - apply remove_labeled_free.
Qed.

Lemma fits_find (g : string) (key : blockpath) (r : nat) (ss : list stmt) (s : stmt) :
  fits g key ss -> find_labeled r ss = Some s -> resolvers_s s = [].
Proof.
  unfold fits. destruct key as [|x k].
  - intros [rest [-> Hr]]. simpl. now apply find_labeled_free.
  - apply find_labeled_free.
Qed.

Lemma body_expression_free (g : string) (t : program) (p : NodePath) (e : expr) :
  headed g t -> body_expression t p = Some e -> resolvers_e e = [].
Proof.
  intros Hh. unfold body_expression, path_node.
  destruct (get_block (parentPath p) t) as [ss|] eqn:G; [|discriminate].
  destruct (find_labeled (node p) ss) as [s|] eqn:F; [|discriminate].
  pose proof (fits_find g _ _ _ _ (headed_get _ _ _ _ Hh G) F) as Hs.
  destruct s; try discriminate. destruct s; try discriminate.
  intros H. inversion H; subst. exact Hs.
Qed.

Lemma declaration_free (g gs : string) (t : program) (ns : TraitNamespace) :
  headed g t -> resolvers_s (declaration gs t ns) = [].
Proof.
  intros Hh. unfold declaration. simpl. apply flat_map_nil.
  apply Forall_map. apply Forall_forall. intros entry _. simpl.
  apply flat_map_nil. unfold providingExpressions.
  apply Forall_forall. intros e He. apply in_flat_map in He as [p [_ Hp]].
  destruct (body_expression t p) as [e'|] eqn:B; [|destruct Hp].
  destruct Hp as [<-|[]]. eapply body_expression_free; eauto.
Qed.

Lemma headed_finalize (g gs : string) (t : program) (ns : TraitNamespace) :
  headed g t -> headed g (finalize gs t ns).
Proof.
  intros Hh. unfold finalize, insertBefore.
  destruct (Nat.eqb _ 0); [assumption|].
  destruct (get_block _ t) as [ss|] eqn:G; [|assumption].
  apply headed_set; [assumption|].
  apply fits_insert; [eapply declaration_free; eauto | eapply headed_get; eauto].
Qed.

Lemma headed_remove (g : string) (t : program) (ns : TraitNamespace) :
  headed g t -> headed g (remove t ns).
Proof.
  intros Hh. unfold remove, path_remove.
  destruct (get_block _ t) as [ss|] eqn:G; [|assumption].
  apply headed_set; [assumption|].
  apply fits_remove. eapply headed_get; eauto.
Qed.

Lemma headed_fold (g : string) (f : program -> TraitNamespace -> program)
    (l : list TraitNamespace) (t : program) :
  (forall t ns, headed g t -> headed g (f t ns)) ->
  headed g t -> headed g (fold_left f l t).
Proof.
  intros Hf. revert t. induction l as [|ns l IH]; simpl; auto.
Qed.

Lemma headed_clean (g : string) (t : program) : headed g t -> headed g (clean t).
Proof.
  intros [rest [Hb Hr]]. unfold clean. rewrite Hb. simpl.
  eexists. split; [reflexivity|].
  rewrite flat_map_map_same; [assumption|].
  apply Forall_forall. intros s _. apply resolvers_clean_nodes.
Qed.

Lemma headed_rewrite_one (generateUid : program -> list string -> string -> string)
    (scope : program) (g : string) (key : blockpath) (t t' : program)
    (m m' : registry) (uids uids' : list string) :
  rewrite_one generateUid scope key (t, m, uids) = Ok (t', m', uids') ->
  headed g t -> headed g t'.
Proof.
  unfold rewrite_one.
  destruct (Map_get path_eqb m key) as [ns|]; [|intros H; now inversion H; subst].
  destruct (get_block key t) as [ss|] eqn:G; [|intros H; now inversion H; subst].
  intros H Hh. unbind.
  apply (mapM_rw_ok _ (requested_s m key) (fun id => dispatch_s id m key)) in E;
    [|apply Forall_forall; intros s _ st y st' Hs;
      eapply (proj1 (proj2 (rw_nodes generateUid scope m))); eauto].
  destruct E as [_ Hd]. rewrite (Hd _ (extends_refl _)).
  apply headed_set; [assumption|].
  apply fits_dispatch. eapply headed_get; eauto.
Qed.

Lemma headed_rewrite_all (generateUid : program -> list string -> string -> string)
    (scope : program) (g : string) (t t' : program) (m m' : registry)
    (uids uids' : list string) :
  rewrite_all generateUid scope t m uids = Ok (t', m', uids') ->
  headed g t -> headed g t'.
Proof.
  unfold rewrite_all. intros H Hh.
  apply (foldM_keeps
           (fun acc : program * registry * list string => headed g (fst (fst acc))))
    in H; auto.
  apply Forall_forall. intros key _ [[t1 m1] u1] [[t2 m2] u2] Hs Hh1. simpl in *.
  eapply headed_rewrite_one; eauto.
Qed.


(** C4, the claim as it stands fails: the unit [use traits * from a;]
    holds no trait access, so no namespace ever requests a trait name,
    and yet the pass inserts the resolver. *)
Lemma resolver_without_request :
  markers Samples.provider_only = []
  /\ Program_visitor Samples.sample_generateUid Samples.provider_only
       = Ok (Program [GetSymbolDeclaration "_getSymbol"]).
Proof. split; reflexivity. Qed.

(** C4 amended: the visitor takes the name of the resolver from the host
    and inserts the resolver at the start of the unit, once, exactly when
    the unit holds at least one provider statement, whether a trait name
    is requested or not: such a unit, holding no resolver declaration of
    its own, comes out starting with the resolver and holding no other;
    a unit without provider statement comes out as it went in. *)
Theorem resolver_follows_providers
    (generateUid : program -> list string -> string -> string) (t t' : program) :
  Program_visitor generateUid t = Ok t' ->
  (provider_count t = 0 -> t' = t)
  /\ (provider_count t <> 0 -> resolvers t = [] ->
      (exists rest,
         program_body t' = GetSymbolDeclaration (generateUid t [] "getSymbol") :: rest)
      /\ resolvers t' = [generateUid t [] "getSymbol"]).
Proof.
  intros H. split.
  - intros Hp. rewrite visitor_without_providers in H by assumption.
    destruct (finalCheck t) as [[]|]; simpl in H; [|discriminate].
    now inversion H.
  - intros Hp Hr.
    destruct (visitor_with_providers generateUid _ _ Hp H)
      as (m & m2 & t3 & m3 & uids & _ & _ & Hrw & ->).
    assert (Hh : headed (generateUid t [] "getSymbol")
                   (clean (fold_left remove (map snd m3)
                             (fold_left (finalize (generateUid t [] "getSymbol"))
                                (map snd m3) t3)))).
    { apply headed_clean.
      apply headed_fold; [intros; now apply headed_remove|].
      apply headed_fold; [intros; now apply headed_finalize|].
      eapply headed_rewrite_all; [exact Hrw|].
      exists (program_body t). split; [reflexivity | exact Hr]. }
    destruct Hh as [rest [Hb Hrest]]. split; [now exists rest|].
    unfold resolvers. rewrite Hb. simpl. now rewrite Hrest.
Qed.

Lemma resolver_follows_providers_witness :
  resolvers (Program [GetSymbolDeclaration "_getSymbol"])
    = [Samples.sample_generateUid Samples.provider_only [] "getSymbol"].
Proof.
  apply (resolver_follows_providers Samples.sample_generateUid
           Samples.provider_only (Program [GetSymbolDeclaration "_getSymbol"])
           eq_refl).
  - discriminate.
  - reflexivity.
Defined.


(** ** The symbols of the namespaces along the pass *)

Lemma every_namespace_set (P : TraitNamespace -> Prop) (m : registry)
    (key : blockpath) (ns : TraitNamespace) :
  every_namespace P m -> P ns -> every_namespace P (Map_set path_eqb m key ns).
Proof.
  intros Hm Hns k w. rewrite Map_get_set. destruct (path_eqb key k).
  - intros H. now inversion H; subst.
  - apply Hm.
Qed.

Lemma visit_without_symbols (t : program) (ok : bool) (cur : blockpath) (r : nat)
    (l : string) (m m' : registry) :
  visit_LabeledStatement t ok cur r l m = Ok m' ->
  every_namespace (fun ns => symbols ns = []) m ->
  every_namespace (fun ns => symbols ns = []) m'.
Proof.
  unfold visit_LabeledStatement, defaultGet, TraitNamespace_new.
  destruct (String.eqb l "_StraitsProvider"); simpl;
    [|intros H; now inversion H; subst].
  intros H Hm.
  destruct (Map_get path_eqb m cur) as [ns|] eqn:G; simpl in H; unbind; fields;
    repeat apply every_namespace_set; auto; simpl in *; try congruence.
  rewrite <- (Hm _ _ G). congruence.
Qed.

Lemma addProviders_without_symbols (t : program) (key : blockpath)
    (ps : list NodePath) (m m' : registry) :
  addProviders t key ps m = Ok m' ->
  every_namespace (fun ns => symbols ns = []) m ->
  every_namespace (fun ns => symbols ns = []) m'.
Proof.
  unfold addProviders. intros H Hm.
  eapply (foldM_keeps (every_namespace (fun ns => symbols ns = [])));
    [|exact H|exact Hm].
  apply Forall_forall. intros p _ s1 s2 H1 H2.
  destruct (Map_get path_eqb s1 key) as [ns|] eqn:G; unbind; auto.
  fields. apply every_namespace_set; auto. rewrite <- (H2 _ _ G). congruence.
Qed.

Lemma inherit_while_without_symbols (t : program) (key parent : blockpath)
    (m m' : registry) :
  inherit_while t key parent m = Ok m' ->
  every_namespace (fun ns => symbols ns = []) m ->
  every_namespace (fun ns => symbols ns = []) m'.
Proof.
  revert m. induction parent as [|x up IH]; simpl; intros m H Hm.
  - destruct (Map_get path_eqb m []) as [ab|]; simpl in H; unbind; auto.
    eapply addProviders_without_symbols; eauto.
  - destruct (Map_get path_eqb m (x :: up)) as [ab|]; simpl in H; unbind;
      eapply IH; eauto.
    eapply addProviders_without_symbols; eauto.
Qed.

(** The namespaces come out of the first two steps without symbols. *)
Lemma namespaces_start_without_symbols (t t1 : program) (m m2 : registry) :
  collect t = Ok m -> inherit t1 m = Ok m2 ->
  every_namespace (fun ns => symbols ns = []) m2.
Proof.
  intros Hc Hi.
  assert (H0 : every_namespace (fun ns => symbols ns = []) m).
  { eapply (collect_keeps t (every_namespace (fun ns => symbols ns = []))); eauto.
    - intros. eapply visit_without_symbols; eauto.
    - intros k ns H. discriminate. }
  unfold inherit in Hi.
  eapply (foldM_keeps (every_namespace (fun ns => symbols ns = [])));
    [|exact Hi|exact H0].
  apply Forall_forall. intros key _ s s' Hs Hp.
  destruct key as [|r parent]; simpl in Hs; [now inversion Hs; subst|].
  eapply inherit_while_without_symbols; eauto.
Qed.

(** The third step leaves every namespace with pairwise distinct names
    of symbols. *)
Lemma symbols_stay_distinct
    (generateUid : program -> list string -> string -> string)
    (scope : program) (t t' : program) (m m' : registry)
    (uids uids' : list string) :
  rewrite_all generateUid scope t m uids = Ok (t', m', uids') ->
  every_namespace (fun ns => NoDup (map fst (symbols ns))) m ->
  every_namespace (fun ns => NoDup (map fst (symbols ns))) m'.
Proof.
  unfold rewrite_all. intros H Hm.
  apply (foldM_keeps
           (fun acc : program * registry * list string =>
              every_namespace (fun ns => NoDup (map fst (symbols ns)))
                (snd (fst acc)))) in H; auto.
  apply Forall_forall. intros key _ [[t1 m1] u1] [[t2 m2] u2] Hs H1. simpl in *.
  unfold rewrite_one in Hs.
  destruct (Map_get path_eqb m1 key) as [ns|] eqn:G;
    [|now inversion Hs; subst].
  destruct (get_block key t1) as [ss|]; [|now inversion Hs; subst].
  unbind.
  apply (mapM_rw_ok _ (requested_s m1 key) (fun id => dispatch_s id m1 key)) in E;
    [|apply Forall_forall; intros s _ st y st' Hy;
      eapply (proj1 (proj2 (rw_nodes generateUid scope m1))); eauto].
  destruct E as [(_ & _ & _ & Hk & _) _]. simpl in Hk.
  apply every_namespace_set; auto.
  rewrite Hk. apply absorb_NoDup. eapply H1; eauto.
Qed.

(** A template element of which only the cooked text spells the
    placeholder is left as it is. *)
Lemma escaped_element_left_alone :
  cleanString (cooked Samples.escaped_element) = ".*one"
  /\ clean_TemplateElement Samples.escaped_element = Samples.escaped_element.
Proof. split; reflexivity. Qed.


(* ===================================================================== *)
(** * Further properties of the pass *)
(* ===================================================================== *)

(** ** Look up or create *)

(** X1: [defaultGet] answers a key the map holds with the value held,
    leaves the map as it is and never calls the constructor; a key the map
    lacks gets the value the constructor makes, which a later look-up at
    that key finds, the other keys answering as before; and what the
    constructor throws is thrown on. *)
Theorem defaultGet_lookup_or_create {V : Type} (m : list (blockpath * V))
    (key : blockpath) (defaultConstructor : blockpath -> R V) :
  (forall value, Map_get path_eqb m key = Some value ->
     defaultGet path_eqb m key defaultConstructor = Ok (m, value))
  /\ (forall e, Map_get path_eqb m key = None ->
        defaultConstructor key = Throw e ->
        defaultGet path_eqb m key defaultConstructor = Throw e)
  /\ (forall m' value,
        defaultGet path_eqb m key defaultConstructor = Ok (m', value) ->
        Map_get path_eqb m' key = Some value
        /\ Map_has path_eqb m' key = true
        /\ (forall k, k <> key -> Map_get path_eqb m' k = Map_get path_eqb m k)
        /\ (Map_get path_eqb m key = None ->
            defaultConstructor key = Ok value)).
Proof.
  unfold defaultGet, Map_has. repeat split.
  - now intros value ->.
  - now intros e -> ->.
  - destruct (Map_get path_eqb m key) eqn:G.
    + now inversion H; subst.
    + destruct (defaultConstructor key); simpl in H; inversion H; subst.
      now rewrite Map_get_set, path_eqb_refl.
  - destruct (Map_get path_eqb m key) eqn:G.
    + inversion H; subst. now rewrite G.
    + destruct (defaultConstructor key); simpl in H; inversion H; subst.
      now rewrite Map_get_set, path_eqb_refl.
  - intros k Hk. destruct (Map_get path_eqb m key) eqn:G.
    + now inversion H; subst.
    + destruct (defaultConstructor key); simpl in H; inversion H; subst.
      rewrite Map_get_set. destruct (path_eqb key k) eqn:Q; [|reflexivity].
      apply path_eqb_eq in Q. congruence.
  - intros G. rewrite G in H.
    destruct (defaultConstructor key); simpl in H; now inversion H.
Qed.


(** ** What the first step throws *)

Lemma foldM_throws {S A : Type} (E : compile_error -> Prop) (f : A -> S -> R S)
    (l : list A) :
  Forall (fun x => forall s e, f x s = Throw e -> E e) l ->
  forall s e, foldM f l s = Throw e -> E e.
Proof.
  induction 1 as [|x l Hx _ IH]; simpl; intros s e Hf; [discriminate|].
  destruct (f x s) as [s1|e1] eqn:F; simpl in Hf.
  - eauto.
  - inversion Hf; subst. eauto.
Qed.

Lemma foldM_never {S A : Type} (Q : A -> bool) (f : A -> S -> R S) (l : list A) :
  Forall (fun x => Q x = true -> forall s s', f x s <> Ok s') l ->
  existsb Q l = true -> forall s s', foldM f l s <> Ok s'.
Proof.
  induction 1 as [|x l Hx _ IH]; simpl; intros HQ s s' Hf; [discriminate|].
  destruct (f x s) as [s1|e1] eqn:F; simpl in Hf; [|discriminate].
  apply orb_true_iff in HQ as [HQ|HQ].
  - eapply Hx; eauto.
  - eapply IH; eauto.
Qed.

Lemma addProvider_throws (t : program) (ns : TraitNamespace) (p : NodePath)
    (e : compile_error) :
  addProvider t ns p = Throw e -> e = CodeFrameError requires_an_expression.
Proof.
  unfold addProvider. destruct (body_expression t p); intros H; now inversion H.
Qed.

Ltac bind_throw H :=
  match type of H with
  | bind ?m _ = Throw _ =>
      let E := fresh "E" in
      destruct m eqn:E; simpl in H; [|inversion H; subst; clear H]
  end.

Lemma visit_throws (t : program) (ok : bool) (cur : blockpath) (r : nat)
    (l : string) (m : registry) (e : compile_error) :
  visit_LabeledStatement t ok cur r l m = Throw e -> collect_error e.
Proof.
  unfold visit_LabeledStatement, collect_error, defaultGet, TraitNamespace_new.
  destruct (negb (String.eqb l "_StraitsProvider")); [discriminate|].
  destruct ok; simpl; [|intros H; inversion H; now left].
  destruct (Map_get path_eqb m cur) as [ns|]; simpl.
  - intros H. bind_throw H; [discriminate|].
    right. eapply addProvider_throws; eauto.
  - destruct (addProvider t _ (mkNodePath r cur)) as [ns|x] eqn:E; simpl.
    + intros H. bind_throw H; [discriminate|].
      right. eapply addProvider_throws; eauto.
    + intros H. inversion H; subst. right. eapply addProvider_throws; eauto.
Qed.

Lemma collect_throws_nodes (t : program) :
  (forall e cur m x, collect_e t cur e m = Throw x -> collect_error x) /\
  (forall s ok cur m x, collect_s t ok cur s m = Throw x -> collect_error x) /\
  (forall b cur m x, collect_b t cur b m = Throw x -> collect_error x).
Proof.
  apply node_ind; simpl; intros;
    try discriminate;
    repeat match goal with H : bind _ _ = Throw _ |- _ => bind_throw H end;
    eauto using visit_throws;
    try (eapply foldM_throws; [|eassumption];
         eapply Forall_impl; [|eassumption]; simpl; intros; eauto; fail).
Qed.

Lemma collect_throws (t : program) (e : compile_error) :
  collect t = Throw e -> collect_error e.
Proof.
  unfold collect. apply foldM_throws.
  apply Forall_forall. intros s _ m x. apply collect_throws_nodes.
Qed.

Lemma collect_misplaced_nodes (t : program) :
  (forall e, misplaced_e e = true ->
     forall cur m m', collect_e t cur e m <> Ok m') /\
  (forall s ok, misplaced_s ok s = true ->
     forall cur m m', collect_s t ok cur s m <> Ok m') /\
  (forall b, misplaced_b b = true ->
     forall cur m m', collect_b t cur b m <> Ok m').
Proof.
  apply node_ind; simpl; intros; try discriminate;
    try match goal with |- ?x <> Ok _ => intros Hc end;
    repeat match goal with H : bind _ _ = Ok _ |- _ => bind_ok H end;
    repeat match goal with
      | H : _ || _ = true |- _ => apply orb_true_iff in H; destruct H
      end;
    try (match goal with
         | IH : forall _, _ -> forall _ _ _, _ <> Ok _ |- _ => eapply IH; eauto; fail
         | IH : _ -> forall _ _ _, _ <> Ok _ |- _ => eapply IH; eauto; fail
         end);
    try (eapply foldM_never; [| |eassumption]; [|eassumption];
         eapply Forall_impl; [|eassumption]; simpl; intros; eauto; fail).
  apply andb_true_iff in H0 as [Hl Hok]. destruct ok; [discriminate|].
  unfold visit_LabeledStatement in E. rewrite Hl in E. discriminate.
Qed.

(** X2: a provider statement that is the body of a labeled statement or
    of an [if], so whose parent is neither a block nor the program, makes
    the first step throw, and the pass with it; what the first step throws
    is the assertion on the parent or the error of a provider statement
    without expression. *)
Theorem misplaced_provider_refused
    (generateUid : program -> list string -> string -> string) (t : program) :
  misplaced t = true ->
  exists e,
    collect t = Throw e
    /\ collect_error e
    /\ Program_visitor generateUid t = Throw e.
Proof.
  intros H. destruct (collect t) as [m|e] eqn:C.
  - exfalso. revert C. unfold collect. apply foldM_never with (Q := misplaced_s true).
    + apply Forall_forall. intros s _ Hs m1 m2.
      now apply (collect_misplaced_nodes t).
    + exact H.
  - exists e. repeat split.
    + exact (collect_throws _ _ C).
    + unfold Program_visitor. now rewrite C.
Qed.

Lemma misplaced_provider_refused_witness :
  misplaced Samples.provider_under_if = true
  /\ exists e,
       collect Samples.provider_under_if = Throw e
       /\ collect_error e
       /\ Program_visitor Samples.sample_generateUid Samples.provider_under_if
            = Throw e.
Proof.
  split; [reflexivity|].
  apply (misplaced_provider_refused Samples.sample_generateUid
           Samples.provider_under_if).
  reflexivity.
Defined.



(** ** The namespaces the first step finds *)

Lemma Map_set_keys_mono {V : Type} (m : list (blockpath * V)) (key : blockpath)
    (v : V) (c : blockpath) :
  In c (map fst m) -> In c (map fst (Map_set path_eqb m key v)).
Proof.
  induction m as [|[k w] m IH]; simpl; [tauto|].
  destruct (path_eqb k key); simpl; tauto.
Qed.

Lemma Map_set_key_In {V : Type} (m : list (blockpath * V)) (key : blockpath) (v : V) :
  In key (map fst (Map_set path_eqb m key v)).
Proof.
  induction m as [|[k w] m IH]; simpl; [now left|].
  destruct (path_eqb k key) eqn:Q; simpl; [|now right].
  left. now apply path_eqb_eq.
Qed.

Lemma Map_set_NoDup {V : Type} (m : list (blockpath * V)) (key : blockpath) (v : V) :
  NoDup (map fst m) -> NoDup (map fst (Map_set path_eqb m key v)).
Proof.
  induction m as [|[k w] m IH]; simpl; intros H.
  - constructor; [tauto|constructor].
  - inversion H as [|? ? Hk Hm]; subst.
    destruct (path_eqb k key) eqn:Q; simpl; [now constructor|].
    constructor; [|auto].
    intros Hin. apply Map_set_keys_In in Hin as [Hin| ->]; [tauto|].
    rewrite path_eqb_refl in Q. discriminate.
Qed.

Lemma visit_covers (t : program) (ok : bool) (cur : blockpath) (r : nat)
    (l : string) (m m' : registry) :
  visit_LabeledStatement t ok cur r l m = Ok m' ->
  (forall c, In c (map fst m) -> In c (map fst m'))
  /\ (String.eqb l "_StraitsProvider" = true -> In cur (map fst m')).
Proof.
  unfold visit_LabeledStatement, defaultGet.
  destruct (String.eqb l "_StraitsProvider"); simpl.
  - intros H. bind_ok H.
    destruct (Map_get path_eqb m cur) as [ns|] eqn:G; simpl in H.
    + bind_ok H. inversion H; subst.
      split; intros; auto using Map_set_keys_mono, Map_set_key_In.
    + destruct (TraitNamespace_new t ok (mkNodePath r cur)) as [ns|];
        simpl in H; [|discriminate].
      bind_ok H. inversion H; subst.
      split; intros; auto using Map_set_keys_mono, Map_set_key_In.
  - intros H. inversion H; subst. split; [auto|discriminate].
Qed.

Lemma foldM_covers {S A : Type} (K : S -> list blockpath) (f : A -> S -> R S)
    (G : A -> blockpath -> Prop) (l : list A) :
  Forall (fun x => forall s s', f x s = Ok s' ->
            (forall c, In c (K s) -> In c (K s'))
            /\ (forall c, G x c -> In c (K s'))) l ->
  forall s s', foldM f l s = Ok s' ->
    (forall c, In c (K s) -> In c (K s'))
    /\ (forall x c, In x l -> G x c -> In c (K s')).
Proof.
  induction 1 as [|x l Hx _ IH]; simpl; intros s s' Hf.
  - inversion Hf; subst. split; [auto|tauto].
  - destruct (f x s) as [s1|] eqn:F; simpl in Hf; [|discriminate].
    destruct (Hx _ _ F) as [H1 H2]. destruct (IH _ _ Hf) as [H3 H4].
    split; [auto|]. intros y c [<-|Hy] Hc; eauto.
Qed.


Lemma collect_covers_nodes (t : program) :
  (forall e cur m m', collect_e t cur e m = Ok m' ->
     (forall c, In c (map fst m) -> In c (map fst m'))
     /\ (forall c, In c (governed_e cur e) -> In c (map fst m'))) /\
  (forall s ok cur m m', collect_s t ok cur s m = Ok m' ->
     (forall c, In c (map fst m) -> In c (map fst m'))
     /\ (forall c, (is_provider s = true /\ c = cur) \/ In c (governed_s cur s) ->
           In c (map fst m'))) /\
  (forall b cur m m', collect_b t cur b m = Ok m' ->
     (forall c, In c (map fst m) -> In c (map fst m'))
     /\ (forall c, In c (governed_b cur b) -> In c (map fst m'))).
Proof.
  apply node_ind; simpl; intros;
    repeat match goal with H : bind _ _ = Ok _ |- _ => bind_ok H end;
    try match goal with H : Ok _ = Ok _ |- _ => inversion H; subst; clear H end;
    repeat match goal with
      | IH : (forall cur m m', collect_e t cur ?e m = Ok m' -> _),
        E : collect_e t _ ?e _ = Ok _ |- _ => apply IH in E; destruct E
      | IH : (forall ok cur m m', collect_s t ok cur ?e m = Ok m' -> _),
        E : collect_s t _ _ ?e _ = Ok _ |- _ => apply IH in E; destruct E
      | IH : (forall cur m m', collect_b t cur ?e m = Ok m' -> _),
        E : collect_b t _ ?e _ = Ok _ |- _ => apply IH in E; destruct E
      | E : visit_LabeledStatement _ _ _ _ _ _ = Ok _ |- _ =>
          apply visit_covers in E; destruct E
      | H : foldM (collect_e t ?cur) ?l _ = Ok _, F : Forall _ ?l |- _ =>
          apply (foldM_covers (map fst) _ (fun x c => In c (governed_e cur x))) in H;
          [destruct H|eapply Forall_impl; [|exact F]; simpl; intros; eauto]; clear F
      | H : foldM (fun d => collect_e t ?cur (snd d)) ?l _ = Ok _, F : Forall _ ?l |- _ =>
          apply (foldM_covers (map fst) _ (fun x c => In c (governed_e cur (snd x)))) in H;
          [destruct H|eapply Forall_impl; [|exact F]; simpl; intros; eauto]; clear F
      | H : foldM (collect_s t true ?cur) ?l _ = Ok _, F : Forall _ ?l |- _ =>
          apply (foldM_covers (map fst) _
                   (fun x c => (is_provider x = true /\ c = cur)
                               \/ In c (governed_s cur x))) in H;
          [destruct H|eapply Forall_impl; [|exact F]; simpl; intros; eauto]; clear F
      end;
    (split; [now auto|]); (let c := fresh "c" in intros c ?);
    repeat match goal with
      | H : In _ (_ ++ _) |- _ => apply in_app_iff in H; destruct H
      | H : _ \/ _ |- _ => destruct H
      | H : _ /\ _ |- _ => destruct H
      | H : In _ (flat_map _ _) |- _ => apply in_flat_map in H; destruct H as [? [? ?]]
      end;
    subst; try discriminate; try contradiction; eauto.
  unfold governs in *. destruct (existsb is_provider ss) eqn:G; [|contradiction].
  destruct H as [<-|[]]. apply existsb_exists in G as [x [Hx Hp]]. eauto.
Qed.

Lemma collect_keys_NoDup (t : program) (m : registry) :
  collect t = Ok m -> NoDup (map fst m).
Proof.
  intros H. apply (collect_keeps t (fun m => NoDup (map fst m))) in H; auto.
  - clear. intros ok cur r l m m'. unfold visit_LabeledStatement, defaultGet.
    destruct (negb (String.eqb l "_StraitsProvider")).
    + intros E. now inversion E; subst.
    + intros E N. bind_ok E.
      destruct (Map_get path_eqb m cur) as [ns|]; simpl in E.
      * bind_ok E. inversion E; subst. now apply Map_set_NoDup.
      * destruct (TraitNamespace_new t ok (mkNodePath r cur)); simpl in E;
          [|discriminate].
        bind_ok E. inversion E; subst. now repeat apply Map_set_NoDup.
  - constructor.
Qed.

Lemma collect_governed_keys (t : program) (m : registry) :
  collect t = Ok m -> forall c, In c (governed t) -> In c (map fst m).
Proof.
  intros H c Hc. unfold collect in H.
  apply (foldM_covers (map fst) _
           (fun x c => (is_provider x = true /\ c = [])
                       \/ In c (governed_s [] x))) in H.
  - destruct H as [_ H]. unfold governed in Hc.
    apply in_app_iff in Hc as [Hc|Hc].
    + unfold governs in Hc.
      destruct (existsb is_provider (program_body t)) eqn:G; [|contradiction].
      destruct Hc as [<-|[]]. apply existsb_exists in G as [x [Hx Hp]]. eauto.
    + apply in_flat_map in Hc as [x [Hx Hc]]. eauto.
  - apply Forall_forall. intros s _ m1 m2. apply collect_covers_nodes.
Qed.

(** X3: the first step keeps one namespace for each block, or the program,
    that holds a provider statement directly, and for nothing else: the
    keys of the map are the paths of those blocks, each once. *)
Theorem one_namespace_per_governed_block (t : program) (m : registry) :
  collect t = Ok m ->
  NoDup (map fst m)
  /\ (forall c, In c (map fst m) <-> In c (governed t))
  /\ (m = [] <-> provider_count t = 0).
Proof.
  intros H. split; [|split].
  - now apply (collect_keys_NoDup t).
  - intros c. split; [now apply collect_keys_governed|].
    now apply collect_governed_keys.
  - split.
    + intros ->. destruct (Nat.eq_dec (provider_count t) 0) as [|N]; [assumption|].
      now apply (collect_nonempty _ _ H) in N.
    + intros Z. rewrite (collect_nothing _ Z) in H. now inversion H.
Qed.

Lemma one_namespace_per_governed_block_witness :
  NoDup (map fst Samples.nested_namespaces)
  /\ (forall c, In c (map fst Samples.nested_namespaces)
                <-> In c (governed Samples.nested))
  /\ (Samples.nested_namespaces = [] <-> provider_count Samples.nested = 0).
Proof.
  apply (one_namespace_per_governed_block Samples.nested Samples.nested_namespaces).
  reflexivity.
Defined.



Lemma NodePath_eqb_refl (p : NodePath) : NodePath_eqb p p = true.
Proof. now apply NodePath_eqb_eq. Qed.

Lemma NodePath_Set_has_In (l : list NodePath) (p : NodePath) :
  Set_has NodePath_eqb l p = true <-> In p l.
Proof.
  unfold Set_has. rewrite existsb_exists. split.
  - intros [q [Hq E]]. apply NodePath_eqb_eq in E. now subst.
  - intros H. exists p. split; [assumption|apply NodePath_eqb_refl].
Qed.

Lemma Set_add_NoDup (l : list NodePath) (x : NodePath) :
  NoDup l -> NoDup (Set_add NodePath_eqb l x).
Proof.
  intros H. unfold Set_add. destruct (Set_has NodePath_eqb l x) eqn:S; [assumption|].
  apply NoDup_app; [assumption|repeat constructor; tauto|].
  intros a Ha [<-|[]]. apply NodePath_Set_has_In in Ha. congruence.
Qed.

Lemma Set_add_more (l : list NodePath) (x : NodePath) :
  exists more, Set_add NodePath_eqb l x = l ++ more.
Proof.
  unfold Set_add. destruct (Set_has NodePath_eqb l x).
  - exists []. now rewrite app_nil_r.
  - now exists [x].
Qed.

Lemma addProvider_expression (t : program) (ns ns' : TraitNamespace) (p : NodePath) :
  addProvider t ns p = Ok ns' -> body_expression t p <> None.
Proof. unfold addProvider. now destruct (body_expression t p). Qed.

Lemma addProvider_listed (t : program) (ns ns' : TraitNamespace) (p : NodePath) :
  addProvider t ns p = Ok ns' ->
  listed t ns \/ (providers ns = [] /\ p = path ns) ->
  listed t ns'.
Proof.
  intros H L. pose proof (addProvider_expression _ _ _ _ H) as He.
  apply addProvider_fields in H as (Hp & _ & _ & Hs).
  unfold listed. rewrite Hp, Hs. destruct L as [([rest Hr] & N & F)|[E ->]].
  - repeat split.
    + destruct (Set_add_more (providers ns) p) as [more ->].
      rewrite Hr. now exists (rest ++ more).
    + now apply Set_add_NoDup.
    + apply Forall_forall. intros q Hq. apply Set_add_In in Hq as [Hq| ->]; auto.
      eapply Forall_forall in F; eauto.
  - rewrite E. unfold Set_add. simpl. repeat split.
    + now exists [].
    + repeat constructor. tauto.
    + now repeat constructor.
Qed.

Lemma visit_listed (t : program) (ok : bool) (cur : blockpath) (r : nat)
    (l : string) (m m' : registry) :
  visit_LabeledStatement t ok cur r l m = Ok m' ->
  every_namespace (listed t) m -> every_namespace (listed t) m'.
Proof.
  unfold visit_LabeledStatement, defaultGet, TraitNamespace_new.
  destruct (negb (String.eqb l "_StraitsProvider")).
  - intros E. now inversion E; subst.
  - intros E N. destruct ok; simpl in E; [|discriminate].
    destruct (Map_get path_eqb m cur) as [ns|] eqn:G; simpl in E.
    + bind_ok E. inversion E; subst.
      apply every_namespace_set; [assumption|].
      eapply addProvider_listed; eauto.
    + destruct (addProvider t _ (mkNodePath r cur)) as [ns|] eqn:A; simpl in E;
        [|discriminate].
      bind_ok E. inversion E; subst.
      assert (listed t ns) as L
        by (eapply addProvider_listed; [exact A|right; split; reflexivity]).
      repeat apply every_namespace_set; auto.
      eapply addProvider_listed; eauto.
Qed.

Lemma collect_listed (t : program) (m : registry) :
  collect t = Ok m -> every_namespace (listed t) m.
Proof.
  intros H. apply (collect_keeps t (every_namespace (listed t))) in H; auto.
  - intros ok cur r l m1 m2. apply visit_listed.
  - intros k ns G. discriminate.
Qed.

Lemma collect_without_symbols (t : program) (m : registry) :
  collect t = Ok m -> every_namespace (fun ns => symbols ns = []) m.
Proof.
  intros H.
  apply (collect_keeps t (every_namespace (fun ns => symbols ns = []))) in H; auto.
  - intros ok cur r l m1 m2. apply visit_without_symbols.
  - intros k ns G. discriminate.
Qed.


(** X4: a namespace the first step made sits at the key of the block of
    its anchor statement; the anchor is the first of its providers, the
    providers are statements of that block, each listed once and each
    with an expression, and no symbol is known yet. *)
Theorem namespace_after_first_step (t : program) (m : registry) (k : blockpath)
    (ns : TraitNamespace) :
  collect t = Ok m ->
  Map_get path_eqb m k = Some ns ->
  blockPath ns = k
  /\ parentPath (path ns) = k
  /\ (exists rest, providers ns = path ns :: rest)
  /\ NoDup (providers ns)
  /\ (forall p, In p (providers ns) ->
        parentPath p = k /\ exists e, body_expression t p = Some e)
  /\ symbols ns = [].
Proof.
  intros H G.
  destruct (anchored_get (collect_anchored _ _ H) G) as [Ha Hb].
  destruct (collect_listed _ _ H _ _ G) as (Hr & Hn & Hf).
  pose proof (collect_owned _ _ H) as Ho.
  pose proof (collect_without_symbols _ _ H _ _ G) as Hs.
  repeat split; auto.
  - apply (Ho k p). unfold providers_at. now rewrite G.
  - eapply Forall_forall in Hf; eauto.
    destruct (body_expression t p) as [e|]; [now exists e|congruence].
Qed.

Lemma namespace_after_first_step_witness :
  blockPath (mkTraitNamespace (mkNodePath 2 [10]) [10] [mkNodePath 2 [10]] []) = [10]
  /\ parentPath (path (mkTraitNamespace (mkNodePath 2 [10]) [10] [mkNodePath 2 [10]] []))
     = [10]
  /\ (exists rest,
        providers (mkTraitNamespace (mkNodePath 2 [10]) [10] [mkNodePath 2 [10]] [])
        = path (mkTraitNamespace (mkNodePath 2 [10]) [10] [mkNodePath 2 [10]] [])
            :: rest)
  /\ NoDup (providers (mkTraitNamespace (mkNodePath 2 [10]) [10] [mkNodePath 2 [10]] []))
  /\ (forall p,
        In p (providers (mkTraitNamespace (mkNodePath 2 [10]) [10] [mkNodePath 2 [10]] [])) ->
        parentPath p = [10] /\ exists e, body_expression Samples.nested p = Some e)
  /\ symbols (mkTraitNamespace (mkNodePath 2 [10]) [10] [mkNodePath 2 [10]] []) = [].
Proof.
  apply (namespace_after_first_step Samples.nested Samples.nested_namespaces [10]);
    reflexivity.
Defined.

(** ** The second step only appends *)

Lemma grown_refl (ns : TraitNamespace) : grown ns ns.
Proof. repeat split. exists []. now rewrite app_nil_r. Qed.

Lemma grown_trans (a b c : TraitNamespace) : grown a b -> grown b c -> grown a c.
Proof.
  intros (H1 & H2 & H3 & [x Hx]) (K1 & K2 & K3 & [y Hy]).
  repeat split; try congruence. exists (x ++ y). rewrite Hy, Hx. now rewrite app_assoc.
Qed.

Lemma grows_refl (m : registry) : grows m m.
Proof. induction m; constructor; auto using grown_refl. Qed.

Lemma grows_trans (a b c : registry) : grows a b -> grows b c -> grows a c.
Proof.
  intros H. revert c. induction H as [|x y a b [Hk Hg] _ IH]; intros c Hc.
  - inversion Hc. constructor.
  - inversion Hc as [|? z ? c' [Hk' Hg'] Hc']; subst. constructor.
    + split; [congruence|eauto using grown_trans].
    + now apply IH.
Qed.

Lemma grows_set (m : registry) (key : blockpath) (ns ns' : TraitNamespace) :
  Map_get path_eqb m key = Some ns -> grown ns ns' ->
  grows m (Map_set path_eqb m key ns').
Proof.
  induction m as [|[k v] m IH]; simpl; [discriminate|].
  destruct (path_eqb k key); intros G Hg.
  - inversion G; subst. constructor; [now split|apply grows_refl].
  - constructor; [split; [reflexivity|apply grown_refl]|now apply IH].
Qed.

Lemma grows_get (m m' : registry) (k : blockpath) (ns : TraitNamespace) :
  grows m m' -> Map_get path_eqb m k = Some ns ->
  exists ns', Map_get path_eqb m' k = Some ns' /\ grown ns ns'.
Proof.
  induction 1 as [|[k1 v1] [k2 v2] m m' [Hk Hg] _ IH]; simpl; [discriminate|].
  simpl in Hk, Hg. subst k2. destruct (path_eqb k1 k); [|exact IH].
  intros G. inversion G; subst. eauto.
Qed.

Lemma grows_keys (m m' : registry) : grows m m' -> map fst m' = map fst m.
Proof.
  induction 1 as [|x y m m' [Hk _] _ IH]; simpl; [reflexivity|]. now rewrite Hk, IH.
Qed.


(** A property of the namespaces that every call of [addProvider] of the
    second step keeps is kept by the step. *)
Section InheritKeeps.
Variable t : program.
Variable P : registry -> Prop.
Hypothesis add_keeps : forall m key ns ns' p,
  Map_get path_eqb m key = Some ns -> addProvider t ns p = Ok ns' ->
  P m -> P (Map_set path_eqb m key ns').

Lemma addProviders_keeps (key : blockpath) (ps : list NodePath) (m m' : registry) :
  addProviders t key ps m = Ok m' -> P m -> P m'.
Proof.
  unfold addProviders. apply foldM_keeps.
  apply Forall_forall. intros p _ s s' Hs Hp.
  destruct (Map_get path_eqb s key) as [ns|] eqn:G; simpl in Hs.
  - bind_ok Hs. inversion Hs; subst. eauto.
  - now inversion Hs; subst.
Qed.

Lemma inherit_while_keeps (key parent : blockpath) (m m' : registry) :
  inherit_while t key parent m = Ok m' -> P m -> P m'.
Proof.
  revert m m'. induction parent as [|r up IH]; simpl; intros m m' H Hp; bind_ok H.
  - inversion H; subst.
    destruct (Map_get path_eqb m []); [|now inversion E; subst].
    eapply addProviders_keeps; eauto.
  - eapply IH; [exact H|].
    destruct (Map_get path_eqb m (r :: up)); [|now inversion E; subst].
    eapply addProviders_keeps; eauto.
Qed.

Lemma inherit_keeps (m m' : registry) : inherit t m = Ok m' -> P m -> P m'.
Proof.
  unfold inherit. apply foldM_keeps.
  apply Forall_forall. intros key _ s s' Hs Hp.
  destruct key; simpl in Hs; [now inversion Hs; subst|].
  eapply inherit_while_keeps; eauto.
Qed.
End InheritKeeps.

Lemma inherit_grows (t : program) (m m' : registry) :
  inherit t m = Ok m' -> grows m m'.
Proof.
  intros H. apply (inherit_keeps t (grows m)) in H; [assumption| |apply grows_refl].
  intros s key ns ns' p G A Hs.
  eapply grows_trans; [exact Hs|]. eapply grows_set; [exact G|].
  apply addProvider_fields in A as (Hp & Hb & Hy & Hv).
  repeat split; auto. rewrite Hv. apply Set_add_more.
Qed.

Lemma inherit_listed (t : program) (m m' : registry) :
  inherit t m = Ok m' ->
  every_namespace (listed t) m -> every_namespace (listed t) m'.
Proof.
  apply inherit_keeps. intros s key ns ns' p G A Hs.
  apply every_namespace_set; [assumption|].
  eapply addProvider_listed; eauto.
Qed.

(** The resolver put at the head of the unit moves no provider
    statement. *)
Lemma body_expression_unshift (g : string) (t : program) (p : NodePath) :
  body_expression (unshiftContainer (GetSymbolDeclaration g) t) p
    = body_expression t p.
Proof.
  unfold body_expression, path_node, get_block, unshiftContainer.
  destruct (parentPath p) as [|r up]; simpl; reflexivity.
Qed.

Lemma listed_unshift (g : string) (t : program) (ns : TraitNamespace) :
  listed t ns -> listed (unshiftContainer (GetSymbolDeclaration g) t) ns.
Proof.
  intros (Hr & Hn & Hf). repeat split; auto.
  eapply Forall_impl; [|exact Hf]. intros p. now rewrite body_expression_unshift.
Qed.

Lemma listed_expressions (t : program) (ns : TraitNamespace) :
  listed t ns -> List.length (providingExpressions t ns) = List.length (providers ns).
Proof.
  intros (_ & _ & Hf). unfold providingExpressions.
  induction Hf as [|p l Hp _ IH]; simpl; [reflexivity|].
  destruct (body_expression t p); [|congruence]. simpl. now rewrite IH.
Qed.


Lemma NoDup_app_apart {A : Type} (l l' : list A) (a : A) :
  NoDup (l ++ l') -> In a l -> In a l' -> False.
Proof.
  induction l as [|x l IH]; simpl; intros N [].
  - subst. inversion N as [|? ? Hx _]; subst. intros H. apply Hx.
    apply in_app_iff. now right.
  - inversion N; subst. now apply IH.
Qed.

(** X5: the second step changes a namespace in one way only: it appends
    providers after those the namespace had.  The keys and their order,
    the anchor and the symbols stay; what is appended comes from the
    blocks strictly around the block of the namespace; no provider gets
    listed twice; and every provider listed has an expression, so that
    the call of the resolver gets one argument for each. *)
Theorem inheritance_appends (g : string) (t : program) (m m2 : registry) :
  collect t = Ok m ->
  inherit (unshiftContainer (GetSymbolDeclaration g) t) m = Ok m2 ->
  map fst m2 = map fst m
  /\ forall k ns, Map_get path_eqb m k = Some ns ->
       exists ns2 more,
         Map_get path_eqb m2 k = Some ns2
         /\ path ns2 = path ns
         /\ blockPath ns2 = blockPath ns
         /\ symbols ns2 = []
         /\ providers ns2 = providers ns ++ more
         /\ NoDup (providers ns2)
         /\ (forall p, In p more -> above (parentPath p) k)
         /\ List.length
              (providingExpressions (unshiftContainer (GetSymbolDeclaration g) t) ns2)
            = List.length (providers ns2).
Proof.
  intros Hc Hi. pose proof (inherit_grows _ _ _ Hi) as Hg.
  split; [now apply grows_keys|].
  intros k ns G. destruct (grows_get _ _ _ _ Hg G) as [ns2 [G2 (Hp & Hb & Hs & [more Hm])]].
  assert (L : listed (unshiftContainer (GetSymbolDeclaration g) t) ns2).
  { apply (inherit_listed _ _ _ Hi) with (k := k); [|exact G2].
    intros k0 ns0 G0. apply listed_unshift. exact (collect_listed _ _ Hc _ _ G0). }
  exists ns2, more. repeat split; auto.
  - rewrite Hs. exact (collect_without_symbols _ _ Hc _ _ G).
  - now destruct L as (_ & N & _).
  - intros p Hin.
    assert (H0 : inheriting m m).
    { repeat split; auto. intros k0 q Hq. now left. }
    assert (Hd0 : inherited m [] m) by (intros k0 []).
    unfold inherit in Hi.
    destruct (inherit_loop _ m (map fst m) [] m m2 (fun k0 H => H) H0 Hd0 Hi)
      as [(_ & _ & Hup) _].
    assert (Hv : visible m k p).
    { apply Hup. unfold providers_at. rewrite G2, Hm. apply in_app_iff. now right. }
    pose proof (collect_owned _ _ Hc) as Hown.
    destruct Hv as [Hv|[a [Ha Hv]]].
    + exfalso. unfold providers_at in Hv. rewrite G in Hv.
      destruct L as (_ & N & _). rewrite Hm in N.
      exact (NoDup_app_apart _ _ _ N Hv Hin).
    + now rewrite (Hown _ _ Hv).
  - now apply listed_expressions.
Qed.

Lemma inheritance_appends_witness :
  map fst Samples.nested_inherited = map fst Samples.nested_namespaces
  /\ forall k ns, Map_get path_eqb Samples.nested_namespaces k = Some ns ->
       exists ns2 more,
         Map_get path_eqb Samples.nested_inherited k = Some ns2
         /\ path ns2 = path ns
         /\ blockPath ns2 = blockPath ns
         /\ symbols ns2 = []
         /\ providers ns2 = providers ns ++ more
         /\ NoDup (providers ns2)
         /\ (forall p, In p more -> above (parentPath p) k)
         /\ List.length
              (providingExpressions
                 (unshiftContainer (GetSymbolDeclaration "_getSymbol") Samples.nested)
                 ns2)
            = List.length (providers ns2).
Proof.
  apply (inheritance_appends "_getSymbol" Samples.nested); reflexivity.
Defined.


(** ** Symbols are made once *)

(** X6: [provideSymbol] is memoised: asked again for the same name it
    gives the same identifier and changes neither the namespace nor the
    identifiers made so far.  After a call the name is bound to the
    identifier returned; the other names, the anchor and the providers
    are as before; and the host is asked for an identifier only when the
    name was not bound. *)
Theorem provideSymbol_memoised
    (generateUid : program -> list string -> string -> string) (scope : program)
    (symName : string) (st : TraitNamespace * list string) :
  provideSymbol generateUid scope symName
      (snd (provideSymbol generateUid scope symName st))
    = provideSymbol generateUid scope symName st
  /\ Map_get String.eqb
       (symbols (fst (snd (provideSymbol generateUid scope symName st)))) symName
     = Some (fst (provideSymbol generateUid scope symName st))
  /\ (forall n, n <> symName ->
        Map_get String.eqb
          (symbols (fst (snd (provideSymbol generateUid scope symName st)))) n
        = Map_get String.eqb (symbols (fst st)) n)
  /\ providers (fst (snd (provideSymbol generateUid scope symName st)))
     = providers (fst st)
  /\ path (fst (snd (provideSymbol generateUid scope symName st))) = path (fst st)
  /\ (forall id, Map_get String.eqb (symbols (fst st)) symName = Some id ->
        provideSymbol generateUid scope symName st = (id, st))
  /\ (Map_get String.eqb (symbols (fst st)) symName = None ->
        fst (provideSymbol generateUid scope symName st)
          = generateUid scope (snd st) symName
        /\ snd (snd (provideSymbol generateUid scope symName st))
           = snd st ++ [generateUid scope (snd st) symName]).
Proof.
  destruct st as [ns uids]. unfold provideSymbol. simpl.
  destruct (Map_get String.eqb (symbols ns) symName) as [id|] eqn:G; simpl.
  - rewrite G. repeat split; auto; try discriminate. intros id0 H. congruence.
  - rewrite (symbols_set_new _ _ _ G), symbols_get_app, G, String.eqb_refl.
    repeat split; auto; try discriminate.
    intros n Hn. rewrite symbols_get_app.
    destruct (Map_get String.eqb (symbols ns) n); [reflexivity|].
    destruct (String.eqb symName n) eqn:Q; [|reflexivity].
    apply String.eqb_eq in Q. congruence.
Qed.


(** ** What the third step does to a namespace *)

Lemma Map_has_keys (m : registry) (k : blockpath) :
  Map_has path_eqb m k = Set_has path_eqb (map fst m) k.
Proof.
  unfold Map_has. destruct (Map_get path_eqb m k) as [ns|] eqn:G; symmetry.
  - apply Set_has_In. eapply Map_get_key; eauto.
  - apply not_true_iff_false. intros H. apply Set_has_In in H.
    now apply Map_get_None in G.
Qed.

Lemma visit_Identifier_ok (n : string) (u : unit) :
  visit_Identifier n = Ok u -> is_marker n = false.
Proof. unfold visit_Identifier, is_marker. now destruct (String.eqb n "_Straits"). Qed.

Lemma visit_Identifiers_ok (ps : list string) (u : unit) :
  visit_Identifiers ps = Ok u -> existsb is_marker ps = false.
Proof.
  unfold visit_Identifiers. revert u.
  induction ps as [|n ps IH]; simpl; intros u H; [reflexivity|].
  bind_ok H. apply visit_Identifier_ok in E. rewrite E. simpl. destruct a. eauto.
Qed.

Lemma visit_Identifier_throws (n : string) (e : compile_error) :
  visit_Identifier n = Throw e -> e = AssertionError None.
Proof.
  unfold visit_Identifier. destruct (String.eqb n "_Straits"); intros H; now inversion H.
Qed.

Lemma visit_Identifiers_throws (ps : list string) (e : compile_error) :
  visit_Identifiers ps = Throw e -> e = AssertionError None.
Proof.
  unfold visit_Identifiers. apply (foldM_throws (fun e => e = AssertionError None)).
  apply Forall_forall. intros n _ s x. apply visit_Identifier_throws.
Qed.

Lemma mapM_throws {S A B : Type} (E : compile_error -> Prop)
    (f : A -> S -> R (B * S)) (l : list A) :
  Forall (fun x => forall s e, f x s = Throw e -> E e) l ->
  forall s e, mapM f l s = Throw e -> E e.
Proof.
  induction 1 as [|x l Hx _ IH]; simpl; intros s e Hf; [discriminate|].
  destruct (f x s) as [[y s1]|e1] eqn:F; simpl in Hf.
  - destruct (mapM f l s1) as [[ys s2]|e2] eqn:M; simpl in Hf; [discriminate|].
    inversion Hf; subst. eauto.
  - inversion Hf; subst. eauto.
Qed.

Section RewritingThrows.
Variable generateUid : program -> list string -> string -> string.
Variable scope : program.
Variable m : registry.

Ltac throws :=
  repeat match goal with
    | H : bind ?x _ = Throw _ |- _ =>
        let E := fresh "E" in
        destruct x as [[? ?]|?] eqn:E; simpl in H;
        [|inversion H; subst; clear H]
    | H : bind ?x _ = Throw _ |- _ =>
        let E := fresh "E" in
        destruct x as [?|?] eqn:E; simpl in H;
        [|inversion H; subst; clear H]
    | H : Ok _ = Throw _ |- _ => discriminate
    end.

Lemma rw_throws_nodes :
  (forall e cur st x, rw_e generateUid scope m cur e st = Throw x ->
     x = AssertionError None) /\
  (forall s cur st x, rw_s generateUid scope m cur s st = Throw x ->
     x = AssertionError None) /\
  (forall b cur st x, rw_b generateUid scope m cur b st = Throw x ->
     x = AssertionError None).
Proof.
  apply node_ind_deep; intros.
  all: try (simpl in *; throws;
            eauto using visit_Identifier_throws, visit_Identifiers_throws;
            try (eapply (mapM_throws (fun x => x = AssertionError None));
                 [|eassumption];
                 eapply Forall_impl; [|eassumption]; simpl; intros; eauto; fail);
            fail).
  - (* MemberExpression *)
    destruct (access_or_not x) as [[o ->]|Hx].
    + simpl in H1.
      destruct (rw_e generateUid scope m cur o st) as [[o' st1]|] eqn:E;
        simpl in H1; [|inversion H1; subst; eapply H0; eauto].
      destruct (provideSymbol generateUid scope p st1) as [id st2].
      throws; eauto using visit_Identifier_throws.
    + rewrite rw_member_elsewhere in H1 by assumption.
      throws; eauto using visit_Identifier_throws.
  - (* ComputedMemberExpression *)
    destruct (access_or_not x) as [[o ->]|Hx].
    + simpl in H2. throws; eauto.
    + rewrite rw_computed_elsewhere in H2 by assumption. throws; eauto.
  - (* VariableDeclaration *)
    simpl in H0. throws.
    eapply (mapM_throws (fun x => x = AssertionError None)); [|eassumption].
    eapply Forall_impl; [|exact H]. simpl. intros d IH s e Hd.
    throws; eauto using visit_Identifier_throws.
  - (* Block *)
    simpl in H0. destruct (Map_has path_eqb m (r :: cur)); [discriminate|].
    throws.
    eapply (mapM_throws (fun x => x = AssertionError None)); [|eassumption].
    eapply Forall_impl; [|exact H]. simpl. intros; eauto.
Qed.
End RewritingThrows.


(** ** What the pass throws *)

Lemma inherit_throws (t : program) (m : registry) (e : compile_error) :
  inherit t m = Throw e -> e = CodeFrameError requires_an_expression.
Proof.
  assert (Ha : forall key ps s x, addProviders t key ps s = Throw x ->
                 x = CodeFrameError requires_an_expression).
  { intros key ps. unfold addProviders.
    apply (foldM_throws (fun x => x = CodeFrameError requires_an_expression)).
    apply Forall_forall. intros p _ s x Hs.
    destruct (Map_get path_eqb s key) as [ns|]; [|discriminate].
    bind_throw Hs; [discriminate|]. eapply addProvider_throws; eauto. }
  assert (Hw : forall key parent s x, inherit_while t key parent s = Throw x ->
                 x = CodeFrameError requires_an_expression).
  { intros key parent. induction parent as [|r up IH]; simpl; intros s x Hs.
    - bind_throw Hs; [discriminate|].
      destruct (Map_get path_eqb s []); [eauto|discriminate].
    - bind_throw Hs; [eauto|].
      destruct (Map_get path_eqb s (r :: up)); [eauto|discriminate]. }
  unfold inherit.
  apply (foldM_throws (fun x => x = CodeFrameError requires_an_expression)).
  apply Forall_forall. intros key _ s x Hs.
  destruct key; simpl in Hs; [discriminate|eauto].
Qed.

Lemma rewrite_all_throws (generateUid : program -> list string -> string -> string)
    (scope t : program) (m : registry) (uids : list string) (e : compile_error) :
  rewrite_all generateUid scope t m uids = Throw e -> e = AssertionError None.
Proof.
  unfold rewrite_all. apply (foldM_throws (fun x => x = AssertionError None)).
  apply Forall_forall. intros key _ [[t0 m0] u0] x Hs. unfold rewrite_one in Hs.
  destruct (Map_get path_eqb m0 key) as [ns|]; [|discriminate].
  destruct (get_block key t0) as [ss|]; [|discriminate].
  destruct (mapM (rw_s generateUid scope m0 key) ss (ns, u0)) as [[ss' [ns' u']]|x']
    eqn:E; simpl in Hs; [discriminate|].
  inversion Hs; subst.
  eapply (mapM_throws (fun x => x = AssertionError None)); [|exact E].
  apply Forall_forall. intros s _ st x0. apply rw_throws_nodes.
Qed.

Lemma finalCheck_throws (t : program) (e : compile_error) :
  finalCheck t = Throw e -> e = CodeFrameError used_without_traits.
Proof.
  rewrite finalCheck_verdict. unfold verdict.
  destruct (existsb is_marker (identifiers t)); intros H; now inversion H.
Qed.

(** X7: on a unit in which no provider statement lies within another,
    the pass throws one of four errors and no other: from the first
    step the assertion that a provider statement is in a block or in the
    outermost scope, from the first two steps the error of a provider
    statement without expression, from the third step an assertion with
    no message, for a marker that is not the inner property of a trait
    access, and from the final check the error of a marker left.  On a
    unit without provider statement only the last one can be thrown. *)
Theorem pass_errors
    (generateUid : program -> list string -> string -> string) (t : program)
    (e : compile_error) :
  entangled t = false ->
  Program_visitor generateUid t = Throw e ->
  (e = AssertionError (Some must_be_in_block)
   \/ e = CodeFrameError requires_an_expression
   \/ e = AssertionError None
   \/ e = CodeFrameError used_without_traits)
  /\ (provider_count t = 0 -> e = CodeFrameError used_without_traits)
  /\ (e = AssertionError None -> provider_count t <> 0).
Proof.
  intros _ H.
  assert (H0 : provider_count t = 0 -> e = CodeFrameError used_without_traits).
  { intros Z. rewrite (visitor_without_providers _ _ Z) in H.
    bind_throw H; [discriminate|]. eapply finalCheck_throws; eauto. }
  split; [|split; [exact H0|]].
  - unfold Program_visitor in H. bind_throw H.
    + destruct (Nat.eqb (List.length a) 0).
      * bind_throw H; [discriminate|]. do 3 right. eapply finalCheck_throws; eauto.
      * bind_throw H.
        -- destruct (rewrite_all _ _ _ _ _) as [[[t3 m3] u3]|x] eqn:W; simpl in H.
           ++ bind_throw H; [discriminate|]. do 3 right.
              eapply finalCheck_throws; eauto.
           ++ inversion H; subst. right. right. left.
              eapply rewrite_all_throws; eauto.
        -- right. left. eapply inherit_throws; eauto.
    + destruct (collect_throws _ _ E) as [->| ->]; auto.
  - intros -> Z. specialize (H0 Z). discriminate.
Qed.

Lemma pass_errors_witness :
  entangled Samples.provider_of_block = false
  /\ Program_visitor Samples.sample_generateUid Samples.provider_of_block
      = Throw (CodeFrameError requires_an_expression)
  /\ (CodeFrameError requires_an_expression = AssertionError (Some must_be_in_block)
   \/ CodeFrameError requires_an_expression = CodeFrameError requires_an_expression
   \/ CodeFrameError requires_an_expression = AssertionError None
   \/ CodeFrameError requires_an_expression = CodeFrameError used_without_traits)
  /\ (provider_count Samples.provider_of_block = 0 ->
      CodeFrameError requires_an_expression = CodeFrameError used_without_traits)
  /\ (CodeFrameError requires_an_expression = AssertionError None ->
      provider_count Samples.provider_of_block <> 0).
Proof.
  split; [reflexivity|]. split; [reflexivity|].
  apply (pass_errors Samples.sample_generateUid Samples.provider_of_block);
    reflexivity.
Defined.


(** A successful visit leaves no marker outside of the namespaces below,
    and takes the state through calls of [provideSymbol] only: a relation
    on the states that those calls satisfy, and that composes, holds from
    the state before to the state after. *)
Section RewritingKeeps.
Variable generateUid : program -> list string -> string -> string.
Variable scope : program.
Variable m : registry.
Variable Rel : TraitNamespace * list string -> TraitNamespace * list string -> Prop.
Hypothesis Rel_refl : forall st, Rel st st.
Hypothesis Rel_trans : forall a b c, Rel a b -> Rel b c -> Rel a c.
Hypothesis Rel_provide : forall p st,
  Rel st (snd (provideSymbol generateUid scope p st)).

Lemma mapM_keeps {A B : Type} (Q : B -> bool)
    (f : A -> TraitNamespace * list string -> R (B * (TraitNamespace * list string)))
    (l : list A) :
  Forall (fun x => forall st y st', f x st = Ok (y, st') ->
            Q y = false /\ Rel st st') l ->
  forall st ys st', mapM f l st = Ok (ys, st') ->
    existsb Q ys = false /\ Rel st st'.
Proof.
  induction 1 as [|x l Hx _ IH]; simpl; intros st ys st' Hf.
  - inversion Hf; subst. auto.
  - destruct (f x st) as [[y s1]|] eqn:F; simpl in Hf; [|discriminate].
    destruct (mapM f l s1) as [[ys1 s2]|] eqn:M; simpl in Hf; [|discriminate].
    inversion Hf; subst. destruct (Hx _ _ _ F) as [Q1 R1].
    destruct (IH _ _ _ M) as [Q2 R2]. simpl. rewrite Q1, Q2. eauto.
Qed.

Ltac keep_IH :=
  repeat match goal with
    | IH : (forall cur st e' st', rw_e generateUid scope m cur ?e st = Ok (e', st') -> _),
      E : rw_e generateUid scope m _ ?e _ = Ok (_, _) |- _ =>
        apply IH in E; destruct E as [? ?]
    | IH : (forall cur st e' st', rw_s generateUid scope m cur ?e st = Ok (e', st') -> _),
      E : rw_s generateUid scope m _ ?e _ = Ok (_, _) |- _ =>
        apply IH in E; destruct E as [? ?]
    | IH : (forall cur st e' st', rw_b generateUid scope m cur ?e st = Ok (e', st') -> _),
      E : rw_b generateUid scope m _ ?e _ = Ok (_, _) |- _ =>
        apply IH in E; destruct E as [? ?]
    | E : visit_Identifier _ = Ok _ |- _ => apply visit_Identifier_ok in E
    | E : visit_Identifiers _ = Ok _ |- _ => apply visit_Identifiers_ok in E
    end.

Ltac kept :=
  simpl;
  repeat match goal with H : _ = false |- _ => rewrite H; clear H end;
  split; [reflexivity|eauto].

Lemma rw_keeps_nodes :
  (forall e cur st e' st', rw_e generateUid scope m cur e st = Ok (e', st') ->
     exposed_e (map fst m) cur e' = false /\ Rel st st') /\
  (forall s cur st s' st', rw_s generateUid scope m cur s st = Ok (s', st') ->
     exposed_s (map fst m) cur s' = false /\ Rel st st') /\
  (forall b cur st b' st', rw_b generateUid scope m cur b st = Ok (b', st') ->
     exposed_b (map fst m) cur b' = false /\ Rel st st').
Proof.
  apply node_ind_deep; intros.
  all: try (simpl in *; unbind; keep_IH; kept; fail).
  - (* TemplateLiteral *)
    simpl in *. unbind.
    apply (mapM_keeps (exposed_e (map fst m) cur)) in E;
      [|eapply Forall_impl; [|eassumption]; simpl; intros; eauto].
    destruct E. kept.
  - (* MemberExpression *)
    match goal with
    | Hd : (forall o q, _ = MemberExpression o q -> _),
      Hr : rw_e _ _ _ _ _ _ = Ok _ |- _ => rename Hd into IHo; rename Hr into Hrw
    end.
    destruct (access_or_not x) as [[o ->]|Hx].
    + simpl in Hrw.
      destruct (rw_e generateUid scope m cur o st) as [[o' st1]|] eqn:E;
        simpl in Hrw; [|discriminate].
      apply (IHo _ _ eq_refl) in E. destruct E as [S1 P1].
      pose proof (Rel_provide p st1) as Hp.
      destruct (provideSymbol generateUid scope p st1) as [id st2].
      simpl in Hrw, Hp. bind_ok Hrw. bind_ok Hrw. inversion Hrw; subst; clear Hrw.
      keep_IH. kept.
    + rewrite rw_member_elsewhere in Hrw by assumption. unbind. keep_IH. kept.
  - (* ComputedMemberExpression *)
    match goal with
    | Hd : (forall o q, _ = MemberExpression o q -> _),
      Hr : rw_e _ _ _ _ _ _ = Ok _ |- _ => rename Hd into IHo; rename Hr into Hrw
    end.
    destruct (access_or_not x) as [[o ->]|Hx].
    + simpl in Hrw. unbind. apply (IHo _ _ eq_refl) in E. destruct E as [S1 P1].
      keep_IH. kept.
    + rewrite rw_computed_elsewhere in Hrw by assumption. unbind. keep_IH. kept.
  - (* CallExpression *)
    simpl in *. unbind. keep_IH.
    apply (mapM_keeps (exposed_e (map fst m) cur)) in E0;
      [|eapply Forall_impl; [|eassumption]; simpl; intros; eauto].
    destruct E0. kept.
  - (* VariableDeclaration *)
    simpl in *. unbind.
    apply (mapM_keeps (fun d => is_marker (fst d) || exposed_e (map fst m) cur (snd d)))
      in E.
    + destruct E. kept.
    + eapply Forall_impl; [|eassumption]. simpl. intros d IH st0 y st1 Hd.
      unbind. keep_IH. kept.
  - (* Block *)
    simpl in *. destruct (Map_has path_eqb m (r :: cur)) eqn:Hh.
    + unbind. simpl. rewrite <- Map_has_keys, Hh. auto.
    + unbind.
      apply (mapM_keeps (exposed_s (map fst m) (r :: cur))) in E;
        [|eapply Forall_impl; [|eassumption]; simpl; intros; eauto].
      destruct E. simpl. rewrite <- Map_has_keys, Hh. auto.
Qed.
End RewritingKeeps.


(** X8: when the traversal of the body of a namespace succeeds, no marker
    is left in what it walked: the markers still in the body are inside
    the blocks of other namespaces, which the traversal skips. *)
Theorem traversal_leaves_no_marker
    (generateUid : program -> list string -> string -> string) (scope : program)
    (m : registry) (key : blockpath) (ss ss' : list stmt)
    (st st' : TraitNamespace * list string) :
  mapM (rw_s generateUid scope m key) ss st = Ok (ss', st') ->
  existsb (exposed_s (map fst m) key) ss' = false.
Proof.
  intros H.
  apply (mapM_keeps (fun _ _ => True) (fun _ => I) (fun _ _ _ _ _ => I)
           (exposed_s (map fst m) key)) in H; [tauto|].
  apply Forall_forall. intros s _ st0 y st1.
  apply (rw_keeps_nodes generateUid scope m (fun _ _ => True)); auto.
Qed.

Lemma traversal_leaves_no_marker_witness :
  existsb (exposed_s (map fst Samples.nested_namespaces) [])
    (program_body (fst (fst Samples.nested_turn))) = false.
Proof.
  apply (traversal_leaves_no_marker Samples.sample_generateUid Samples.nested
           Samples.nested_namespaces [] (program_body Samples.nested)
           (program_body (fst (fst Samples.nested_turn)))
           (mkTraitNamespace (mkNodePath 1 []) [] [mkNodePath 1 []] [], [])
           (mkTraitNamespace (mkNodePath 1 []) [] [mkNodePath 1 []]
              [("one", "_one")], ["_one"])).
  reflexivity.
Defined.


(** ** The identifiers bound are those the host made *)

Lemma minted_refl (st : TraitNamespace * list string) : minted st st.
Proof.
  repeat split. exists []. simpl. now rewrite !app_nil_r.
Qed.

Lemma minted_trans (a b c : TraitNamespace * list string) :
  minted a b -> minted b c -> minted a c.
Proof.
  intros (H1 & H2 & H3 & [x [Hx Ux]]) (K1 & K2 & K3 & [y [Hy Uy]]).
  repeat split; try congruence. exists (x ++ y).
  rewrite Hy, Hx, Uy, Ux, map_app, !app_assoc. auto.
Qed.

Lemma provideSymbol_minted
    (generateUid : program -> list string -> string -> string) (scope : program)
    (p : string) (st : TraitNamespace * list string) :
  minted st (snd (provideSymbol generateUid scope p st)).
Proof.
  destruct st as [ns uids]. unfold provideSymbol.
  destruct (Map_get String.eqb (symbols ns) p) eqn:G; [apply minted_refl|].
  repeat split. simpl. rewrite (symbols_set_new _ _ _ G).
  now exists [(p, generateUid scope uids p)].
Qed.

Lemma Map_set_same {V : Type} (m : list (blockpath * V)) (key : blockpath) (v : V) :
  Map_get path_eqb m key = Some v -> Map_set path_eqb m key v = m.
Proof.
  induction m as [|[k w] m IH]; simpl; [discriminate|].
  destruct (path_eqb k key); intros G; [now inversion G|]. now rewrite IH.
Qed.

Lemma rewrite_one_minted
    (generateUid : program -> list string -> string -> string) (scope : program)
    (key : blockpath) (t t' : program) (m m' : registry) (uids uids' : list string)
    (ns : TraitNamespace) :
  rewrite_one generateUid scope key (t, m, uids) = Ok (t', m', uids') ->
  Map_get path_eqb m key = Some ns ->
  exists ns', m' = Map_set path_eqb m key ns' /\ minted (ns, uids) (ns', uids').
Proof.
  unfold rewrite_one. intros H G. rewrite G in H.
  destruct (get_block key t) as [ss|].
  - destruct (mapM (rw_s generateUid scope m key) ss (ns, uids))
      as [[ss' [ns' u']]|] eqn:E; simpl in H; [|discriminate].
    inversion H; subst. exists ns'. split; [reflexivity|].
    apply (mapM_keeps minted minted_refl minted_trans (fun _ => false)) in E;
      [tauto|].
    apply Forall_forall. intros s _ st0 y st1 Hs.
    apply (rw_keeps_nodes generateUid scope m minted minted_refl minted_trans
             (provideSymbol_minted generateUid scope)) in Hs.
    tauto.
  - inversion H; subst. exists ns. split; [|apply minted_refl].
    symmetry. now apply Map_set_same.
Qed.


Lemma Map_get_app_skip {V : Type} (pre l : list (blockpath * V)) (k : blockpath) :
  ~ In k (map fst pre) -> Map_get path_eqb (pre ++ l) k = Map_get path_eqb l k.
Proof.
  induction pre as [|[k0 v0] pre IH]; simpl; intros H; [reflexivity|].
  destruct (path_eqb k0 k) eqn:Q; [|tauto].
  apply path_eqb_eq in Q. tauto.
Qed.

Lemma Map_set_app_skip {V : Type} (pre l : list (blockpath * V)) (k : blockpath)
    (v : V) :
  ~ In k (map fst pre) ->
  Map_set path_eqb (pre ++ l) k v = pre ++ Map_set path_eqb l k v.
Proof.
  induction pre as [|[k0 v0] pre IH]; simpl; intros H; [reflexivity|].
  destruct (path_eqb k0 k) eqn:Q; [apply path_eqb_eq in Q; tauto|].
  rewrite IH; tauto.
Qed.

Lemma bound_identifiers_app (a b : registry) :
  bound_identifiers (a ++ b) = bound_identifiers a ++ bound_identifiers b.
Proof. unfold bound_identifiers. apply flat_map_app. Qed.

Lemma rewrite_loop_minted
    (generateUid : program -> list string -> string -> string) (scope : program)
    (post : registry) :
  forall (pre : registry) (t : program) (uids : list string)
         (t' : program) (m' : registry) (uids' : list string),
  NoDup (map fst (pre ++ post)) ->
  Forall (fun kv => symbols (snd kv) = []) post ->
  foldM (rewrite_one generateUid scope) (map fst post) (t, pre ++ post, uids)
    = Ok (t', m', uids') ->
  exists made,
    uids' = uids ++ made
    /\ bound_identifiers m' = bound_identifiers pre ++ made.
Proof.
  induction post as [|[k ns] post IH]; simpl; intros pre t uids t' m' uids' N F H.
  - inversion H; subst. exists []. now rewrite !app_nil_r.
  - inversion F as [|? ? Hns F']; subst. simpl in Hns.
    assert (Hk : ~ In k (map fst pre)).
    { rewrite map_app in N. simpl in N. intros Hin.
      apply NoDup_remove_2 in N. apply N. apply in_app_iff. now left. }
    bind_ok H. destruct a as [[t1 m1] u1].
    change (rewrite_one generateUid scope k (t, pre ++ (k, ns) :: post, uids)
            = Ok (t1, m1, u1)) in E.
    apply rewrite_one_minted with (ns := ns) in E;
      [|rewrite Map_get_app_skip by assumption; simpl; now rewrite path_eqb_refl].
    destruct E as [ns' [-> (_ & _ & _ & [added [Hs Hu]])]].
    simpl in Hs, Hu. rewrite Hns in Hs. simpl in Hs.
    rewrite Map_set_app_skip in H by assumption. simpl in H.
    rewrite path_eqb_refl in H.
    change (pre ++ (k, ns') :: post) with (pre ++ [(k, ns')] ++ post) in H.
    rewrite app_assoc in H. apply IH in H; [|
      rewrite <- app_assoc, map_app; simpl; now rewrite map_app in N |assumption].
    destruct H as [made [-> Hb]]. exists (map snd added ++ made).
    rewrite Hu, Hb, bound_identifiers_app, <- !app_assoc.
    unfold bound_identifiers at 2. simpl. rewrite Hs, app_nil_r. auto.
Qed.


Lemma every_namespace_Forall (P : TraitNamespace -> Prop) (m : registry) :
  NoDup (map fst m) -> every_namespace P m -> Forall (fun kv => P (snd kv)) m.
Proof.
  induction m as [|[k v] m IH]; simpl; intros N H; constructor.
  - apply (H k). simpl. now rewrite path_eqb_refl.
  - inversion N as [|? ? Hk N']; subst. apply IH; [assumption|].
    intros k' ns G. apply (H k'). simpl.
    destruct (path_eqb k k') eqn:Q; [|assumption].
    apply path_eqb_eq in Q. subst. apply Map_get_key in G. tauto.
Qed.

(** X9: the identifiers that the namespaces bind after the third step,
    read namespace after namespace in the order of the map, are the
    identifiers the host was asked for during the step, in the order of
    the calls; the step asks for no identifier it does not bind.  So when
    the host never repeats itself, no identifier is bound twice, within a
    namespace or across namespaces, and none is one made before the step,
    such as the name of the resolver. *)
Theorem bound_identifiers_are_the_hosts
    (generateUid : program -> list string -> string -> string)
    (scope t t1 t2 t3 : program) (m m2 m3 : registry) (uids uids3 : list string) :
  collect t = Ok m ->
  inherit t1 m = Ok m2 ->
  rewrite_all generateUid scope t2 m2 uids = Ok (t3, m3, uids3) ->
  uids3 = uids ++ bound_identifiers m3
  /\ (NoDup uids3 ->
      NoDup (bound_identifiers m3)
      /\ forall id, In id (bound_identifiers m3) -> ~ In id uids).
Proof.
  intros Hc Hi Hr.
  assert (N : NoDup (map fst m2)).
  { destruct (inherit_shape _ _ _ Hi) as [-> _]. now apply (collect_keys_NoDup t). }
  pose proof (every_namespace_Forall _ _ N
                (namespaces_start_without_symbols _ _ _ _ Hc Hi)) as F.
  unfold rewrite_all in Hr.
  destruct (rewrite_loop_minted generateUid scope m2 [] t2 uids t3 m3 uids3 N F Hr)
    as [made [Hu Hb]].
  simpl in Hb. rewrite Hb. split; [exact Hu|].
  intros Nu. rewrite Hu in Nu. split.
  - now apply NoDup_app_remove_l in Nu.
  - intros id Hid Hin. exact (NoDup_app_apart _ _ _ Nu Hin Hid).
Qed.

Lemma bound_identifiers_are_the_hosts_witness :
  snd Samples.nested_rewritten
    = ["_getSymbol"] ++ bound_identifiers (snd (fst Samples.nested_rewritten))
  /\ (NoDup (snd Samples.nested_rewritten) ->
      NoDup (bound_identifiers (snd (fst Samples.nested_rewritten)))
      /\ forall id, In id (bound_identifiers (snd (fst Samples.nested_rewritten))) ->
                    ~ In id ["_getSymbol"]).
Proof.
  apply (bound_identifiers_are_the_hosts Samples.sample_generateUid
           Samples.nested Samples.nested Samples.nested Samples.nested
           (fst (fst Samples.nested_rewritten))
           Samples.nested_namespaces Samples.nested_inherited
           (snd (fst Samples.nested_rewritten)) ["_getSymbol"]
           (snd Samples.nested_rewritten)); reflexivity.
Defined.


(** ** Where the declaration goes *)

Lemma find_labeled_split (r : nat) (ss : list stmt) (s : stmt) :
  find_labeled r ss = Some s ->
  exists pre post l b,
    s = LabeledStatement r l b
    /\ ss = pre ++ s :: post
    /\ find_labeled r pre = None.
Proof.
  induction ss as [|x ss IH]; simpl; [discriminate|].
  destruct x as [e|r' l b|b|k ds|i ps b|e|e s'|g];
    try (intros H; destruct (IH H) as (pre & post & l0 & b0 & -> & -> & Hn);
         eexists (_ :: pre), post, l0, b0; repeat split; auto; fail).
  destruct (Nat.eqb r' r) eqn:Q.
  - apply Nat.eqb_eq in Q. subst. intros H. inversion H; subst.
    now exists [], ss, l, b.
  - intros H. destruct (IH H) as (pre & post & l0 & b0 & -> & -> & Hn).
    exists (LabeledStatement r' l b :: pre), post, l0, b0. repeat split.
    simpl. now rewrite Q.
Qed.

Lemma insert_before_app (r : nat) (new : stmt) (pre l : list stmt) :
  find_labeled r pre = None ->
  insert_before r new (pre ++ l) = pre ++ insert_before r new l.
Proof.
  induction pre as [|x pre IH]; simpl; [reflexivity|].
  destruct x; try (intros H; now rewrite IH).
  destruct (Nat.eqb ref r); [discriminate|]. intros H. now rewrite IH.
Qed.

Lemma remove_labeled_app (r : nat) (pre l : list stmt) :
  find_labeled r pre = None ->
  remove_labeled r (pre ++ l) = pre ++ remove_labeled r l.
Proof.
  induction pre as [|x pre IH]; simpl; [reflexivity|].
  destruct x; try (intros H; now rewrite IH).
  destruct (Nat.eqb ref r); [discriminate|]. intros H. now rewrite IH.
Qed.


Lemma first_some_written {A B : Type} (f : A -> option B) (g : A -> A) (new : B)
    (l : list A) :
  Forall (fun x => f (g x) = written new (f x)) l ->
  first_some f (map g l) = written new (first_some f l).
Proof.
  induction 1 as [|x l Hx _ IH]; simpl; [reflexivity|].
  rewrite Hx. destruct (f x); simpl; [reflexivity|exact IH].
Qed.

Lemma get_set_nodes (target : blockpath) (new : list stmt) :
  (forall e cur, get_e target cur (set_e target new cur e)
                 = written new (get_e target cur e)) /\
  (forall s cur, get_s target cur (set_s target new cur s)
                 = written new (get_s target cur s)) /\
  (forall b cur, get_b target cur (set_b target new cur b)
                 = written new (get_b target cur b)).
Proof.
  apply node_ind; simpl; intros; auto;
    repeat match goal with
      | H : forall cur, _ = written _ _ |- _ => rewrite H; clear H
      end;
    repeat match goal with
      | |- context [match get_e ?t ?c ?e with _ => _ end] => destruct (get_e t c e); simpl
      end;
    auto;
    try (apply first_some_written; eapply Forall_impl; [|eassumption];
         simpl; intros; auto; fail).
  destruct (path_eqb (r :: cur) target) eqn:Q; simpl; rewrite Q; [reflexivity|].
  apply first_some_written. eapply Forall_impl; [|exact H]. simpl. auto.
Qed.

Lemma get_block_set_block (target : blockpath) (new : list stmt) (t : program) :
  get_block target (set_block target new t) = written new (get_block target t).
Proof.
  destruct target as [|r up]; [reflexivity|]. simpl.
  apply first_some_written. apply Forall_forall. intros s _.
  apply get_set_nodes.
Qed.

Lemma map_map_over {A : Type} (f g : A -> A) (l : list A) :
  Forall (fun x => f (g x) = f x) l -> map f (map g l) = map f l.
Proof. induction 1; simpl; congruence. Qed.

Lemma set_set_nodes (target : blockpath) (a b : list stmt) :
  (forall e cur, set_e target b cur (set_e target a cur e) = set_e target b cur e) /\
  (forall s cur, set_s target b cur (set_s target a cur s) = set_s target b cur s) /\
  (forall x cur, set_b target b cur (set_b target a cur x) = set_b target b cur x).
Proof.
  apply node_ind; simpl; intros; auto;
    repeat match goal with
      | H : forall cur, _ = _ |- _ => rewrite H; clear H
      end;
    auto;
    try (f_equal; apply map_map_over; eapply Forall_impl; [|eassumption];
         simpl; intros; auto; fail).
  - f_equal. apply map_map_over. eapply Forall_impl; [|exact H].
    simpl. intros d Hd. now rewrite Hd.
  - destruct (path_eqb (r :: cur) target) eqn:Q; simpl; rewrite Q; [reflexivity|].
    f_equal. apply map_map_over. eapply Forall_impl; [|exact H]. simpl. auto.
Qed.

Lemma set_block_set_block (target : blockpath) (a b : list stmt) (t : program) :
  set_block target b (set_block target a t) = set_block target b t.
Proof.
  destruct target as [|r up]; [reflexivity|]. simpl. f_equal.
  apply map_map_over. apply Forall_forall. intros s _. apply set_set_nodes.
Qed.




(** X10: [finalize] and then [remove] put the declaration where the
    anchor statement of the namespace was, and touch nothing else in the
    body that held it: [finalize] inserts the declaration just before the
    anchor, and does nothing for a namespace without symbols; [remove]
    takes the anchor away. *)
Theorem declaration_replaces_anchor (g : string) (t : program)
    (ns : TraitNamespace) (anchor : stmt) :
  path_node t (path ns) = Some anchor ->
  exists pre post,
    get_block (parentPath (path ns)) t = Some (pre ++ anchor :: post)
    /\ find_labeled (node (path ns)) pre = None
    /\ (symbols ns = [] ->
        finalize g t ns = t
        /\ remove (finalize g t ns) ns
           = set_block (parentPath (path ns)) (pre ++ post) t)
    /\ (symbols ns <> [] ->
        finalize g t ns
          = set_block (parentPath (path ns))
              (pre ++ declaration g t ns :: anchor :: post) t
        /\ remove (finalize g t ns) ns
           = set_block (parentPath (path ns))
               (pre ++ declaration g t ns :: post) t).
Proof.
  unfold path_node. destruct (get_block (parentPath (path ns)) t) as [ss|] eqn:G;
    [|discriminate].
  intros F. destruct (find_labeled_split _ _ _ F) as (pre & post & l & b & -> & -> & Hn).
  exists pre, post. split; [reflexivity|]. split; [exact Hn|].
  unfold finalize, remove, path_remove, insertBefore. split.
  - intros ->. simpl. rewrite G. split; [reflexivity|].
    rewrite remove_labeled_app by assumption. simpl. now rewrite Nat.eqb_refl.
  - intros Hs. destruct (symbols ns) as [|entry rest] eqn:S; [congruence|].
    simpl. rewrite G. rewrite insert_before_app by assumption. simpl.
    rewrite Nat.eqb_refl. split; [reflexivity|].
    rewrite get_block_set_block, G. simpl. rewrite set_block_set_block.
    rewrite remove_labeled_app by assumption. unfold declaration. simpl.
    now rewrite Nat.eqb_refl.
Qed.

Lemma declaration_replaces_anchor_witness :
  exists pre post,
    get_block [] Samples.two_providers
      = Some (pre ++ Samples.provider 1 (Identifier "a") :: post)
    /\ find_labeled 1 pre = None
    /\ remove
         (finalize "_getSymbol" Samples.two_providers
            (mkTraitNamespace (mkNodePath 1 []) []
               [mkNodePath 1 []; mkNodePath 2 []] [("one", "_one")]))
         (mkTraitNamespace (mkNodePath 1 []) []
            [mkNodePath 1 []; mkNodePath 2 []] [("one", "_one")])
       = set_block []
           (pre ++ declaration "_getSymbol" Samples.two_providers
                     (mkTraitNamespace (mkNodePath 1 []) []
                        [mkNodePath 1 []; mkNodePath 2 []] [("one", "_one")])
                :: post)
           Samples.two_providers.
Proof.
  destruct (declaration_replaces_anchor "_getSymbol" Samples.two_providers
              (mkTraitNamespace (mkNodePath 1 []) []
                 [mkNodePath 1 []; mkNodePath 2 []] [("one", "_one")])
              (Samples.provider 1 (Identifier "a")) eq_refl)
    as (pre & post & G & Hn & _ & H).
  exists pre, post. split; [exact G|]. split; [exact Hn|].
  apply H. discriminate.
Defined.


(** ** Literals *)

Lemma cleanString_plain (str : string) : plain str -> cleanString str = str.
Proof.
  intros [H1 H2]. unfold cleanString.
  rewrite (replace_idle "._Straits" match_Straits ".*" _ match_Straits_None H1).
  apply (replace_idle "_StraitsProvider:" match_StraitsProvider _ _
           match_StraitsProvider_None H2).
Qed.

Lemma cleanString_fixed (str : string) : cleanString str = str <-> plain str.
Proof.
  split; [|apply cleanString_plain].
  intros H. rewrite <- H. apply cleanString_spells.
Qed.

(** X11: [cleanString] leaves a text as it is exactly when the text
    spells neither placeholder, and what it returns never spells one; so
    the [StringLiteral] visitor replaces a literal exactly when its text
    spells a placeholder, and a replaced literal is one the visitor would
    leave alone. *)
Theorem cleanString_fixed_points (str : string) :
  (cleanString str = str <-> plain str)
  /\ plain (cleanString str)
  /\ cleanString (cleanString str) = cleanString str
  /\ (clean_StringLiteral str = StringLiteral str <-> plain str)
  /\ clean_e (clean_StringLiteral str) = clean_StringLiteral str.
Proof.
  split; [apply cleanString_fixed|]. split; [apply cleanString_spells|].
  split; [apply cleanString_idempotent|]. split.
  - rewrite clean_StringLiteral_eq, <- cleanString_fixed.
    split; [congruence|now intros ->].
  - rewrite clean_StringLiteral_eq. simpl.
    now rewrite clean_StringLiteral_eq, cleanString_idempotent.
Qed.

(** X12: the [TemplateElement] visitor leaves an element as it is as soon
    as one of its two texts, raw or cooked, spells no placeholder, even
    when the other one does; otherwise it patches both.  So the two texts
    change together or not at all, [tail] is kept, and a patched element
    is one the visitor would leave alone. *)
Theorem template_element_guard (q : TemplateElement) :
  (clean_TemplateElement q = q <-> plain (raw q) \/ plain (cooked q))
  /\ (~ plain (raw q) -> ~ plain (cooked q) ->
      clean_TemplateElement q
        = mkTemplateElement (cleanString (raw q)) (cleanString (cooked q)) (tail q))
  /\ (raw (clean_TemplateElement q) = raw q
      <-> cooked (clean_TemplateElement q) = cooked q)
  /\ tail (clean_TemplateElement q) = tail q
  /\ clean_TemplateElement (clean_TemplateElement q) = clean_TemplateElement q.
Proof.
  pose proof (cleanString_fixed (raw q)) as Fr.
  pose proof (cleanString_fixed (cooked q)) as Fc.
  assert (K : (clean_TemplateElement q = q
               /\ (plain (raw q) \/ plain (cooked q)))
              \/ (clean_TemplateElement q
                    = mkTemplateElement (cleanString (raw q))
                        (cleanString (cooked q)) (tail q)
                  /\ ~ plain (raw q) /\ ~ plain (cooked q))).
  { unfold clean_TemplateElement.
    destruct (String.eqb_spec (cleanString (raw q)) (raw q));
      destruct (String.eqb_spec (cleanString (cooked q)) (cooked q));
      simpl; tauto. }
  destruct K as [[E P]|[E [Nr Nc]]]; rewrite !E.
  - repeat split; try tauto.
  - repeat split; simpl; try tauto.
    + intros H. exfalso. apply Nr, Fr. now rewrite <- H at 2.
    + unfold clean_TemplateElement. simpl.
      now rewrite !cleanString_idempotent, String.eqb_refl.
Qed.


Lemma clean_TemplateElement_again (q : TemplateElement) :
  clean_TemplateElement (clean_TemplateElement q) = clean_TemplateElement q.
Proof.
  unfold clean_TemplateElement.
  destruct (String.eqb (cleanString (raw q)) (raw q)
            || String.eqb (cleanString (cooked q)) (cooked q)) eqn:G.
  - now rewrite G.
  - simpl. now rewrite !cleanString_idempotent, String.eqb_refl.
Qed.

Lemma clean_again_nodes :
  (forall e, clean_e (clean_e e) = clean_e e) /\
  (forall s, clean_s (clean_s s) = clean_s s) /\
  (forall b, clean_b (clean_b b) = clean_b b).
Proof.
  apply node_ind; simpl; intros; auto;
    repeat match goal with H : _ = _ |- _ => rewrite H; clear H end;
    auto;
    try (f_equal; apply map_map_over; eapply Forall_impl; [|eassumption];
         simpl; intros; auto; fail).
  - rewrite clean_StringLiteral_eq. simpl.
    now rewrite clean_StringLiteral_eq, cleanString_idempotent.
  - f_equal.
    + apply map_map_over. apply Forall_forall. intros q _.
      apply clean_TemplateElement_again.
    + apply map_map_over. exact H.
  - f_equal. apply map_map_over. eapply Forall_impl; [|exact H].
    simpl. intros d Hd. now rewrite Hd.
Qed.

(** X13: the traversal that patches the literals is idempotent: on a unit
    it has patched it changes nothing, so the literals it puts in the
    tree need no second visit, and what it returns holds no string
    literal that spells a placeholder. *)
Theorem clean_is_idempotent (t : program) :
  clean (clean t) = clean t
  /\ Forall plain (strings (clean t)).
Proof.
  split.
  - unfold clean. simpl. f_equal. apply map_map_over.
    apply Forall_forall. intros s _. apply clean_again_nodes.
  - destruct (clean_program t) as [-> _].
    apply Forall_forall. intros str Hs. apply in_map_iff in Hs as [x [<- _]].
    apply cleanString_spells.
Qed.


(** ** When the third step fails *)

Lemma mapM_never {S A B : Type} (Q : A -> bool) (f : A -> S -> R (B * S))
    (l : list A) :
  Forall (fun x => Q x = true -> forall s y s', f x s <> Ok (y, s')) l ->
  existsb Q l = true -> forall s ys s', mapM f l s <> Ok (ys, s').
Proof.
  induction 1 as [|x l Hx _ IH]; simpl; intros HQ s ys s' Hf; [discriminate|].
  destruct (f x s) as [[y s1]|] eqn:F; simpl in Hf; [|discriminate].
  destruct (mapM f l s1) as [[ys1 s2]|] eqn:M; simpl in Hf; [|discriminate].
  apply orb_true_iff in HQ as [HQ|HQ].
  - eapply Hx; eauto.
  - eapply IH; eauto.
Qed.

Lemma visit_Identifier_marker (n : string) (u : unit) :
  is_marker n = true -> visit_Identifier n <> Ok u.
Proof. unfold is_marker, visit_Identifier. now intros ->. Qed.

Lemma visit_Identifiers_marker (ps : list string) (u : unit) :
  existsb is_marker ps = true -> visit_Identifiers ps <> Ok u.
Proof.
  intros H E. apply visit_Identifiers_ok in E. congruence.
Qed.

Section Stray.
Variable generateUid : program -> list string -> string -> string.
Variable scope : program.
Variable m : registry.

Ltac elsewhere x :=
  destruct x as [?| |?|?|? ?|?o ?q|? ?|? ?|? ?|? ?]; try reflexivity;
  simpl;
  match goal with
  | H : forall o, MemberExpression _ ?q <> _ |- _ =>
      destruct (String.eqb q "_Straits") eqn:Q; [|reflexivity];
      apply String.eqb_eq in Q; subst; exfalso; eapply H; reflexivity
  end.

Lemma stray_member_elsewhere (x : expr) (p : string) (cur : blockpath) :
  (forall o, x <> MemberExpression o "_Straits") ->
  stray_e m cur (MemberExpression x p) = stray_e m cur x || is_marker p.
Proof. intros H. elsewhere x. Qed.

Lemma stray_computed_elsewhere (x y : expr) (cur : blockpath) :
  (forall o, x <> MemberExpression o "_Straits") ->
  stray_e m cur (ComputedMemberExpression x y) = stray_e m cur x || stray_e m cur y.
Proof. intros H. elsewhere x. Qed.

Ltac strays :=
  repeat match goal with
    | H : _ || _ = true |- _ => apply orb_true_iff in H; destruct H
    end.

Ltac refute :=
  match goal with
  | IH : (forall cur, stray_e m cur ?e = true -> _), S : stray_e m _ ?e = true,
    E : rw_e generateUid scope m _ ?e _ = Ok _ |- _ => exact (IH _ S _ _ _ E)
  | IH : (forall cur, stray_s m cur ?e = true -> _), S : stray_s m _ ?e = true,
    E : rw_s generateUid scope m _ ?e _ = Ok _ |- _ => exact (IH _ S _ _ _ E)
  | IH : (forall cur, stray_b m cur ?e = true -> _), S : stray_b m _ ?e = true,
    E : rw_b generateUid scope m _ ?e _ = Ok _ |- _ => exact (IH _ S _ _ _ E)
  | S : is_marker ?n = true, E : visit_Identifier ?n = Ok _ |- _ =>
      exact (visit_Identifier_marker _ _ S E)
  | S : existsb is_marker ?n = true, E : visit_Identifiers ?n = Ok _ |- _ =>
      exact (visit_Identifiers_marker _ _ S E)
  end.

Lemma rw_stray_nodes :
  (forall e cur, stray_e m cur e = true ->
     forall st y st', rw_e generateUid scope m cur e st <> Ok (y, st')) /\
  (forall s cur, stray_s m cur s = true ->
     forall st y st', rw_s generateUid scope m cur s st <> Ok (y, st')) /\
  (forall b cur, stray_b m cur b = true ->
     forall st y st', rw_b generateUid scope m cur b st <> Ok (y, st')).
Proof.
  apply node_ind_deep; intros.
  all: try (simpl in *; try discriminate;
            match goal with |- _ <> Ok _ => intros Hrw end;
            simpl in Hrw; unbind; strays; refute; fail).
  - (* TemplateLiteral *)
    intros Hrw. simpl in *. unbind.
    eapply (mapM_never (stray_e m cur)); [|eassumption|eassumption].
    eapply Forall_impl; [|exact H]. simpl. auto.
  - (* MemberExpression *)
    intros Hrw. destruct (access_or_not x) as [[o ->]|Hx].
    + simpl in H1, Hrw.
      destruct (rw_e generateUid scope m cur o st) as [[o' st1]|] eqn:E;
        simpl in Hrw; [|discriminate].
      destruct (provideSymbol generateUid scope p st1) as [id st2].
      simpl in Hrw. bind_ok Hrw. bind_ok Hrw.
      strays; [exact (H0 _ _ eq_refl _ H1 _ _ _ E)|refute].
    + rewrite rw_member_elsewhere in Hrw by assumption.
      rewrite stray_member_elsewhere in H1 by assumption.
      unbind. strays; refute.
  - (* ComputedMemberExpression *)
    intros Hrw. destruct (access_or_not x) as [[o ->]|Hx].
    + simpl in H2, Hrw. unbind.
      strays; [exact (H0 _ _ eq_refl _ H2 _ _ _ E)|refute].
    + rewrite rw_computed_elsewhere in Hrw by assumption.
      rewrite stray_computed_elsewhere in H2 by assumption.
      unbind. strays; refute.
  - (* CallExpression *)
    intros Hrw. simpl in *. unbind. strays; [refute|].
    eapply (mapM_never (stray_e m cur)); [|eassumption|eassumption].
    eapply Forall_impl; [|exact H0]. simpl. auto.
  - (* VariableDeclaration *)
    intros Hrw. simpl in *. unbind.
    eapply (mapM_never (fun d => is_marker (fst d) || stray_e m cur (snd d)));
      [|eassumption|eassumption].
    eapply Forall_impl; [|exact H]. simpl. intros d IH Hd st0 y0 st1 Hrw.
    unbind. strays; [refute|].
    match goal with
    | S : stray_e m _ (snd d) = true, E : rw_e _ _ _ _ (snd d) _ = Ok _ |- _ =>
        exact (IH _ S _ _ _ E)
    end.
  - (* Block *)
    intros Hrw. simpl in *. destruct (Map_has path_eqb m (r :: cur)); [discriminate|].
    unbind.
    eapply (mapM_never (stray_s m (r :: cur))); [|eassumption|eassumption].
    eapply Forall_impl; [|exact H]. simpl. auto.
Qed.
End Stray.


(** X16: a marker that strays, standing in the body of a namespace
    elsewhere than as the inner property of a trait access, makes the turn
    of that namespace in the third step fail on an assertion, whatever
    else the body holds and whatever the host answers. *)
Theorem stray_marker_refused
    (generateUid : program -> list string -> string -> string) (scope : program)
    (key : blockpath) (t : program) (m : registry) (uids : list string)
    (ns : TraitNamespace) (ss : list stmt) :
  Map_get path_eqb m key = Some ns ->
  get_block key t = Some ss ->
  existsb (stray_s m key) ss = true ->
  rewrite_one generateUid scope key (t, m, uids) = Throw (AssertionError None).
Proof.
  intros G B S. unfold rewrite_one. rewrite G, B.
  destruct (mapM (rw_s generateUid scope m key) ss (ns, uids))
    as [[ss' st']|x] eqn:E; simpl.
  - exfalso. revert E. apply (mapM_never (stray_s m key)); [|exact S].
    apply Forall_forall. intros s _ Hs. now apply rw_stray_nodes.
  - f_equal. revert E. apply (mapM_throws (fun x => x = AssertionError None)).
    apply Forall_forall. intros s _ st0 x0. apply rw_throws_nodes.
Qed.

Lemma stray_marker_refused_witness :
  rewrite_one Samples.sample_generateUid Samples.stray_marker []
      (Samples.stray_marker,
       [([], mkTraitNamespace (mkNodePath 1 []) [] [mkNodePath 1 []] [])], [])
    = Throw (AssertionError None).
Proof.
  apply (stray_marker_refused Samples.sample_generateUid Samples.stray_marker []
           Samples.stray_marker
           [([], mkTraitNamespace (mkNodePath 1 []) [] [mkNodePath 1 []] [])] []
           (mkTraitNamespace (mkNodePath 1 []) [] [mkNodePath 1 []] [])
           (program_body Samples.stray_marker));
    reflexivity.
Defined.


(** ** When the third step succeeds *)

Lemma symbols_get_In (s : list (string * string)) (n id : string) :
  Map_get String.eqb s n = Some id -> In (n, id) s.
Proof.
  induction s as [|[k v] s IH]; simpl; [discriminate|].
  destruct (String.eqb k n) eqn:Q.
  - apply String.eqb_eq in Q. intros H. inversion H; subst. now left.
  - auto.
Qed.

Section Total.
Variable generateUid : program -> list string -> string -> string.
Variable scope : program.
Variable m : registry.

Lemma provideSymbol_unmarked (p : string) (st : TraitNamespace * list string) :
  never_marker generateUid scope p ->
  unmarked st ->
  is_marker (fst (provideSymbol generateUid scope p st)) = false
  /\ unmarked (snd (provideSymbol generateUid scope p st)).
Proof.
  destruct st as [ns uids]. unfold unmarked, provideSymbol. simpl. intros host U.
  destruct (Map_get String.eqb (symbols ns) p) as [id|] eqn:G; simpl.
  - split; [|exact U]. apply symbols_get_In in G.
    rewrite Forall_forall in U. exact (U _ G).
  - split; [apply host|]. rewrite (symbols_set_new _ _ _ G).
    apply Forall_app. split; [exact U|]. repeat constructor. apply host.
Qed.

Lemma mapM_total {A B : Type} (Q : A -> bool) (N : A -> list string)
    (f : A -> TraitNamespace * list string -> R (B * (TraitNamespace * list string)))
    (l : list A) :
  Forall (fun x => Q x = false -> Forall (never_marker generateUid scope) (N x) ->
            forall st, unmarked st ->
            exists y st', f x st = Ok (y, st') /\ unmarked st') l ->
  existsb Q l = false ->
  Forall (never_marker generateUid scope) (flat_map N l) ->
  forall st, unmarked st ->
  exists ys st', mapM f l st = Ok (ys, st') /\ unmarked st'.
Proof.
  induction 1 as [|x l Hx _ IH]; simpl; intros HQ HN st U; [eauto|].
  apply orb_false_iff in HQ as [Q1 Q2]. apply Forall_app in HN as [N1 N2].
  destruct (Hx Q1 N1 _ U) as (y & s1 & -> & U1). simpl.
  destruct (IH Q2 N2 _ U1) as (ys & s2 & -> & U2). simpl. eauto.
Qed.

Ltac clear_strays :=
  repeat match goal with
    | H : _ || _ = false |- _ => apply orb_false_iff in H; destruct H
    | H : Forall _ (_ ++ _) |- _ => apply Forall_app in H; destruct H
    end.

Ltac run :=
  repeat match goal with
    | IH : (forall cur, stray_e m cur ?e = false -> _), S : stray_e m ?c ?e = false,
      N : Forall _ (requested_e m ?c ?e),
      U : unmarked ?st |- context [rw_e generateUid scope m ?c ?e ?st] =>
        let y := fresh "y" in let s := fresh "s" in
        let E := fresh "E" in let V := fresh "U" in
        destruct (IH _ S N _ U) as (y & s & E & V); rewrite E; simpl; clear E
    | IH : (forall cur, stray_s m cur ?e = false -> _), S : stray_s m ?c ?e = false,
      N : Forall _ (requested_s m ?c ?e),
      U : unmarked ?st |- context [rw_s generateUid scope m ?c ?e ?st] =>
        let y := fresh "y" in let s := fresh "s" in
        let E := fresh "E" in let V := fresh "U" in
        destruct (IH _ S N _ U) as (y & s & E & V); rewrite E; simpl; clear E
    | IH : (forall cur, stray_b m cur ?e = false -> _), S : stray_b m ?c ?e = false,
      N : Forall _ (requested_b m ?c ?e),
      U : unmarked ?st |- context [rw_b generateUid scope m ?c ?e ?st] =>
        let y := fresh "y" in let s := fresh "s" in
        let E := fresh "E" in let V := fresh "U" in
        destruct (IH _ S N _ U) as (y & s & E & V); rewrite E; simpl; clear E
    | S : is_marker ?n = false |- context [visit_Identifier ?n] =>
        rewrite (visit_Identifier_other _ S); simpl
    | S : existsb is_marker ?n = false |- context [visit_Identifiers ?n] =>
        rewrite (visit_Identifiers_other _ S); simpl
    end.

Lemma rw_total_nodes :
  (forall e cur, stray_e m cur e = false ->
     Forall (never_marker generateUid scope) (requested_e m cur e) ->
     forall st, unmarked st ->
     exists y st', rw_e generateUid scope m cur e st = Ok (y, st') /\ unmarked st') /\
  (forall s cur, stray_s m cur s = false ->
     Forall (never_marker generateUid scope) (requested_s m cur s) ->
     forall st, unmarked st ->
     exists y st', rw_s generateUid scope m cur s st = Ok (y, st') /\ unmarked st') /\
  (forall b cur, stray_b m cur b = false ->
     Forall (never_marker generateUid scope) (requested_b m cur b) ->
     forall st, unmarked st ->
     exists y st', rw_b generateUid scope m cur b st = Ok (y, st') /\ unmarked st').
Proof.
  apply node_ind_deep; intros.
  all: try (simpl in *; try discriminate; clear_strays; run; eauto; fail).
  - (* TemplateLiteral *)
    simpl in *.
    destruct (mapM_total (stray_e m cur) (requested_e m cur)
                (rw_e generateUid scope m cur) es)
      with (st := st) as (ys & s1 & E & U1); auto.
    { eapply Forall_impl; [|exact H]. simpl. auto. }
    rewrite E. simpl. eauto.
  - (* MemberExpression *)
    match goal with
    | Hd : (forall o q, _ = MemberExpression o q -> _),
      Hs : stray_e _ _ _ = false, Hn : Forall _ _, Hu : unmarked _ |- _ =>
        rename Hd into IHo; rename Hs into S; rename Hn into N; rename Hu into U
    end.
    destruct (access_or_not x) as [[o ->]|Hx].
    + simpl in S, N. clear_strays.
      match goal with
      | So : stray_e m cur o = false, No : Forall _ (requested_e m cur o) |- _ =>
          destruct (IHo _ _ eq_refl _ So No _ U) as (o' & s1 & E & U1)
      end.
      simpl. rewrite E. simpl.
      match goal with
      | Np : Forall _ [p] |- _ => apply Forall_inv in Np;
          destruct (provideSymbol_unmarked p s1 Np U1) as [Pm Pu]
      end.
      destruct (provideSymbol generateUid scope p s1) as [id st2].
      simpl in Pm, Pu. run. eauto.
    + rewrite rw_member_elsewhere by assumption.
      rewrite stray_member_elsewhere in S by assumption.
      rewrite requested_member_elsewhere in N by assumption.
      clear_strays. run. eauto.
  - (* ComputedMemberExpression *)
    match goal with
    | Hd : (forall o q, _ = MemberExpression o q -> _),
      Hs : stray_e _ _ _ = false, Hn : Forall _ _, Hu : unmarked _ |- _ =>
        rename Hd into IHo; rename Hs into S; rename Hn into N; rename Hu into U
    end.
    destruct (access_or_not x) as [[o ->]|Hx].
    + simpl in S, N. clear_strays.
      match goal with
      | So : stray_e m cur o = false, No : Forall _ (requested_e m cur o) |- _ =>
          destruct (IHo _ _ eq_refl _ So No _ U) as (o' & s1 & E & U1)
      end.
      simpl. rewrite E. simpl. run. eauto.
    + rewrite rw_computed_elsewhere by assumption.
      rewrite stray_computed_elsewhere in S by assumption.
      rewrite requested_computed_elsewhere in N by assumption.
      clear_strays. run. eauto.
  - (* CallExpression *)
    simpl in *. clear_strays. run.
    match goal with
    | U1 : unmarked ?s |- context [mapM _ args ?s] =>
        destruct (mapM_total (stray_e m cur) (requested_e m cur)
                    (rw_e generateUid scope m cur) args)
          with (st := s) as (ys & s1 & E & U2); auto
    end.
    { eapply Forall_impl; [|eassumption]. simpl. auto. }
    rewrite E. simpl. eauto.
  - (* VariableDeclaration *)
    simpl in *.
    match goal with
    | |- context [mapM ?f ds st] =>
        destruct (mapM_total
                    (fun d => is_marker (fst d) || stray_e m cur (snd d))
                    (fun d => requested_e m cur (snd d)) f ds)
          with (st := st) as (ys & s1 & E & U1); auto
    end.
    { eapply Forall_impl; [|eassumption]. simpl. intros d IH Hd Nd st0 U0.
      clear_strays. run. eauto. }
    rewrite E. simpl. eauto.
  - (* Block *)
    simpl in *. destruct (Map_has path_eqb m (r :: cur)); [eauto|].
    destruct (mapM_total (stray_s m (r :: cur)) (requested_s m (r :: cur))
                (rw_s generateUid scope m (r :: cur)) ss)
      with (st := st) as (ys & s1 & E & U1); auto.
    { eapply Forall_impl; [|eassumption]. simpl. auto. }
    rewrite E. simpl. eauto.
Qed.
End Total.


Lemma uid_search_shape (fuel : nat) (taken : list string) (name : string) (i : nat) :
  exists j, Samples.uid_search fuel taken name i = Samples.uid_name name j.
Proof.
  revert i. induction fuel as [|fuel IH]; intros i; simpl; [eauto|].
  destruct (existsb _ taken); eauto.
Qed.

(** X17: the turn of a namespace in the third step succeeds as soon as no
    marker strays in the body of the namespace, the host does not answer
    with the name of the markers for any of the trait names requested in
    that body, and no symbol of the namespace is bound to that name: the
    body is written back at the path of the namespace, the namespace is
    put back at its key, and its symbols are still bound to other names
    than the markers'. *)
Theorem traversal_succeeds
    (generateUid : program -> list string -> string -> string) (scope : program)
    (key : blockpath) (t : program) (m : registry) (uids : list string)
    (ns : TraitNamespace) (ss : list stmt) :
  Forall (never_marker generateUid scope) (flat_map (requested_s m key) ss) ->
  Map_get path_eqb m key = Some ns ->
  get_block key t = Some ss ->
  existsb (stray_s m key) ss = false ->
  unmarked (ns, uids) ->
  exists ss' ns' uids',
    rewrite_one generateUid scope key (t, m, uids)
      = Ok (set_block key ss' t, Map_set path_eqb m key ns', uids')
    /\ unmarked (ns', uids').
Proof.
  intros host G B S U. unfold rewrite_one. rewrite G, B.
  destruct (mapM_total generateUid scope (stray_s m key) (requested_s m key)
              (rw_s generateUid scope m key) ss)
    with (st := (ns, uids)) as (ss' & [ns' uids'] & E & U'); auto.
  { apply Forall_forall. intros s _ Hs Hn st0 U0.
    now apply (rw_total_nodes generateUid scope m). }
  rewrite E. simpl. eauto.
Qed.

Lemma traversal_succeeds_witness :
  Forall (never_marker Samples.sample_generateUid Samples.nested)
    (flat_map (requested_s Samples.nested_namespaces [])
       (program_body Samples.nested))
  /\ exists ss' ns' uids',
       rewrite_one Samples.sample_generateUid Samples.nested []
           (Samples.nested, Samples.nested_namespaces, [])
         = Ok (set_block [] ss' Samples.nested,
               Map_set path_eqb Samples.nested_namespaces [] ns', uids')
       /\ unmarked (ns', uids').
Proof.
  assert (H : Forall (never_marker Samples.sample_generateUid Samples.nested)
                (flat_map (requested_s Samples.nested_namespaces [])
                   (program_body Samples.nested))).
  { repeat constructor; intros made;
      unfold Samples.sample_generateUid;
      match goal with
      | |- context [Samples.uid_search ?f ?k ?n ?i] =>
          destruct (uid_search_shape f k n i) as [j ->]
      end; reflexivity. }
  split; [exact H|].
  apply (traversal_succeeds Samples.sample_generateUid Samples.nested []
           Samples.nested Samples.nested_namespaces []
           (mkTraitNamespace (mkNodePath 1 []) [] [mkNodePath 1 []] [])
           (program_body Samples.nested)).
  - exact H.
  - reflexivity.
  - reflexivity.
  - reflexivity.
  - constructor.
Defined.


(** X18: on a namespace whose body holds no identifier of the name of the
    markers, the turn of the third step asks the host for nothing, makes
    no symbol and writes the body back as it read it, with any host. *)
Theorem marker_free_body_untouched
    (generateUid : program -> list string -> string -> string) (scope : program)
    (key : blockpath) (t : program) (m : registry) (uids : list string)
    (ns : TraitNamespace) (ss : list stmt) :
  Map_get path_eqb m key = Some ns ->
  get_block key t = Some ss ->
  existsb is_marker (flat_map identifiers_s ss) = false ->
  rewrite_one generateUid scope key (t, m, uids)
    = Ok (set_block key ss t, m, uids).
Proof.
  intros G B F. unfold rewrite_one. rewrite G, B.
  rewrite (mapM_idle (rw_s generateUid scope m key) ss (ns, uids)).
  - simpl. now rewrite (Map_set_same _ _ _ G).
  - apply existsb_flat_map_false in F. eapply Forall_impl; [|exact F].
    intros s Hs. now apply rw_idle_nodes.
Qed.

Lemma marker_free_body_untouched_witness :
  rewrite_one Samples.sample_generateUid Samples.two_providers []
      (Samples.two_providers,
       [([], mkTraitNamespace (mkNodePath 1 []) []
               [mkNodePath 1 []; mkNodePath 2 []] [])], ["_getSymbol"])
    = Ok (set_block [] (program_body Samples.two_providers) Samples.two_providers,
          [([], mkTraitNamespace (mkNodePath 1 []) []
                  [mkNodePath 1 []; mkNodePath 2 []] [])], ["_getSymbol"]).
Proof.
  apply (marker_free_body_untouched Samples.sample_generateUid
           Samples.two_providers [] Samples.two_providers
           [([], mkTraitNamespace (mkNodePath 1 []) []
                   [mkNodePath 1 []; mkNodePath 2 []] [])] ["_getSymbol"]
           (mkTraitNamespace (mkNodePath 1 []) []
              [mkNodePath 1 []; mkNodePath 2 []] [])
           (program_body Samples.two_providers)); reflexivity.
Defined.


(** ** The second step cannot fail *)

Section InheritTotal.
Variable t : program.

Lemma addProviders_total (key : blockpath) (ps : list NodePath) :
  Forall (fun p => body_expression t p <> None) ps ->
  forall m, every_namespace (listed t) m ->
  exists m', addProviders t key ps m = Ok m' /\ every_namespace (listed t) m'.
Proof.
  unfold addProviders.
  induction 1 as [|p ps Hp _ IH]; simpl; intros m L; [eauto|].
  destruct (Map_get path_eqb m key) as [ns|] eqn:G; simpl; [|auto].
  destruct (addProvider t ns p) as [ns'|e] eqn:A.
  - simpl. apply IH. apply every_namespace_set; [assumption|].
    eapply addProvider_listed; eauto.
  - exfalso. unfold addProvider in A.
    destruct (body_expression t p); [discriminate|congruence].
Qed.

Lemma inherit_while_total (key parent : blockpath) :
  forall m, every_namespace (listed t) m ->
  exists m', inherit_while t key parent m = Ok m' /\ every_namespace (listed t) m'.
Proof.
  induction parent as [|r up IH]; simpl; intros m L.
  - destruct (Map_get path_eqb m []) as [above|] eqn:G; simpl; [|eauto].
    destruct (addProviders_total key (providers above)) with (m := m)
      as (m' & -> & L'); simpl; eauto.
    now destruct (L _ _ G) as (_ & _ & F).
  - destruct (Map_get path_eqb m (r :: up)) as [above|] eqn:G; simpl; [|eauto].
    destruct (addProviders_total key (providers above)) with (m := m)
      as (m' & -> & L'); simpl; eauto.
    now destruct (L _ _ G) as (_ & _ & F).
Qed.

Lemma inherit_loop_total (l : list blockpath) :
  forall m, every_namespace (listed t) m ->
  exists m', foldM (inherit_one t) l m = Ok m' /\ every_namespace (listed t) m'.
Proof.
  induction l as [|key l IH]; simpl; intros m L; [eauto|].
  destruct key as [|r parent]; simpl; [auto|].
  destruct (inherit_while_total (r :: parent) parent m L) as (m1 & -> & L1).
  simpl. auto.
Qed.
End InheritTotal.

(** X19: once the first step has succeeded the second step cannot fail:
    every provider it hands to [addProvider] comes from a namespace of the
    first step, where it was found to have an expression, and the
    resolver put at the head of the unit moves no statement. *)
Theorem second_step_succeeds (g : string) (t : program) (m : registry) :
  collect t = Ok m ->
  exists m2, inherit (unshiftContainer (GetSymbolDeclaration g) t) m = Ok m2.
Proof.
  intros H.
  destruct (inherit_loop_total (unshiftContainer (GetSymbolDeclaration g) t)
              (map fst m) m) as (m2 & E & _).
  - intros k ns G. apply listed_unshift. exact (collect_listed _ _ H _ _ G).
  - exists m2. exact E.
Qed.

Lemma second_step_succeeds_witness :
  exists m2,
    inherit (unshiftContainer (GetSymbolDeclaration "_getSymbol") Samples.nested)
      Samples.nested_namespaces = Ok m2.
Proof.
  apply (second_step_succeeds "_getSymbol" Samples.nested Samples.nested_namespaces).
  reflexivity.
Defined.


(** ** The third step changes symbols only *)

Lemma renamed_refl (ns : TraitNamespace) : renamed ns ns.
Proof. repeat split. exists []. now rewrite app_nil_r. Qed.

Lemma renamed_trans (a b c : TraitNamespace) :
  renamed a b -> renamed b c -> renamed a c.
Proof.
  intros (H1 & H2 & H3 & [x Hx]) (K1 & K2 & K3 & [y Hy]).
  repeat split; try congruence. exists (x ++ y). rewrite Hy, Hx. now rewrite app_assoc.
Qed.

Lemma renames_refl (m : registry) : renames m m.
Proof. induction m; constructor; auto using renamed_refl. Qed.

Lemma renames_trans (a b c : registry) : renames a b -> renames b c -> renames a c.
Proof.
  intros H. revert c. induction H as [|x y a b [Hk Hg] _ IH]; intros c Hc.
  - inversion Hc. constructor.
  - inversion Hc as [|? z ? c' [Hk' Hg'] Hc']; subst. constructor.
    + split; [congruence|eauto using renamed_trans].
    + now apply IH.
Qed.

Lemma renames_set (m : registry) (key : blockpath) (ns ns' : TraitNamespace) :
  Map_get path_eqb m key = Some ns -> renamed ns ns' ->
  renames m (Map_set path_eqb m key ns').
Proof.
  induction m as [|[k v] m IH]; simpl; [discriminate|].
  destruct (path_eqb k key); intros G Hg.
  - inversion G; subst. constructor; [now split|apply renames_refl].
  - constructor; [split; [reflexivity|apply renamed_refl]|now apply IH].
Qed.

Lemma renames_get (m m' : registry) (k : blockpath) (ns : TraitNamespace) :
  renames m m' -> Map_get path_eqb m k = Some ns ->
  exists ns', Map_get path_eqb m' k = Some ns' /\ renamed ns ns'.
Proof.
  induction 1 as [|[k1 v1] [k2 v2] m m' [Hk Hg] _ IH]; simpl; [discriminate|].
  simpl in Hk, Hg. subst k2. destruct (path_eqb k1 k); [|exact IH].
  intros G. inversion G; subst. eauto.
Qed.

Lemma renames_keys (m m' : registry) : renames m m' -> map fst m' = map fst m.
Proof.
  induction 1 as [|x y m m' [Hk _] _ IH]; simpl; [reflexivity|]. now rewrite Hk, IH.
Qed.

(** X20: the third step changes the namespaces in one way only: it adds
    symbols after those a namespace had.  The keys and their order, the
    anchors and the providers are those the second step left, so the
    declarations pass to the resolver the providers that were inherited
    before any rewriting. *)
Theorem third_step_adds_symbols_only
    (generateUid : program -> list string -> string -> string)
    (scope t t' : program) (m m' : registry) (uids uids' : list string) :
  rewrite_all generateUid scope t m uids = Ok (t', m', uids') ->
  map fst m' = map fst m
  /\ forall k ns, Map_get path_eqb m k = Some ns ->
       exists ns' added,
         Map_get path_eqb m' k = Some ns'
         /\ path ns' = path ns
         /\ blockPath ns' = blockPath ns
         /\ providers ns' = providers ns
         /\ symbols ns' = symbols ns ++ added.
Proof.
  intros H. unfold rewrite_all in H.
  assert (Hr : renames m m').
  { apply (foldM_keeps (fun acc => renames m (snd (fst acc)))) in H;
      [exact H| |apply renames_refl].
    apply Forall_forall. intros key _ [[t0 m0] u0] [[t1 m1] u1] Hs Hm. simpl in Hm. simpl.
    eapply renames_trans; [exact Hm|].
    destruct (Map_get path_eqb m0 key) as [ns|] eqn:G.
    - destruct (rewrite_one_minted _ _ _ _ _ _ _ _ _ _ Hs G)
        as [ns' [-> (Hp & Hb & Hv & [added [Hy _]])]].
      apply renames_set with (ns := ns); [exact G|].
      repeat split; auto. now exists added.
    - unfold rewrite_one in Hs. rewrite G in Hs. inversion Hs; subst.
      apply renames_refl. }
  split; [now apply renames_keys|].
  intros k ns G. destruct (renames_get _ _ _ _ Hr G)
    as [ns' [G' (Hp & Hb & Hv & [added Hy])]].
  exists ns', added. auto.
Qed.

Lemma third_step_adds_symbols_only_witness :
  map fst (snd (fst Samples.nested_rewritten)) = map fst Samples.nested_inherited
  /\ forall k ns, Map_get path_eqb Samples.nested_inherited k = Some ns ->
       exists ns' added,
         Map_get path_eqb (snd (fst Samples.nested_rewritten)) k = Some ns'
         /\ path ns' = path ns
         /\ blockPath ns' = blockPath ns
         /\ providers ns' = providers ns
         /\ symbols ns' = symbols ns ++ added.
Proof.
  apply (third_step_adds_symbols_only Samples.sample_generateUid Samples.nested
           Samples.nested (fst (fst Samples.nested_rewritten))
           Samples.nested_inherited (snd (fst Samples.nested_rewritten))
           ["_getSymbol"] (snd Samples.nested_rewritten)).
  reflexivity.
Defined.


(** ** When the first step succeeds *)

Lemma foldM_total {S A : Type} (Q : A -> bool) (f : A -> S -> R S) (l : list A) :
  Forall (fun x => Q x = false -> forall s, exists s', f x s = Ok s') l ->
  existsb Q l = false -> forall s, exists s', foldM f l s = Ok s'.
Proof.
  induction 1 as [|x l Hx _ IH]; simpl; intros HQ s; [eauto|].
  apply orb_false_iff in HQ as [Q1 Q2].
  destruct (Hx Q1 s) as [s1 ->]. simpl. auto.
Qed.

Lemma addProvider_total (t : program) (ns : TraitNamespace) (p : NodePath) :
  body_expression t p <> None -> exists ns', addProvider t ns p = Ok ns'.
Proof.
  unfold addProvider. destruct (body_expression t p); [eauto|congruence].
Qed.

Lemma visit_total (t : program) (cur : blockpath) (r : nat) (l : string)
    (m : registry) :
  body_expression t (mkNodePath r cur) <> None ->
  exists m', visit_LabeledStatement t true cur r l m = Ok m'.
Proof.
  intros B. unfold visit_LabeledStatement, defaultGet, TraitNamespace_new.
  destruct (negb (String.eqb l "_StraitsProvider")); [eauto|]. simpl.
  destruct (Map_get path_eqb m cur) as [ns|]; simpl.
  - destruct (addProvider_total t ns _ B) as [ns' ->]. simpl. eauto.
  - destruct (addProvider_total t (mkTraitNamespace (mkNodePath r cur) cur [] []) _ B)
      as [ns1 E].
    simpl in E. rewrite E. simpl.
    destruct (addProvider_total t ns1 _ B) as [ns' ->]. simpl. eauto.
Qed.

Lemma visit_unready (t : program) (ok : bool) (cur : blockpath) (r : nat)
    (l : string) (m m' : registry) :
  String.eqb l "_StraitsProvider" = true ->
  body_expression t (mkNodePath r cur) = None ->
  visit_LabeledStatement t ok cur r l m <> Ok m'.
Proof.
  intros L B. unfold visit_LabeledStatement, defaultGet, TraitNamespace_new.
  rewrite L. simpl. destruct ok; simpl; [|discriminate].
  unfold addProvider. simpl. rewrite B.
  destruct (Map_get path_eqb m cur); simpl; discriminate.
Qed.


Lemma collect_unready_nodes (t : program) :
  (forall e cur, unready_e t cur e = true ->
     forall m m', collect_e t cur e m <> Ok m') /\
  (forall s cur, unready_s t cur s = true ->
     forall ok m m', collect_s t ok cur s m <> Ok m') /\
  (forall b cur, unready_b t cur b = true ->
     forall m m', collect_b t cur b m <> Ok m').
Proof.
  apply node_ind; simpl; intros; try discriminate;
    try match goal with |- ?x <> Ok _ => intros Hc end;
    repeat match goal with H : bind _ _ = Ok _ |- _ => bind_ok H end;
    repeat match goal with
      | H : _ || _ = true |- _ => apply orb_true_iff in H; destruct H
      end;
    try (match goal with
         | IH : forall cur, _ -> forall _ _ _, _ <> Ok _ |- _ => eapply IH; eauto; fail
         | IH : forall cur, _ -> forall _ _, _ <> Ok _ |- _ => eapply IH; eauto; fail
         end);
    try (match goal with
         | F : Forall _ ?l, S : existsb ?Q ?l = true, E : foldM _ ?l _ = Ok _ |- _ =>
             revert E; apply (foldM_never Q); [|exact S];
             eapply Forall_impl; [|exact F]; simpl; intros; eauto
         end; fail).
  apply andb_true_iff in H0 as [Hl Hb].
  destruct (body_expression t (mkNodePath r cur)) eqn:B; [discriminate|].
  exact (visit_unready _ _ _ _ _ _ _ Hl B E).
Qed.

Lemma existsb_orb {A : Type} (f g : A -> bool) (l : list A) :
  existsb (fun x => f x || g x) l = existsb f l || existsb g l.
Proof.
  induction l as [|x l IH]; simpl; [reflexivity|]. rewrite IH.
  destruct (f x), (g x), (existsb f l), (existsb g l); reflexivity.
Qed.

Ltac settle :=
  repeat match goal with
    | H : _ || _ = false |- _ => apply orb_false_iff in H; destruct H
    end.

Ltac advance t :=
  repeat match goal with
    | IH : (forall cur, misplaced_e ?e = false -> _),
      M : misplaced_e ?e = false, U : unready_e t ?c ?e = false
      |- context [collect_e t ?c ?e ?m] =>
        let m' := fresh "m" in let E := fresh "E" in
        destruct (IH c M U m) as [m' E]; rewrite E; simpl; clear E
    | IH : (forall cur ok, misplaced_s ok ?e = false -> _),
      M : misplaced_s ?ok ?e = false, U : unready_s t ?c ?e = false
      |- context [collect_s t ?ok ?c ?e ?m] =>
        let m' := fresh "m" in let E := fresh "E" in
        destruct (IH c ok M U m) as [m' E]; rewrite E; simpl; clear E
    | IH : (forall cur, misplaced_b ?e = false -> _),
      M : misplaced_b ?e = false, U : unready_b t ?c ?e = false
      |- context [collect_b t ?c ?e ?m] =>
        let m' := fresh "m" in let E := fresh "E" in
        destruct (IH c M U m) as [m' E]; rewrite E; simpl; clear E
    end.

Lemma collect_total_nodes (t : program) :
  (forall e cur, misplaced_e e = false -> unready_e t cur e = false ->
     forall m, exists m', collect_e t cur e m = Ok m') /\
  (forall s cur ok, misplaced_s ok s = false -> unready_s t cur s = false ->
     forall m, exists m', collect_s t ok cur s m = Ok m') /\
  (forall b cur, misplaced_b b = false -> unready_b t cur b = false ->
     forall m, exists m', collect_b t cur b m = Ok m').
Proof.
  apply node_ind; simpl; intros; settle; advance t; eauto.
  - apply (foldM_total (fun x => misplaced_e x || unready_e t cur x));
      [|rewrite existsb_orb; now apply orb_false_iff].
    eapply Forall_impl; [|exact H]. simpl. intros e IH Q. settle. auto.
  - apply (foldM_total (fun x => misplaced_e x || unready_e t cur x));
      [|rewrite existsb_orb; now apply orb_false_iff].
    eapply Forall_impl; [|eassumption]. simpl. intros e IH Q. settle. auto.
  - match goal with
    | M : _ && negb ok = false, U : _ && _ = false |- _ =>
        rename M into Hm; rename U into Hu
    end.
    destruct (String.eqb l "_StraitsProvider") eqn:L; simpl in Hm, Hu.
    + destruct ok; [|discriminate].
      destruct (body_expression t (mkNodePath r cur)) eqn:B; [|discriminate].
      destruct (visit_total t cur r l m) as [m1 E]; [congruence|].
      rewrite E. simpl. auto.
    + unfold visit_LabeledStatement. rewrite L. simpl. auto.
  - apply (foldM_total (fun d => misplaced_e (snd d) || unready_e t cur (snd d)));
      [|rewrite (existsb_orb (fun d => misplaced_e (snd d))); now apply orb_false_iff].
    eapply Forall_impl; [|exact H]. simpl. intros d IH Q. settle. auto.
  - apply (foldM_total (fun x => misplaced_s true x || unready_s t (r :: cur) x));
      [|rewrite existsb_orb; now apply orb_false_iff].
    eapply Forall_impl; [|exact H]. simpl. intros s IH Q. settle. auto.
Qed.

(** X21: the first step succeeds exactly when no provider statement is
    misplaced, standing elsewhere than directly in a block or in the
    program, and every provider statement has an expression; so the pass
    returns a tree only for such units. *)
Theorem first_step_succeeds_iff (t : program) :
  ((exists m, collect t = Ok m) <-> misplaced t = false /\ unready t = false)
  /\ (forall generateUid t',
        Program_visitor generateUid t = Ok t' ->
        misplaced t = false /\ unready t = false).
Proof.
  assert (Hc : forall m, collect t = Ok m -> misplaced t = false /\ unready t = false).
  { intros m H. split; apply not_true_iff_false; intros Q; revert H.
    - apply (foldM_never (misplaced_s true)); [|exact Q].
      apply Forall_forall. intros s _ Hs m1 m2.
      now apply (collect_misplaced_nodes t).
    - apply (foldM_never (unready_s t [])); [|exact Q].
      apply Forall_forall. intros s _ Hs m1 m2.
      now apply (collect_unready_nodes t). }
  split; [split|].
  - intros [m H]. eauto.
  - intros [M U]. unfold collect.
    apply (foldM_total (fun x => misplaced_s true x || unready_s t [] x));
      [|rewrite existsb_orb; now apply orb_false_iff].
    apply Forall_forall. intros s _ Q m. settle.
    now apply (collect_total_nodes t).
  - intros generateUid t' H. unfold Program_visitor in H. bind_ok H. eauto.
Qed.


(** ** A unit with its providers at the top level *)

Lemma existsb_flat_map_none {A : Type} (Q : A -> bool) (ids : A -> list string)
    (l : list A) :
  Forall (fun x => Q x = false -> existsb is_marker (ids x) = false) l ->
  existsb Q l = false -> existsb is_marker (flat_map ids l) = false.
Proof.
  induction 1 as [|x l Hx _ IH]; simpl; intros HQ; [reflexivity|].
  apply orb_false_iff in HQ as [Q1 Q2].
  rewrite existsb_app, (Hx Q1), (IH Q2). reflexivity.
Qed.

Lemma top_keys_miss (keys : list blockpath) (r : nat) (cur : blockpath) :
  (forall k, In k keys -> k = []) -> Set_has path_eqb keys (r :: cur) = false.
Proof.
  intros H. apply not_true_iff_false. intros S. apply Set_has_In in S.
  apply H in S. discriminate.
Qed.

Lemma unexposed_nodes (keys : list blockpath) :
  (forall k, In k keys -> k = []) ->
  (forall e cur, exposed_e keys cur e = false ->
     existsb is_marker (identifiers_e e) = false) /\
  (forall s cur, exposed_s keys cur s = false ->
     existsb is_marker (identifiers_s s) = false) /\
  (forall b cur, exposed_b keys cur b = false ->
     existsb is_marker (identifiers_b b) = false).
Proof.
  intros K. apply node_ind; simpl; intros;
    repeat match goal with
      | H : _ || _ = false |- _ => apply orb_false_iff in H; destruct H
      end;
    repeat rewrite existsb_app; simpl;
    repeat match goal with
      | IH : forall cur, _ = false -> _ = false, H : _ = false |- _ =>
          rewrite (IH _ H); clear IH
      end;
    repeat match goal with H : _ = false |- _ => rewrite H end;
    simpl; try reflexivity;
    try (eapply existsb_flat_map_none; [|eassumption];
         eapply Forall_impl; [|eassumption]; simpl; intros; eauto; fail).
  - eapply existsb_flat_map_none; [|eassumption].
    eapply Forall_impl; [|exact H]. simpl. intros d IH Q.
    apply orb_false_iff in Q as [Q1 Q2]. now rewrite Q1, (IH _ Q2).
  - rewrite top_keys_miss in H0 by assumption.
    eapply existsb_flat_map_none; [|eassumption].
    eapply Forall_impl; [|exact H]. simpl. eauto.
Qed.

Lemma existsb_same {A : Type} (f g : A -> bool) (l : list A) :
  Forall (fun x => f x = g x) l -> existsb f l = existsb g l.
Proof. induction 1 as [|x l Hx _ IH]; simpl; congruence. Qed.

Lemma stray_keys_nodes (m m' : registry) :
  (forall r c, Map_has path_eqb m (r :: c) = Map_has path_eqb m' (r :: c)) ->
  (forall e cur, stray_e m cur e = stray_e m' cur e) /\
  (forall s cur, stray_s m cur s = stray_s m' cur s) /\
  (forall b cur, stray_b m cur b = stray_b m' cur b).
Proof.
  intros K. apply node_ind_deep; intros.
  all: try (simpl;
            repeat match goal with H : forall cur, _ = _ |- _ => rewrite H; clear H end;
            reflexivity).
  - simpl. apply existsb_same. eapply Forall_impl; [|exact H]. simpl. auto.
  - destruct (access_or_not x) as [[o ->]|Hx].
    + simpl. now rewrite (H0 _ _ eq_refl).
    + rewrite !stray_member_elsewhere by assumption. now rewrite H.
  - destruct (access_or_not x) as [[o ->]|Hx].
    + simpl. now rewrite (H0 _ _ eq_refl), H1.
    + rewrite !stray_computed_elsewhere by assumption. now rewrite H, H1.
  - simpl. rewrite H. f_equal.
    apply existsb_same. eapply Forall_impl; [|exact H0]. simpl. auto.
  - simpl. apply existsb_same. eapply Forall_impl; [|exact H]. simpl.
    intros d Hd. now rewrite Hd.
  - simpl. rewrite K. destruct (Map_has path_eqb m' (r :: cur)); [reflexivity|].
    apply existsb_same. eapply Forall_impl; [|exact H]. simpl. auto.
Qed.

Lemma identifiers_clean_nodes :
  (forall e, identifiers_e (clean_e e) = identifiers_e e) /\
  (forall s, identifiers_s (clean_s s) = identifiers_s s) /\
  (forall b, identifiers_b (clean_b b) = identifiers_b b).
Proof.
  apply node_ind; simpl; intros;
    repeat match goal with H : _ = _ |- _ => rewrite H; clear H end;
    try reflexivity;
    try (f_equal; apply flat_map_map_same; eapply Forall_impl; [|eassumption];
         simpl; intros; auto; fail);
    try (apply flat_map_map_same; eapply Forall_impl; [|eassumption];
         simpl; intros; auto; fail).
  - now rewrite clean_StringLiteral_eq.
  - apply flat_map_map_same. eapply Forall_impl; [|eassumption]. simpl.
    intros d Hd. now rewrite Hd.
Qed.

Lemma identifiers_clean (t : program) : identifiers (clean t) = identifiers t.
Proof.
  unfold identifiers, clean. simpl. apply flat_map_map_same.
  apply Forall_forall. intros s _. apply identifiers_clean_nodes.
Qed.

Lemma insert_before_clear (r : nat) (new : stmt) (ss : list stmt) :
  existsb is_marker (identifiers_s new) = false ->
  existsb is_marker (flat_map identifiers_s ss) = false ->
  existsb is_marker (flat_map identifiers_s (insert_before r new ss)) = false.
Proof.
  intros Hn. induction ss as [|s ss IH]; [auto|].
  cbn [flat_map]. rewrite existsb_app. intros H.
  apply orb_false_iff in H as [H1 H2].
  destruct s as [e|r' l b|b|k ds|i ps b|e|e s'|g]; cbn [insert_before flat_map];
    try (rewrite existsb_app, H1, IH; auto; fail).
  destruct (Nat.eqb r' r); cbn [flat_map].
  - now rewrite !existsb_app, Hn, H1, H2.
  - now rewrite existsb_app, H1, IH.
Qed.

Lemma remove_labeled_clear (r : nat) (ss : list stmt) :
  existsb is_marker (flat_map identifiers_s ss) = false ->
  existsb is_marker (flat_map identifiers_s (remove_labeled r ss)) = false.
Proof.
  induction ss as [|s ss IH]; [auto|].
  cbn [flat_map]. rewrite existsb_app. intros H.
  apply orb_false_iff in H as [H1 H2].
  destruct s as [e|r' l b|b|k ds|i ps b|e|e s'|g]; cbn [remove_labeled flat_map];
    try (rewrite existsb_app, H1, IH; auto; fail).
  destruct (Nat.eqb r' r); cbn [flat_map]; [assumption|].
  now rewrite existsb_app, H1, IH.
Qed.

Lemma find_labeled_clear (r : nat) (ss : list stmt) (s : stmt) :
  existsb is_marker (flat_map identifiers_s ss) = false ->
  find_labeled r ss = Some s ->
  existsb is_marker (identifiers_s s) = false.
Proof.
  intros H F. destruct (find_labeled_split _ _ _ F) as (pre & post & l & b & -> & -> & _).
  rewrite flat_map_app, existsb_app in H. apply orb_false_iff in H as [_ H].
  cbn [flat_map] in H. rewrite existsb_app in H.
  now apply orb_false_iff in H as [H _].
Qed.



Lemma collect_total (t : program) :
  misplaced t = false -> unready t = false -> exists m, collect t = Ok m.
Proof.
  intros M U. unfold collect.
  apply (foldM_total (fun x => misplaced_s true x || unready_s t [] x));
    [|rewrite existsb_orb; now apply orb_false_iff].
  apply Forall_forall. intros s _ Q m. apply orb_false_iff in Q as [Q1 Q2].
  now apply (collect_total_nodes t).
Qed.

Lemma single_key (t : program) (m : registry) :
  collect t = Ok m -> governed t = [[]] -> exists ns, m = [([], ns)].
Proof.
  intros H G.
  pose proof (collect_keys_NoDup _ _ H) as N.
  pose proof (collect_keys_governed _ _ H) as K1.
  pose proof (collect_governed_keys _ _ H) as K2.
  rewrite G in K1, K2.
  destruct m as [|[k ns] rest].
  - destruct (K2 [] (or_introl eq_refl)).
  - destruct (K1 k (or_introl eq_refl)) as [<-|[]].
    destruct rest as [|[k2 ns2] rest]; [now exists ns|].
    destruct (K1 k2 (or_intror (or_introl eq_refl))) as [<-|[]].
    simpl in N. inversion N as [|? ? Hn _]; subst. exfalso. apply Hn. now left.
Qed.

Lemma body_expression_clear (t : program) (p : NodePath) (e : expr) :
  parentPath p = [] ->
  existsb is_marker (identifiers t) = false ->
  body_expression t p = Some e ->
  existsb is_marker (identifiers_e e) = false.
Proof.
  unfold body_expression, path_node. intros -> C. simpl.
  destruct (find_labeled (node p) (program_body t)) as [s|] eqn:F; [|discriminate].
  apply (find_labeled_clear _ _ _ C) in F.
  destruct s as [?|r l b| | | | | |]; try discriminate.
  destruct b; try discriminate. intros H. inversion H; subst.
  simpl in F. now apply orb_false_iff in F as [_ F].
Qed.

Lemma declaration_clear (g : string) (t : program) (ns : TraitNamespace) :
  is_marker g = false ->
  Forall (fun entry => is_marker (snd entry) = false) (symbols ns) ->
  (forall p e, In p (providers ns) -> body_expression t p = Some e ->
     existsb is_marker (identifiers_e e) = false) ->
  existsb is_marker (identifiers_s (declaration g t ns)) = false.
Proof.
  intros Hg Hs Hp. unfold declaration. simpl.
  assert (He : existsb is_marker
                 (flat_map identifiers_e (providingExpressions t ns)) = false).
  { unfold providingExpressions.
    assert (Hq : forall p, In p (providers ns) -> In p (providers ns)) by auto.
    revert Hq. generalize (providers ns) at 1 3.
    induction l as [|p l IH]; simpl; intros Hq; [reflexivity|].
    rewrite flat_map_app, existsb_app, IH by auto.
    destruct (body_expression t p) as [e|] eqn:B; simpl; [|reflexivity].
    rewrite app_nil_r. rewrite (Hp p e); auto. }
  induction Hs as [|entry l Hentry _ IH]; simpl; [reflexivity|].
  rewrite Hentry, Hg. simpl. rewrite existsb_app, He. exact IH.
Qed.


Lemma flat_map_same {A B : Type} (f g : A -> list B) (l : list A) :
  Forall (fun x => f x = g x) l -> flat_map f l = flat_map g l.
Proof. induction 1 as [|x l Hx _ IH]; simpl; congruence. Qed.

Lemma requested_keys_nodes (m m' : registry) :
  (forall r c, Map_has path_eqb m (r :: c) = Map_has path_eqb m' (r :: c)) ->
  (forall e cur, requested_e m cur e = requested_e m' cur e) /\
  (forall s cur, requested_s m cur s = requested_s m' cur s) /\
  (forall b cur, requested_b m cur b = requested_b m' cur b).
Proof.
  intros K. apply node_ind_deep; intros.
  all: try (simpl;
            repeat match goal with H : forall cur, _ = _ |- _ => rewrite H; clear H end;
            reflexivity).
  - simpl. apply flat_map_same. eapply Forall_impl; [|exact H]. simpl. auto.
  - destruct (access_or_not x) as [[o ->]|Hx].
    + simpl. now rewrite (H0 _ _ eq_refl).
    + rewrite !requested_member_elsewhere by assumption. now rewrite H.
  - destruct (access_or_not x) as [[o ->]|Hx].
    + simpl. now rewrite (H0 _ _ eq_refl), H1.
    + rewrite !requested_computed_elsewhere by assumption. now rewrite H, H1.
  - simpl. rewrite H. f_equal.
    apply flat_map_same. eapply Forall_impl; [|exact H0]. simpl. auto.
  - simpl. apply flat_map_same. eapply Forall_impl; [|exact H]. simpl. auto.
  - simpl. rewrite K. destruct (Map_has path_eqb m' (r :: cur)); [reflexivity|].
    apply flat_map_same. eapply Forall_impl; [|exact H]. simpl. auto.
Qed.

(** X22: the pass returns a tree for every unit whose provider statements
    all stand directly in the program, each with an expression, and whose
    markers are all inner properties of trait accesses, as long as the
    host answers with the name of the markers neither for the resolver
    nor for any of the trait names that the unit requests. *)
Theorem top_level_pass_succeeds
    (generateUid : program -> list string -> string -> string) (t : program) :
  is_marker (generateUid t [] "getSymbol") = false ->
  Forall (never_marker generateUid t)
    (flat_map (requested_s [] []) (program_body t)) ->
  governed t = [[]] ->
  misplaced t = false ->
  unready t = false ->
  existsb (stray_s [] []) (program_body t) = false ->
  exists t', Program_visitor generateUid t = Ok t'.
Proof.
  intros host names G M U S.
  destruct (collect_total t M U) as [m Hc].
  destruct (single_key _ _ Hc G) as [ns ->].
  assert (Ha : parentPath (path ns) = []).
  { apply (anchored_get (collect_anchored _ _ Hc) (key := [])). reflexivity. }
  assert (Ho : forall p, In p (providers ns) -> parentPath p = []).
  { intros p Hp. apply (collect_owned _ _ Hc [] p). exact Hp. }
  assert (Hy : symbols ns = []).
  { apply (collect_without_symbols _ _ Hc []). reflexivity. }
  set (g := generateUid t [] "getSymbol").
  set (t1 := unshiftContainer (GetSymbolDeclaration g) t).
  destruct (mapM_total generateUid t (stray_s [([], ns)] [])
              (requested_s [([], ns)] [])
              (rw_s generateUid t [([], ns)] []) (program_body t1))
    with (st := (ns, [g])) as (ss' & [ns' uids'] & E & U').
  { apply Forall_forall. intros s _ Hs Hn st0 U0.
    now apply (rw_total_nodes generateUid t [([], ns)]). }
  { cbn [t1 unshiftContainer program_body existsb stray_s]. unfold g at 1.
    rewrite host. cbn [orb]. rewrite <- S.
    apply existsb_same. apply Forall_forall. intros s _.
    now apply stray_keys_nodes. }
  { cbn [t1 unshiftContainer program_body flat_map requested_s app].
    rewrite (flat_map_same _ (requested_s [] [])); [exact names|].
    apply Forall_forall. intros s _.
    now apply requested_keys_nodes. }
  { unfold unmarked. cbn [fst]. rewrite Hy. constructor. }
  assert (H2 : inherit t1 [([], ns)] = Ok [([], ns)]) by reflexivity.
  assert (H3 : rewrite_all generateUid t t1 [([], ns)] [g]
               = Ok (Program ss', [([], ns')], uids')).
  { unfold rewrite_all. cbn [map fst foldM]. unfold rewrite_one.
    cbn [Map_get]. rewrite path_eqb_refl. cbn [get_block]. rewrite E.
    cbn [bind set_block Map_set]. now rewrite path_eqb_refl. }
  assert (Hm : minted (ns, [g]) (ns', uids')).
  { apply (mapM_keeps minted minted_refl minted_trans (fun _ => false)) in E;
      [tauto|].
    apply Forall_forall. intros s _ st0 y st1 Hs.
    apply (rw_keeps_nodes generateUid t [([], ns)] minted minted_refl minted_trans
             (provideSymbol_minted generateUid t)) in Hs.
    tauto. }
  destruct Hm as (Hp & _ & Hv & _). cbn [fst] in Hp, Hv.
  assert (C : existsb is_marker (flat_map identifiers_s ss') = false).
  { apply (mapM_keeps (fun _ _ => True) (fun _ => I) (fun _ _ _ _ _ => I)
             (exposed_s (map fst [([], ns)]) [])) in E.
    - destruct E as [E _]. revert E. apply existsb_flat_map_none.
      apply Forall_forall. intros s _.
      apply (unexposed_nodes [[]]). intros k [<-|[]]. reflexivity.
    - apply Forall_forall. intros s _ st0 y st1.
      apply (rw_keeps_nodes generateUid t [([], ns)] (fun _ _ => True)); auto. }
  assert (C4 : exists body4,
             finalize g (Program ss') ns' = Program body4
             /\ existsb is_marker (flat_map identifiers_s body4) = false).
  { unfold finalize. destruct (Nat.eqb (List.length (symbols ns')) 0); [eauto|].
    unfold insertBefore. rewrite Hp, Ha. cbn [get_block set_block program_body].
    eexists. split; [reflexivity|].
    apply insert_before_clear; [|exact C].
    apply declaration_clear; [apply host|exact U'|].
    intros p e Hin. apply body_expression_clear; [|exact C].
    apply Ho. now rewrite <- Hv. }
  destruct C4 as (body4 & E4 & C4).
  assert (H4 : finalCheck (clean (remove (finalize g (Program ss') ns') ns')) = Ok tt).
  { apply finalCheck_Ok. rewrite <- is_marker_In, identifiers_clean.
    apply not_true_iff_false. rewrite E4.
    unfold remove, path_remove. rewrite Hp, Ha.
    cbn [get_block set_block program_body].
    now apply remove_labeled_clear. }
  unfold Program_visitor. rewrite Hc. cbn [bind List.length Nat.eqb].
  fold g. fold t1. rewrite H2. cbn [bind]. rewrite H3.
  cbn [bind map snd fold_left]. rewrite H4. cbn [bind]. eauto.
Qed.

Lemma top_level_pass_succeeds_witness :
  exists t', Program_visitor Samples.sample_generateUid Samples.one_access = Ok t'.
Proof.
  apply (top_level_pass_succeeds Samples.sample_generateUid Samples.one_access).
  - reflexivity.
  - repeat constructor; intros made;
      unfold Samples.sample_generateUid;
      match goal with
      | |- context [Samples.uid_search ?f ?k ?n ?i] =>
          destruct (uid_search_shape f k n i) as [j ->]
      end; reflexivity.
  - reflexivity.
  - reflexivity.
  - reflexivity.
  - reflexivity.
Defined.


(** X23: in a unit whose provider statements all stand directly in the
    program, each with an expression, a marker that strays makes the pass
    fail on the assertion of the third step, with any host. *)
Theorem top_level_stray_refused
    (generateUid : program -> list string -> string -> string) (t : program) :
  governed t = [[]] ->
  misplaced t = false ->
  unready t = false ->
  existsb (stray_s [] []) (program_body t) = true ->
  Program_visitor generateUid t = Throw (AssertionError None).
Proof.
  intros G M U S.
  destruct (collect_total t M U) as [m Hc].
  destruct (single_key _ _ Hc G) as [ns ->].
  set (g := generateUid t [] "getSymbol").
  set (t1 := unshiftContainer (GetSymbolDeclaration g) t).
  assert (H2 : inherit t1 [([], ns)] = Ok [([], ns)]) by reflexivity.
  assert (H3 : rewrite_all generateUid t t1 [([], ns)] [g]
               = Throw (AssertionError None)).
  { destruct (rewrite_all generateUid t t1 [([], ns)] [g])
      as [[[t3 m3] u3]|x] eqn:W.
    - exfalso. unfold rewrite_all in W. cbn [map fst foldM] in W.
      bind_ok W. unfold rewrite_one in E. cbn [Map_get] in E.
      rewrite path_eqb_refl in E. cbn [get_block] in E. bind_ok E.
      destruct a0 as [ss' st']. revert E0.
      apply (mapM_never (stray_s [([], ns)] [])).
      + apply Forall_forall. intros s _ Hs. now apply rw_stray_nodes.
      + cbn [t1 unshiftContainer program_body existsb].
        apply orb_true_iff. right.
        rewrite <- S. apply existsb_same. apply Forall_forall. intros s _.
        now apply stray_keys_nodes.
    - f_equal. eapply rewrite_all_throws; eauto. }
  unfold Program_visitor. rewrite Hc. cbn [bind List.length Nat.eqb].
  fold g. fold t1. rewrite H2. cbn [bind]. rewrite H3. reflexivity.
Qed.

Lemma top_level_stray_refused_witness :
  Program_visitor Samples.sample_generateUid Samples.stray_marker
    = Throw (AssertionError None).
Proof.
  apply (top_level_stray_refused Samples.sample_generateUid Samples.stray_marker);
    reflexivity.
Defined.


(** ** What the pass makes of a unit with top-level providers only *)

Lemma or_else_None {A : Type} (a : option A) : or_else a None = a.
Proof. now destruct a. Qed.

Lemma site_false (cur : blockpath) (s : stmt) : site false cur s = None.
Proof. destruct cur; [|reflexivity]. now destruct s. Qed.

Lemma addProvider_path (t : program) (ns ns' : TraitNamespace) (p : NodePath) :
  addProvider t ns p = Ok ns' -> path ns' = path ns.
Proof.
  unfold addProvider. destruct (body_expression t p); [|discriminate].
  intros E. now inversion E.
Qed.

Lemma top_anchor_set (m : registry) (cur : blockpath) (ns : TraitNamespace) :
  top_anchor (Map_set path_eqb m cur ns)
    = match cur with
      | [] => Some (path ns)
      | _ :: _ => top_anchor m
      end.
Proof.
  unfold top_anchor. rewrite Map_get_set. now destruct cur.
Qed.

Lemma visit_anchor (t : program) (ok : bool) (cur : blockpath) (r : nat)
    (l : string) (s' : stmt) (m m' : registry) :
  visit_LabeledStatement t ok cur r l m = Ok m' ->
  top_anchor m' = or_else (top_anchor m) (site ok cur (LabeledStatement r l s')).
Proof.
  unfold visit_LabeledStatement, defaultGet, TraitNamespace_new.
  destruct (String.eqb l "_StraitsProvider") eqn:L; cbn [negb].
  - intros E. destruct ok; simpl in E; [|discriminate].
    destruct (Map_get path_eqb m cur) as [ns|] eqn:G; simpl in E.
    + bind_ok E. inversion E; subst. rewrite top_anchor_set.
      apply addProvider_path in E0.
      destruct cur; cbn [site andb]; rewrite ?L.
      * unfold top_anchor. rewrite G. simpl. now rewrite E0.
      * now rewrite or_else_None.
    + destruct (addProvider t _ (mkNodePath r cur)) as [ns|] eqn:A; simpl in E;
        [|discriminate].
      bind_ok E. inversion E; subst. rewrite !top_anchor_set.
      apply addProvider_path in A, E0. simpl in A.
      destruct cur; cbn [site andb]; rewrite ?L.
      * unfold top_anchor. rewrite G. simpl. now rewrite E0, A.
      * now rewrite or_else_None.
  - intros E. inversion E; subst.
    destruct cur; cbn [site]; rewrite ?L, ?andb_false_r; now rewrite or_else_None.
Qed.

Lemma collect_anchor_nodes (t : program) :
  (forall e cur m m', collect_e t cur e m = Ok m' -> top_anchor m' = top_anchor m) /\
  (forall s ok cur m m', collect_s t ok cur s m = Ok m' ->
     top_anchor m' = or_else (top_anchor m) (site ok cur s)) /\
  (forall b cur m m', collect_b t cur b m = Ok m' -> top_anchor m' = top_anchor m).
Proof.
  apply node_ind; simpl; intros;
    repeat match goal with H : bind _ _ = Ok _ |- _ => bind_ok H end;
    try match goal with H : Ok _ = Ok _ |- _ => inversion H; subst; clear H end;
    try reflexivity.
  all: try (destruct cur; cbn [site]; rewrite ?or_else_None).
  all: repeat match goal with
         | IH : (forall cur m m', _ = Ok m' -> _), E : _ = Ok _ |- _ =>
             apply IH in E
         end.
  all: try congruence.
  all: try (match goal with
            | F : foldM _ _ ?a = Ok _ |- _ =>
                apply (foldM_keeps (fun s => top_anchor s = top_anchor a)) in F;
                  [congruence| |reflexivity]
            end;
            eapply Forall_impl; [|eassumption]; simpl; intros;
            match goal with
            | IH : (forall cur m m', _ = Ok m' -> _), E : _ = Ok _ |- _ =>
                apply IH in E; congruence
            | IH : (forall ok cur m m', _ = Ok m' -> _), E : _ = Ok _ |- _ =>
                apply IH in E; simpl in E; rewrite or_else_None in E; congruence
            end).
  all: repeat match goal with
         | IH : (forall ok cur m m', collect_s _ ok cur ?s m = Ok m' -> _),
           E : collect_s _ false _ ?s _ = Ok _ |- _ =>
             apply IH in E; rewrite site_false, or_else_None in E
         | E : visit_LabeledStatement _ _ _ ?r ?l _ = Ok _ |- _ =>
             match goal with
             | IH : (forall ok cur m m', collect_s _ ok cur ?s m = Ok m' -> _) |- _ =>
                 apply (visit_anchor _ _ _ _ _ s) in E
             end
         end.
  all: try (simpl in *; rewrite ?or_else_None in *; congruence).
Qed.

Lemma site_provider (s : stmt) :
  match site true [] s with
  | Some p => exists r b, s = LabeledStatement r "_StraitsProvider" b
                          /\ p = mkNodePath r []
  | None => is_provider s = false
  end.
Proof.
  destruct s as [e|r l b|b|k ds|i ps b|e|e s'|g]; simpl; try reflexivity.
  destruct (String.eqb l "_StraitsProvider") eqn:L; [|reflexivity].
  apply String.eqb_eq in L. subst. eauto.
Qed.

Lemma collect_first_provider (t : program) (ss : list stmt) :
  forall m m', foldM (collect_s t true []) ss m = Ok m' ->
  top_anchor m = None ->
  (existsb is_provider ss = false /\ top_anchor m' = None)
  \/ (exists pre r b post,
        ss = pre ++ LabeledStatement r "_StraitsProvider" b :: post
        /\ existsb is_provider pre = false
        /\ top_anchor m' = Some (mkNodePath r [])).
Proof.
  induction ss as [|s ss IH]; simpl; intros m m' H Hm.
  - inversion H; subst. now left.
  - bind_ok H.
    pose proof (proj1 (proj2 (collect_anchor_nodes t)) _ _ _ _ _ E) as Ha.
    rewrite Hm in Ha. cbn [or_else] in Ha.
    pose proof (site_provider s) as Hs.
    destruct (site true [] s) as [p|].
    + destruct Hs as (r & b & -> & ->). right.
      exists [], r, b, ss. repeat split.
      apply (foldM_keeps (fun x => top_anchor x = Some (mkNodePath r []))) in H;
        [exact H| |exact Ha].
      apply Forall_forall. intros x _ s1 s2 Hx H1.
      apply (proj1 (proj2 (collect_anchor_nodes t))) in Hx.
      now rewrite H1 in Hx.
    + rewrite Hs. simpl.
      destruct (IH _ _ H Ha) as [[H1 H2]|(pre & r & b & post & -> & H1 & H2)].
      * now left.
      * right. exists (s :: pre), r, b, post. repeat split; [|exact H2].
        simpl. now rewrite Hs.
Qed.

Lemma top_refs_app (a b : list stmt) : top_refs (a ++ b) = top_refs a ++ top_refs b.
Proof. apply flat_map_app. Qed.

Lemma top_refs_In (r : nat) (l : string) (b : stmt) (ss : list stmt) :
  In (LabeledStatement r l b) ss -> In r (top_refs ss).
Proof.
  intros H. apply in_flat_map. eexists. split; [exact H|]. now left.
Qed.

Lemma top_refs_find (r : nat) (ss : list stmt) :
  ~ In r (top_refs ss) -> find_labeled r ss = None.
Proof.
  induction ss as [|s ss IH]; simpl; [reflexivity|].
  destruct s as [e|r' l b|b|k ds|i ps b|e|e s'|g]; simpl; auto.
  intros H. destruct (Nat.eqb r' r) eqn:E.
  - apply Nat.eqb_eq in E. subst. exfalso. apply H. now left.
  - apply IH. intros Hin. apply H. now right.
Qed.

Lemma top_refs_map (f : stmt -> stmt) (ss : list stmt) :
  (forall s, top_refs [f s] = top_refs [s]) ->
  top_refs (map f ss) = top_refs ss.
Proof.
  intros H. induction ss as [|s ss IH]; [reflexivity|].
  change (map f (s :: ss)) with ([f s] ++ map f ss).
  change (s :: ss) with ([s] ++ ss).
  now rewrite !top_refs_app, H, IH.
Qed.

Lemma top_refs_dispatch (id : string -> string) (m : registry) (cur : blockpath)
    (ss : list stmt) :
  top_refs (map (dispatch_s id m cur) ss) = top_refs ss.
Proof. apply top_refs_map. now intros []. Qed.

Lemma top_refs_clean (ss : list stmt) : top_refs (map clean_s ss) = top_refs ss.
Proof. apply top_refs_map. now intros []. Qed.

Lemma dispatch_keys_nodes (id : string -> string) (m m' : registry) :
  (forall r c, Map_has path_eqb m (r :: c) = Map_has path_eqb m' (r :: c)) ->
  (forall e cur, dispatch_e id m cur e = dispatch_e id m' cur e) /\
  (forall s cur, dispatch_s id m cur s = dispatch_s id m' cur s) /\
  (forall b cur, dispatch_b id m cur b = dispatch_b id m' cur b).
Proof.
  intros K. apply node_ind_deep; intros.
  all: try (simpl;
            repeat match goal with H : forall cur, _ = _ |- _ => rewrite H; clear H end;
            reflexivity).
  - simpl. f_equal. apply map_ext_Forall. eapply Forall_impl; [|exact H]. simpl. auto.
  - destruct (access_or_not x) as [[o ->]|Hx].
    + simpl. now rewrite (H0 _ _ eq_refl).
    + rewrite !dispatch_member_elsewhere by assumption. now rewrite H.
  - destruct (access_or_not x) as [[o ->]|Hx].
    + simpl. now rewrite (H0 _ _ eq_refl), H1.
    + rewrite !dispatch_computed_elsewhere by assumption. now rewrite H, H1.
  - simpl. rewrite H. f_equal.
    apply map_ext_Forall. eapply Forall_impl; [|exact H0]. simpl. auto.
  - simpl. f_equal. apply map_ext_Forall. eapply Forall_impl; [|exact H]. simpl.
    intros d Hd. now rewrite Hd.
  - simpl. rewrite K. destruct (Map_has path_eqb m' (r :: cur)); [reflexivity|].
    f_equal. apply map_ext_Forall. eapply Forall_impl; [|exact H]. simpl. auto.
Qed.

Lemma addProvider_providers (t : program) (ns ns' : TraitNamespace) (p : NodePath) :
  addProvider t ns p = Ok ns' ->
  providers ns' = Set_add NodePath_eqb (providers ns) p.
Proof.
  unfold addProvider. destruct (body_expression t p); [|discriminate].
  intros E. now inversion E.
Qed.

Lemma top_providers_set (m : registry) (cur : blockpath) (ns : TraitNamespace) :
  top_providers (Map_set path_eqb m cur ns)
    = match cur with
      | [] => providers ns
      | _ :: _ => top_providers m
      end.
Proof.
  unfold top_providers. rewrite Map_get_set. now destruct cur.
Qed.

Lemma Set_add_again (p : NodePath) :
  Set_add NodePath_eqb (Set_add NodePath_eqb [] p) p = [p].
Proof.
  unfold Set_add, Set_has. simpl. now rewrite NodePath_eqb_refl.
Qed.

Lemma visit_providers (t : program) (ok : bool) (cur : blockpath) (r : nat)
    (l : string) (s' : stmt) (m m' : registry) :
  visit_LabeledStatement t ok cur r l m = Ok m' ->
  top_providers m'
    = fold_left (Set_add NodePath_eqb) (sites ok cur (LabeledStatement r l s'))
        (top_providers m).
Proof.
  unfold visit_LabeledStatement, defaultGet, TraitNamespace_new, sites.
  destruct (String.eqb l "_StraitsProvider") eqn:L; cbn [negb].
  - intros E. destruct ok; simpl in E; [|discriminate].
    destruct (Map_get path_eqb m cur) as [ns|] eqn:G; simpl in E.
    + bind_ok E. inversion E; subst. rewrite top_providers_set.
      apply addProvider_providers in E0.
      destruct cur; cbn [site andb]; rewrite ?L; [|reflexivity].
      unfold top_providers. rewrite G. simpl. exact E0.
    + destruct (addProvider t _ (mkNodePath r cur)) as [ns|] eqn:A; simpl in E;
        [|discriminate].
      bind_ok E. inversion E; subst. rewrite !top_providers_set.
      apply addProvider_providers in A, E0. simpl in A.
      destruct cur; cbn [site andb]; rewrite ?L; [|reflexivity].
      unfold top_providers. rewrite G. simpl.
      rewrite E0, A. apply Set_add_again.
  - intros E. inversion E; subst.
    destruct cur; cbn [site]; rewrite ?L, ?andb_false_r; reflexivity.
Qed.

Lemma sites_false (cur : blockpath) (s : stmt) : sites false cur s = [].
Proof. unfold sites. now rewrite site_false. Qed.

Lemma collect_providers_nodes (t : program) :
  (forall e cur m m', collect_e t cur e m = Ok m' ->
     top_providers m' = top_providers m) /\
  (forall s ok cur m m', collect_s t ok cur s m = Ok m' ->
     top_providers m'
       = fold_left (Set_add NodePath_eqb) (sites ok cur s) (top_providers m)) /\
  (forall b cur m m', collect_b t cur b m = Ok m' ->
     top_providers m' = top_providers m).
Proof.
  apply node_ind; simpl; intros;
    repeat match goal with H : bind _ _ = Ok _ |- _ => bind_ok H end;
    try match goal with H : Ok _ = Ok _ |- _ => inversion H; subst; clear H end;
    try reflexivity.
  all: try (destruct cur; cbn [sites site fold_left]).
  all: repeat match goal with
         | IH : (forall cur m m', _ = Ok m' -> _), E : _ = Ok _ |- _ =>
             apply IH in E
         end.
  all: try congruence.
  all: try (match goal with
            | F : foldM _ _ ?a = Ok _ |- _ =>
                apply (foldM_keeps (fun s => top_providers s = top_providers a)) in F;
                  [congruence| |reflexivity]
            end;
            eapply Forall_impl; [|eassumption]; simpl; intros;
            match goal with
            | IH : (forall cur m m', _ = Ok m' -> _), E : _ = Ok _ |- _ =>
                apply IH in E; congruence
            | IH : (forall ok cur m m', _ = Ok m' -> _), E : _ = Ok _ |- _ =>
                apply IH in E; simpl in E; congruence
            end).
  all: repeat match goal with
         | IH : (forall ok cur m m', collect_s _ ok cur ?s m = Ok m' -> _),
           E : collect_s _ false _ ?s _ = Ok _ |- _ =>
             apply IH in E; rewrite sites_false in E; cbn [fold_left] in E
         | E : visit_LabeledStatement _ _ _ ?r ?l _ = Ok _ |- _ =>
             match goal with
             | IH : (forall ok cur m m', collect_s _ ok cur ?s m = Ok m' -> _) |- _ =>
                 apply (visit_providers _ _ _ _ _ s) in E
             end
         end.
  all: try (simpl in *; congruence).
Qed.

Lemma collect_top_providers (t : program) (ss : list stmt) :
  forall m m', foldM (collect_s t true []) ss m = Ok m' ->
  top_providers m'
    = fold_left (Set_add NodePath_eqb)
        (map (fun r => mkNodePath r []) (provider_refs ss)) (top_providers m).
Proof.
  induction ss as [|s ss IH]; simpl; intros m m' H.
  - now inversion H.
  - bind_ok H. apply IH in H. rewrite H.
    apply (proj1 (proj2 (collect_providers_nodes t))) in E. rewrite E.
    rewrite map_app, fold_left_app. f_equal.
    destruct s as [e|r l b|b|k ds|i ps b|e|e s'|g]; try reflexivity.
    unfold sites. simpl. now destruct (String.eqb l "_StraitsProvider").
Qed.

Lemma Set_add_fresh (acc l : list NodePath) :
  NoDup (acc ++ l) -> fold_left (Set_add NodePath_eqb) l acc = acc ++ l.
Proof.
  revert acc. induction l as [|p l IH]; intros acc N; simpl.
  - now rewrite app_nil_r.
  - assert (Hp : Set_has NodePath_eqb acc p = false).
    { apply not_true_iff_false. rewrite NodePath_Set_has_In.
      apply NoDup_remove_2 in N. intros Hin. apply N. apply in_or_app. now left. }
    unfold Set_add at 2. rewrite Hp.
    rewrite IH; rewrite <- app_assoc; [reflexivity|exact N].
Qed.

Lemma provider_refs_NoDup (ss : list stmt) :
  NoDup (top_refs ss) -> NoDup (provider_refs ss).
Proof.
  induction ss as [|s ss IH]; simpl; [constructor|].
  destruct s as [e|r l b|b|k ds|i ps b|e|e s'|g]; simpl; auto.
  intros N. inversion N as [|? ? Hn N']; subst.
  destruct (String.eqb l "_StraitsProvider"); simpl; [|auto].
  constructor; [|auto]. intros Hin. apply Hn.
  clear -Hin. induction ss as [|s ss IH]; simpl in *; [contradiction|].
  destruct s as [e|r' l' b'|b'|k ds|i ps b'|e|e s'|g]; simpl in *; auto.
  destruct (String.eqb l' "_StraitsProvider"); simpl in *; intuition.
Qed.

Lemma top_paths_NoDup (l : list nat) :
  NoDup l -> NoDup (map (fun r => mkNodePath r []) l).
Proof.
  induction 1 as [|r l Hn _ IH]; simpl; constructor; [|exact IH].
  intros Hin. apply in_map_iff in Hin as (r' & E & Hin).
  inversion E; subst. contradiction.
Qed.

Lemma finalize_remove_top (g : string) (ns : TraitNamespace) (l : string)
    (s : stmt) (pre post : list stmt) :
  parentPath (path ns) = [] ->
  find_labeled (node (path ns)) pre = None ->
  remove (finalize g (Program (pre ++ LabeledStatement (node (path ns)) l s :: post)) ns)
    ns
  = Program
      (pre ++ match symbols ns with
              | [] => []
              | _ :: _ =>
                  [declaration g
                     (Program (pre ++ LabeledStatement (node (path ns)) l s :: post))
                     ns]
              end ++ post).
Proof.
  intros Ha Hn. unfold finalize, remove, path_remove, insertBefore.
  destruct (symbols ns) as [|entry rest] eqn:S; cbn [List.length Nat.eqb].
  - rewrite Ha. cbn [get_block set_block program_body].
    rewrite remove_labeled_app by assumption. cbn [remove_labeled].
    now rewrite Nat.eqb_refl.
  - rewrite Ha. cbn [get_block set_block program_body].
    rewrite insert_before_app by assumption. cbn [insert_before].
    rewrite Nat.eqb_refl.
    rewrite remove_labeled_app by assumption.
    unfold declaration at 1. cbn [remove_labeled app].
    now rewrite Nat.eqb_refl.
Qed.

Lemma top_level_steps
    (generateUid : program -> list string -> string -> string) (t t' : program) :
  governed t = [[]] ->
  Program_visitor generateUid t = Ok t' ->
  exists ns ns' uids',
    collect t = Ok [([], ns)]
    /\ steps (ns, [generateUid t [] "getSymbol"])
         (flat_map (requested_s [] []) (program_body t)) (ns', uids')
    /\ t' = clean (remove (finalize (generateUid t [] "getSymbol")
                             (Program (GetSymbolDeclaration (generateUid t [] "getSymbol")
                                       :: map (dispatch_s (symbol_of (symbols ns')) [] [])
                                            (program_body t)))
                             ns') ns').
Proof.
  intros G H.
  assert (Hp : provider_count t <> 0).
  { intros Z. pose proof (collect_nothing _ Z) as Hc.
    destruct (single_key _ _ Hc G) as [ns Hn]. discriminate. }
  destruct (visitor_with_providers _ _ _ Hp H)
    as (m & m2 & t3 & m3 & uids & Hc & Hi & Hr & ->).
  destruct (single_key _ _ Hc G) as [ns ->].
  set (g := generateUid t [] "getSymbol") in *.
  set (t1 := unshiftContainer (GetSymbolDeclaration g) t) in *.
  assert (H2 : inherit t1 [([], ns)] = Ok [([], ns)]) by reflexivity.
  rewrite H2 in Hi. inversion Hi; subst m2. clear Hi H2.
  unfold rewrite_all in Hr. cbn [map fst foldM] in Hr. bind_ok Hr.
  inversion Hr; subst a. clear Hr.
  unfold rewrite_one in E. cbn [Map_get] in E.
  change (path_eqb [] []) with true in E.
  cbn [get_block] in E. bind_ok E. destruct a as [ss' [ns' uids']].
  cbn [set_block Map_set] in E. change (path_eqb [] []) with true in E.
  inversion E; subst t3 m3 uids. clear E.
  apply (mapM_rw_ok _ (requested_s [([], ns)] [])
           (fun id => dispatch_s id [([], ns)] [])) in E0;
    [|apply Forall_forall; intros s _ st y st' Hy;
      eapply (proj1 (proj2 (rw_nodes generateUid t [([], ns)]))); eauto].
  destruct E0 as [Hst Hd].
  assert (K : forall r c, Map_has path_eqb [([], ns)] (r :: c)
                          = Map_has path_eqb ([] : registry) (r :: c)) by reflexivity.
  exists ns, ns', uids'. split; [exact Hc|]. split.
  - cbn [t1 unshiftContainer program_body flat_map requested_s app] in Hst.
    rewrite (flat_map_same _ (requested_s [] [])) in Hst; [exact Hst|].
    apply Forall_forall. intros s _. now apply requested_keys_nodes.
  - cbn [map snd fold_left].
    rewrite (Hd _ (extends_refl _)).
    cbn [t1 unshiftContainer program_body map dispatch_s fst].
    do 5 f_equal.
    apply map_ext_Forall. apply Forall_forall. intros s _.
    now apply dispatch_keys_nodes.
Qed.

(** X24: in a unit whose provider statements all stand directly in the
    program, and whose labeled statements are distinct nodes, the pass
    takes away one statement, the first provider statement, which is the
    anchor of the namespace.  The tree returned is the literal pass over
    the resolver, the statements before the anchor, the declaration of
    the symbols when a trait name is requested, and the statements after
    the anchor, every statement with its trait accesses rewritten by the
    symbols of the namespace, which are those of the trait names
    requested in the unit; the providers of the namespace are the
    provider statements of the program, in their order.  So every other
    provider statement is still a statement of the tree returned, its
    expression rewritten and its literals patched, and no labeled
    statement of the tree returned is the node of the anchor. *)
Theorem top_level_output
    (generateUid : program -> list string -> string -> string) (t t' : program) :
  governed t = [[]] ->
  NoDup (top_refs (program_body t)) ->
  Program_visitor generateUid t = Ok t' ->
  exists anchor b pre post ns',
    let resolver := generateUid t [] "getSymbol" in
    let pure := dispatch_s (symbol_of (symbols ns')) [] [] in
    let rewritten := GetSymbolDeclaration resolver :: map pure (program_body t) in
    let emitted := match symbols ns' with
                   | [] => []
                   | _ :: _ => [declaration resolver (Program rewritten) ns']
                   end in
    program_body t = pre ++ LabeledStatement anchor "_StraitsProvider" b :: post
    /\ existsb is_provider pre = false
    /\ path ns' = mkNodePath anchor []
    /\ providers ns'
       = map (fun r => mkNodePath r []) (provider_refs (program_body t))
    /\ (forall n, In n (map fst (symbols ns'))
                  <-> In n (flat_map (requested_s [] []) (program_body t)))
    /\ program_body t'
       = map clean_s
           (GetSymbolDeclaration resolver :: map pure pre ++ emitted ++ map pure post)
    /\ (forall r e,
          r <> anchor ->
          In (LabeledStatement r "_StraitsProvider" (ExpressionStatement e))
            (program_body t) ->
          In (LabeledStatement r "_StraitsProvider"
                (ExpressionStatement
                   (clean_e (dispatch_e (symbol_of (symbols ns')) [] [] e))))
            (program_body t'))
    /\ (forall l s, ~ In (LabeledStatement anchor l s) (program_body t')).
Proof.
  intros G N H.
  destruct (top_level_steps _ _ _ G H) as (ns & ns' & uids' & Hc & Hst & Ht).
  destruct Hst as (Hpath & _ & Hprov & Hk & _). cbn [fst] in Hpath, Hprov, Hk.
  rewrite (collect_without_symbols _ _ Hc [] ns eq_refl) in Hk. cbn [map] in Hk.
  unfold collect in Hc.
  assert (Hps : providers ns'
                = map (fun r => mkNodePath r []) (provider_refs (program_body t))).
  { rewrite Hprov. pose proof (collect_top_providers _ _ _ _ Hc) as Hq.
    rewrite Set_add_fresh in Hq.
    - exact Hq.
    - apply top_paths_NoDup. now apply provider_refs_NoDup. }
  destruct (collect_first_provider t _ _ _ Hc eq_refl)
    as [[_ Hn]|(pre & r & b & post & Hb & Hpre & Hr)]; [discriminate|].
  assert (Hp : path ns' = mkNodePath r []).
  { rewrite Hpath. unfold top_anchor in Hr. cbn [Map_get] in Hr.
    change (path_eqb [] []) with true in Hr. cbn [option_map] in Hr.
    congruence. }
  rewrite Hb, top_refs_app in N. cbn [top_refs flat_map app] in N.
  fold (top_refs post) in N. apply NoDup_remove_2 in N.
  set (pure := dispatch_s (symbol_of (symbols ns')) [] []) in *.
  set (g := generateUid t [] "getSymbol") in *.
  assert (Hbody : program_body t'
                  = map clean_s
                      (GetSymbolDeclaration g :: map pure pre
                       ++ match symbols ns' with
                          | [] => []
                          | _ :: _ =>
                              [declaration g
                                 (Program (GetSymbolDeclaration g
                                           :: map pure (program_body t))) ns']
                          end ++ map pure post)).
  { assert (Hrew : GetSymbolDeclaration g :: map pure (program_body t)
                   = (GetSymbolDeclaration g :: map pure pre)
                     ++ LabeledStatement (node (path ns')) "_StraitsProvider" (pure b)
                        :: map pure post).
    { rewrite Hb, map_app, Hp. reflexivity. }
    rewrite Ht, Hrew. rewrite finalize_remove_top.
    - reflexivity.
    - now rewrite Hp.
    - rewrite Hp. cbn [node]. apply top_refs_find.
      change (GetSymbolDeclaration g :: map pure pre)
        with ([GetSymbolDeclaration g] ++ map pure pre).
      rewrite top_refs_app. unfold pure. rewrite top_refs_dispatch.
      cbn [top_refs flat_map app]. fold (top_refs pre).
      intros Hin. apply N. apply in_or_app. now left. }
  exists r, b, pre, post, ns'. cbv zeta.
  split; [exact Hb|]. split; [exact Hpre|]. split; [exact Hp|].
  split; [exact Hps|].
  split; [|split; [exact Hbody|split]].
  - intros n. rewrite Hk. split.
    + intros Hin. apply absorb_In in Hin as [[]|Hin]. exact Hin.
    + intros Hin. apply absorb_In. now right.
  - intros r2 e Hne Hin. rewrite Hbody.
    change (LabeledStatement r2 "_StraitsProvider"
              (ExpressionStatement
                 (clean_e (dispatch_e (symbol_of (symbols ns')) [] [] e))))
      with (clean_s (pure (LabeledStatement r2 "_StraitsProvider"
                             (ExpressionStatement e)))).
    apply in_map. right. rewrite Hb in Hin.
    apply in_app_or in Hin as [Hin|[Hin|Hin]].
    + apply in_or_app. left. now apply in_map.
    + inversion Hin. congruence.
    + apply in_or_app. right. apply in_or_app. right. now apply in_map.
  - intros l s Hin. rewrite Hbody in Hin. apply top_refs_In in Hin.
    rewrite top_refs_clean in Hin.
    change (GetSymbolDeclaration g
            :: map pure pre ++ ?x ++ map pure post)
      with ([GetSymbolDeclaration g] ++ map pure pre ++ x ++ map pure post) in Hin.
    rewrite !top_refs_app in Hin. unfold pure in Hin.
    rewrite !top_refs_dispatch in Hin.
    apply N. apply in_app_or in Hin as [[]|Hin].
    apply in_app_or in Hin as [Hin|Hin]; [apply in_or_app; now left|].
    apply in_app_or in Hin as [Hin|Hin]; [|apply in_or_app; now right].
    destruct (symbols ns'); destruct Hin.
Qed.

Lemma top_level_output_witness :
  exists anchor b pre post ns',
    program_body Samples.two_providers_access
      = pre ++ LabeledStatement anchor "_StraitsProvider" b :: post
    /\ existsb is_provider pre = false
    /\ path ns' = mkNodePath anchor []
    /\ providers ns' = [mkNodePath 1 []; mkNodePath 2 []]
    /\ (forall r e,
          r <> anchor ->
          In (LabeledStatement r "_StraitsProvider" (ExpressionStatement e))
            (program_body Samples.two_providers_access) ->
          In (LabeledStatement r "_StraitsProvider"
                (ExpressionStatement
                   (clean_e (dispatch_e (symbol_of (symbols ns')) [] [] e))))
            (program_body Samples.two_providers_access_output))
    /\ (forall l s,
          ~ In (LabeledStatement anchor l s)
              (program_body Samples.two_providers_access_output)).
Proof.
  destruct (top_level_output Samples.sample_generateUid
              Samples.two_providers_access Samples.two_providers_access_output)
    as (anchor & b & pre & post & ns' & H1 & H2 & H3 & H4 & _ & _ & H6 & H7).
  - reflexivity.
  - repeat constructor; simpl; intuition discriminate.
  - reflexivity.
  - exists anchor, b, pre, post, ns'. repeat split; assumption.
Defined.


(** ** The symbols of a namespace and its declaration *)


End PluginProofs.
